(** * Hexuki engine: bitboard, position codec and minimax search

    A shallow embedding of [c++engine/src/core/bitboard.cpp],
    [c++engine/src/ai/minimax.cpp] and [c++engine/include/ai/minimax.h],
    followed by the properties of the engine's specification.

    Conventions.  C++ [int] values are [Z]; unsigned fields carry their
    wrap-around ([wrap_u8], [wrap_u32]).  Fixed arrays are lists read and
    written by index.  A mutable object passed by reference is threaded as a
    state.  Undefined behaviour (an array access out of range) and an
    exhausted recursion budget are [None]; a C++ exception is [Throw]. *)

From stdpp Require Import gmap list sorting strings.
From Stdlib Require Import ZArith Lia Ascii.

Local Open Scope Z_scope.

(** ** Machine integers *)

Definition wrap_u8 (z : Z) : Z := z mod 256.
Definition wrap_u32 (z : Z) : Z := z mod 2 ^ 32.

(** Two's-complement reading of the low 32 bits: the value an [int]
    expression takes on the targets the engine is built for. *)
Definition wrap_i32 (z : Z) : Z := (z + 2 ^ 31) mod 2 ^ 32 - 2 ^ 31.

Definition int_add (a b : Z) : Z := wrap_i32 (a + b).
Definition int_sub (a b : Z) : Z := wrap_i32 (a - b).
Definition int_mul (a b : Z) : Z := wrap_i32 (a * b).
Definition int_neg (a : Z) : Z := wrap_i32 (- a).

(** ** Moves (core/move.h) *)

Record Move := mkMove { hexId : Z; tileValue : Z }.

(** [operator==] on moves compares both fields. *)
Definition Move_eqb (a b : Move) : bool :=
  (hexId a =? hexId b) && (tileValue a =? tileValue b).

#[global] Instance Move_eq_dec : EqDecision Move.
Proof. solve_decision. Defined.

(** ** Positions (core/bitboard.h) *)

Definition NUM_HEXES : Z := 19.
Definition CENTER_HEX : Z := 9.
Definition STARTING_TILE : Z := 1.
Definition MAX_TILE_VALUE : Z := 9.
Definition PLAYER_1 : Z := 1.
Definition PLAYER_2 : Z := 2.

Record HexukiBitboard := mkBoard {
  hexOccupied : Z;                (* uint32_t bit mask *)
  hexValues : list Z;             (* uint8_t hexValues[NUM_HEXES] *)
  p1AvailableTiles : list Z;      (* std::vector<int> *)
  p2AvailableTiles : list Z;
  currentPlayer : Z;
  symmetryStillPossible : bool;
  tilesAreIdentical : bool;
  zobristHash : Z                 (* uint64_t *)
}.

Definition set_hexOccupied (b : HexukiBitboard) (v : Z) : HexukiBitboard :=
  mkBoard v (hexValues b) (p1AvailableTiles b) (p2AvailableTiles b)
          (currentPlayer b) (symmetryStillPossible b) (tilesAreIdentical b)
          (zobristHash b).
Definition set_hexValues (b : HexukiBitboard) (v : list Z) : HexukiBitboard :=
  mkBoard (hexOccupied b) v (p1AvailableTiles b) (p2AvailableTiles b)
          (currentPlayer b) (symmetryStillPossible b) (tilesAreIdentical b)
          (zobristHash b).
Definition set_p1AvailableTiles (b : HexukiBitboard) (v : list Z) : HexukiBitboard :=
  mkBoard (hexOccupied b) (hexValues b) v (p2AvailableTiles b)
          (currentPlayer b) (symmetryStillPossible b) (tilesAreIdentical b)
          (zobristHash b).
Definition set_p2AvailableTiles (b : HexukiBitboard) (v : list Z) : HexukiBitboard :=
  mkBoard (hexOccupied b) (hexValues b) (p1AvailableTiles b) v
          (currentPlayer b) (symmetryStillPossible b) (tilesAreIdentical b)
          (zobristHash b).
Definition set_currentPlayer (b : HexukiBitboard) (v : Z) : HexukiBitboard :=
  mkBoard (hexOccupied b) (hexValues b) (p1AvailableTiles b) (p2AvailableTiles b)
          v (symmetryStillPossible b) (tilesAreIdentical b) (zobristHash b).
Definition set_symmetryStillPossible (b : HexukiBitboard) (v : bool) : HexukiBitboard :=
  mkBoard (hexOccupied b) (hexValues b) (p1AvailableTiles b) (p2AvailableTiles b)
          (currentPlayer b) v (tilesAreIdentical b) (zobristHash b).
Definition set_tilesAreIdentical (b : HexukiBitboard) (v : bool) : HexukiBitboard :=
  mkBoard (hexOccupied b) (hexValues b) (p1AvailableTiles b) (p2AvailableTiles b)
          (currentPlayer b) (symmetryStillPossible b) v (zobristHash b).
Definition set_zobristHash (b : HexukiBitboard) (v : Z) : HexukiBitboard :=
  mkBoard (hexOccupied b) (hexValues b) (p1AvailableTiles b) (p2AvailableTiles b)
          (currentPlayer b) (symmetryStillPossible b) (tilesAreIdentical b) v.

(** Modelled from the spec: [isHexOccupied] and [getTileValue] are inlined in
    core/bitboard.h; the occupancy mask has one bit per hex and the value
    array one cell per hex. *)
Definition isHexOccupied (b : HexukiBitboard) (h : Z) : bool :=
  Z.testbit (hexOccupied b) h.

Definition getTileValue (b : HexukiBitboard) (h : Z) : Z :=
  hexValues b !!! Z.to_nat h.

(** The bag of the side to move: [(currentPlayer == PLAYER_1) ? p1 : p2]. *)
Definition moverTiles (b : HexukiBitboard) : list Z :=
  if currentPlayer b =? PLAYER_1 then p1AvailableTiles b else p2AvailableTiles b.

Definition set_moverTiles (b : HexukiBitboard) (v : list Z) : HexukiBitboard :=
  if currentPlayer b =? PLAYER_1 then set_p1AvailableTiles b v
  else set_p2AvailableTiles b v.

Definition otherPlayer (p : Z) : Z :=
  if p =? PLAYER_1 then PLAYER_2 else PLAYER_1.

(** [std::find] followed by [erase]: drop the first occurrence, if any. *)
Fixpoint eraseFirst (v : Z) (l : list Z) : list Z :=
  match l with
  | [] => []
  | x :: t => if x =? v then t else x :: eraseFirst v t
  end.

(** ** Static tables

    The geometry tables of core/bitboard.h, the key tables of core/zobrist.h
    and the members of [Move] declared in core/move.h are not among the
    sources at hand.  The functions below read them through this interface;
    an array is a function of its index. *)

Record HexPosition := mkPos { row : Z; col : Z }.
Record Direction := mkDir { dr : Z; dc : Z }.
Record ChainStarter := mkStarter { startHex : Z; dir : Direction }.
Record AdjacentList := mkAdj { adj_hexes : Z -> Z; adj_count : Z }.

Class Tables := {
  HEX_POSITIONS : Z -> HexPosition;
  ROW_COL_TO_HEX : Z -> Z -> Z;
  ADJACENT_HEXES : Z -> AdjacentList;
  CHAIN_STARTERS : Z -> ChainStarter;
  P1_CHAIN_COUNT : Z;
  P1_CHAINS : Z -> Z -> Z;
  P1_CHAIN_LENGTHS : Z -> Z;
  P2_CHAIN_COUNT : Z;
  P2_CHAINS : Z -> Z -> Z;
  P2_CHAIN_LENGTHS : Z -> Z;
  CENTER_COLUMN_HEXES : Z -> Z;
  VERTICAL_MIRROR_PAIRS : Z -> Z;
  getTileHash : Z -> Z -> Z;
  getPlayerHash : Z -> Z;
  Move_default : Move;            (* Move() *)
  Move_isValid : Move -> bool;    (* Move::isValid() *)
  SIZEOF_TTENTRY : Z
}.

(** The walk along a chain direction is a [while] loop whose exit depends on
    the tables; it is given this many iterations.  A walk that ends visits no
    hex twice, and the board has [NUM_HEXES] hexes. *)
Definition WALK_FUEL : nat := 20.

Section Model.
Context `{T : Tables}.

(** *** Zobrist hashing *)

Definition updateZobristHash (b : HexukiBitboard) (m : Move) : HexukiBitboard :=
  let h1 := Z.lxor (zobristHash b) (getTileHash (hexId m) (tileValue m)) in
  set_zobristHash b (Z.lxor h1 (getPlayerHash (currentPlayer b))).

(** Modelled from the spec: [Zobrist::hash] (core/zobrist.h) is the XOR of
    the keys of all placed tiles and of the key of the side to move. *)
Definition Zobrist_hash (b : HexukiBitboard) : Z :=
  Z.lxor
    (fold_left
       (fun acc h => if isHexOccupied b h
                     then Z.lxor acc (getTileHash h (getTileValue b h)) else acc)
       (seqZ 0 NUM_HEXES) 0)
    (getPlayerHash (currentPlayer b)).

(** *** State queries *)

Definition isGameOver (b : HexukiBitboard) : bool :=
  let occupiedCount :=
    fold_left (fun n i => if isHexOccupied b i then n + 1 else n)
              (seqZ 0 NUM_HEXES) 0 in
  occupiedCount >=? NUM_HEXES.

Definition isTileAvailable (b : HexukiBitboard) (player tileValue : Z) : bool :=
  if (tileValue <? 1) || (tileValue >? MAX_TILE_VALUE) then false
  else
    let tiles := if player =? PLAYER_1 then p1AvailableTiles b
                 else p2AvailableTiles b in
    existsb (Z.eqb tileValue) tiles.

(** *** Adjacency *)

Definition findHexAt (r c : Z) : Z :=
  if (r <? 0) || (r >=? 9) || (c <? 0) || (c >=? 5) then -1
  else ROW_COL_TO_HEX r c.

Definition hasAdjacentOccupied (b : HexukiBitboard) (h : Z) : bool :=
  if (h <? 0) || (h >=? NUM_HEXES) then false
  else
    let adj := ADJACENT_HEXES h in
    existsb (fun i => isHexOccupied b (adj_hexes adj i)) (seqZ 0 (adj_count adj)).

(** The hex after [currentHex] in direction [d]. *)
Definition nextHex (currentHex : Z) (d : Direction) : Z :=
  let pos := HEX_POSITIONS currentHex in
  findHexAt (row pos + dr d) (col pos + dc d).

(** *** Chain-length constraint *)

(** The three running maxima of [checkChainLengthConstraint]. *)
Record ChainMax := mkChainMax {
  maxLength : Z;
  secondMaxLength : Z;
  longestAffected : Z
}.

(** A chain of [currentLength] hexes ended: the block repeated at the two
    places where the source closes a chain. *)
Definition chainEnded (a : ChainMax) (currentLength : Z) (chainContainsHexId : bool)
  : ChainMax :=
  let a1 :=
    if currentLength >? maxLength a
    then mkChainMax currentLength (maxLength a) (longestAffected a)
    else if currentLength >? secondMaxLength a
         then mkChainMax (maxLength a) currentLength (longestAffected a)
         else a in
  if chainContainsHexId && (currentLength >? longestAffected a1)
  then mkChainMax (maxLength a1) (secondMaxLength a1) currentLength
  else a1.

(** The locals of one direction's walk. *)
Record WalkState := mkWalk {
  currentLength : Z;
  chainContainsHexId : bool;
  maxima : ChainMax
}.

(** One iteration of the [while (currentHex >= 0)] body, before the step to
    the next hex. *)
Definition walkBody (b : HexukiBitboard) (h currentHex : Z) (w : WalkState)
  : WalkState :=
  if isHexOccupied b currentHex
  then mkWalk (currentLength w + 1)
              (if currentHex =? h then true else chainContainsHexId w)
              (maxima w)
  else if currentLength w >? 0
       then mkWalk 0 false
                   (chainEnded (maxima w) (currentLength w) (chainContainsHexId w))
       else w.

Fixpoint walkChain (fuel : nat) (b : HexukiBitboard) (h : Z) (d : Direction)
  (currentHex : Z) (w : WalkState) : option WalkState :=
  match fuel with
  | O => None
  | S fuel' =>
      if currentHex >=? 0
      then walkChain fuel' b h d (nextHex currentHex d) (walkBody b h currentHex w)
      else Some w
  end.

(** The body of [for (int i = 0; i < 15; i++)]. *)
Definition walkStarter (b : HexukiBitboard) (h : Z) (a : ChainMax) (i : Z)
  : option ChainMax :=
  let starter := CHAIN_STARTERS i in
  match walkChain WALK_FUEL b h (dir starter) (startHex starter)
                  (mkWalk 0 false a) with
  | None => None
  | Some w =>
      Some (if currentLength w >? 0
            then chainEnded (maxima w) (currentLength w) (chainContainsHexId w)
            else maxima w)
  end.

Definition walkAllStarters (b : HexukiBitboard) (h : Z) : option ChainMax :=
  fold_left (fun acc i => match acc with
                          | Some a => walkStarter b h a i
                          | None => None
                          end)
            (seqZ 0 15) (Some (mkChainMax 0 0 0)).

(** [checkChainLengthConstraint] writes through [const_cast]; the position it
    leaves is returned with the answer. *)
Definition checkChainLengthConstraint (b : HexukiBitboard) (h : Z)
  : option (bool * HexukiBitboard) :=
  let savedValue := getTileValue b h in
  let savedOccupied := hexOccupied b in
  let b1 := set_hexOccupied b
              (wrap_u32 (Z.lor (hexOccupied b) (wrap_u32 (Z.shiftl 1 h)))) in
  let b2 := set_hexValues b1 (<[Z.to_nat h := 1]> (hexValues b1)) in
  match walkAllStarters b2 h with
  | None => None
  | Some a =>
      let b3 := set_hexValues b2 (<[Z.to_nat h := savedValue]> (hexValues b2)) in
      let b4 := set_hexOccupied b3 savedOccupied in
      Some (negb (longestAffected a >? secondMaxLength a + 1), b4)
  end.

(** *** Move validation *)

Definition isMoveLegal (b : HexukiBitboard) (h : Z) : option bool :=
  if isHexOccupied b h then Some false
  else if negb (hasAdjacentOccupied b h) then Some false
  else match checkChainLengthConstraint b h with
       | None => None
       | Some (ok, _) => Some ok
       end.

Definition isValidMove (b : HexukiBitboard) (m : Move) : option bool :=
  if negb (Move_isValid m) then Some false
  else match isMoveLegal b (hexId m) with
       | None => None
       | Some false => Some false
       | Some true => Some (isTileAvailable b (currentPlayer b) (tileValue m))
       end.

(** The manual deduplication loop of [getValidMoves]. *)
Definition uniqueTileValues (availableTiles : list Z) : list Z :=
  fold_left (fun u tile => if existsb (Z.eqb tile) u then u else u ++ [tile])
            availableTiles [].

Definition getValidMoves (b : HexukiBitboard) : option (list Move) :=
  let u := uniqueTileValues (moverTiles b) in
  fold_left
    (fun acc h =>
       match acc with
       | None => None
       | Some moves =>
           if isHexOccupied b h then Some moves
           else match isMoveLegal b h with
                | None => None
                | Some true => Some (moves ++ (mkMove h <$> u))
                | Some false => Some moves
                end
       end)
    (seqZ 0 NUM_HEXES) (Some []).

(** *** Move execution *)

Definition makeMove (b : HexukiBitboard) (m : Move) : HexukiBitboard :=
  let b1 := set_hexOccupied b
              (wrap_u32 (Z.lor (hexOccupied b) (wrap_u32 (Z.shiftl 1 (hexId m))))) in
  let b2 := set_hexValues b1
              (<[Z.to_nat (hexId m) := wrap_u8 (tileValue m)]> (hexValues b1)) in
  let b3 := set_moverTiles b2 (eraseFirst (tileValue m) (moverTiles b2)) in
  let b4 := updateZobristHash b3 m in
  set_currentPlayer b4 (otherPlayer (currentPlayer b4)).

Definition unmakeMove (b : HexukiBitboard) (m : Move) : HexukiBitboard :=
  let b1 := set_currentPlayer b (otherPlayer (currentPlayer b)) in
  let b2 := updateZobristHash b1 m in
  let b3 := set_moverTiles b2 (moverTiles b2 ++ [tileValue m]) in
  let b4 := set_hexOccupied b3
              (wrap_u32 (Z.land (hexOccupied b3)
                                (wrap_u32 (Z.lnot (wrap_u32 (Z.shiftl 1 (hexId m))))))) in
  set_hexValues b4 (<[Z.to_nat (hexId m) := 0]> (hexValues b4)).

(** *** Scoring *)

(** [calculateChainScore]: the loop stops at the [-1] padding. *)
Fixpoint chainProduct (b : HexukiBitboard) (chain : Z -> Z) (idx : list Z)
  (product : Z) : Z :=
  match idx with
  | [] => product
  | i :: rest =>
      let h := chain i in
      if h <? 0 then product
      else chainProduct b chain rest
             (if isHexOccupied b h then int_mul product (getTileValue b h)
              else product)
  end.

Definition calculateChainScore (b : HexukiBitboard) (chain : Z -> Z)
  (chainLength : Z) : Z :=
  chainProduct b chain (seqZ 0 chainLength) 1.

Definition calculatePlayerScore (b : HexukiBitboard) (player : Z) : Z :=
  if player =? PLAYER_1
  then fold_left
         (fun total i =>
            int_add total (calculateChainScore b (P1_CHAINS i) (P1_CHAIN_LENGTHS i)))
         (seqZ 0 P1_CHAIN_COUNT) 0
  else fold_left
         (fun total i =>
            int_add total (calculateChainScore b (P2_CHAINS i) (P2_CHAIN_LENGTHS i)))
         (seqZ 0 P2_CHAIN_COUNT) 0.

Definition getScore (b : HexukiBitboard) (player : Z) : Z :=
  calculatePlayerScore b player.

(** [minimax::evaluate]. *)
Definition evaluate (b : HexukiBitboard) : Z :=
  let p1Score := getScore b PLAYER_1 in
  let p2Score := getScore b PLAYER_2 in
  if currentPlayer b =? PLAYER_1 then int_sub p1Score p2Score
  else int_sub p2Score p1Score.

End Model.

(** ** Position codec *)

Inductive exn := invalid_argument | out_of_range.

(** A call that returns normally or throws. *)
Inductive result (A : Type) :=
| Ok (a : A)
| Throw (e : exn).
Arguments Ok {A} a.
Arguments Throw {A} e.

Definition result_bind {A B : Type} (r : result A) (k : A -> result B) : result B :=
  match r with
  | Ok a => k a
  | Throw e => Throw e
  end.

(** *** The standard-library calls the parser makes *)

Definition isspace (c : ascii) : bool :=
  let n := nat_of_ascii c in
  (n =? 32)%nat || ((9 <=? n)%nat && (n <=? 13)%nat).

Definition isdigit (c : ascii) : bool :=
  let n := nat_of_ascii c in (48 <=? n)%nat && (n <=? 57)%nat.

Fixpoint skipSpaces (s : list ascii) : list ascii :=
  match s with
  | c :: t => if isspace c then skipSpaces t else s
  | [] => []
  end.

Fixpoint digitsPrefix (s : list ascii) : list ascii :=
  match s with
  | c :: t => if isdigit c then c :: digitsPrefix t else []
  | [] => []
  end.

Definition digitsValue (ds : list ascii) : Z :=
  fold_left (fun acc c => acc * 10 + (Z.of_nat (nat_of_ascii c) - 48)) ds 0.

(** [std::stoi(str)]: leading white space, an optional sign, then decimal
    digits; [std::invalid_argument] when there is no digit,
    [std::out_of_range] when the value does not fit an [int]; what follows
    the digits is ignored. *)
Definition stoi (s : list ascii) : result Z :=
  let s1 := skipSpaces s in
  let '(negative, s2) :=
    match s1 with
    | c :: t => if Ascii.eqb c "-" then (true, t)
                else if Ascii.eqb c "+" then (false, t)
                else (false, s1)
    | [] => (false, s1)
    end in
  match digitsPrefix s2 with
  | [] => Throw invalid_argument
  | ds =>
      let v := if negative then - digitsValue ds else digitsValue ds in
      if (v <? - 2 ^ 31) || (v >? 2 ^ 31 - 1) then Throw out_of_range else Ok v
  end.

(** The strings that successive [std::getline(stream, line, delim)] calls
    return until the call fails: at the end of the input a line is returned
    only when at least one character was extracted for it. *)
Fixpoint getlines (delim : ascii) (s : list ascii) (cur : list ascii)
  : list (list ascii) :=
  match s with
  | [] => match cur with [] => [] | _ => [cur] end
  | c :: t => if Ascii.eqb c delim then cur :: getlines delim t []
              else getlines delim t (cur ++ [c])
  end.

(** [s.find(c)]: the first position of [c], or [npos]. *)
Fixpoint string_find (c : ascii) (s : list ascii) : option nat :=
  match s with
  | [] => None
  | x :: t => if Ascii.eqb x c then Some O
              else match string_find c t with
                   | Some n => Some (S n)
                   | None => None
                   end
  end.

Section Codec.
Context `{T : Tables}.

Definition DEFAULT_TILES : list Z := [1; 2; 3; 4; 5; 6; 7; 8; 9].

(** [tilesMatch]: same values in any order. *)
Definition tilesMatch (tiles1 tiles2 : list Z) : bool :=
  if negb (length tiles1 =? length tiles2)%nat then false
  else bool_decide (merge_sort Z.le tiles1 = merge_sort Z.le tiles2).

Definition reset (b : HexukiBitboard) : HexukiBitboard :=
  let b1 := mkBoard (wrap_u32 (Z.shiftl 1 CENTER_HEX))
                    (<[Z.to_nat CENTER_HEX := wrap_u8 STARTING_TILE]>
                       (replicate (Z.to_nat NUM_HEXES) 0))
                    DEFAULT_TILES DEFAULT_TILES PLAYER_1 true
                    (tilesMatch DEFAULT_TILES DEFAULT_TILES)
                    (zobristHash b) in
  set_zobristHash b1 (Zobrist_hash b1).

(** The constructor: the member initialisers, then [reset()]. *)
Definition HexukiBitboard_new : HexukiBitboard :=
  reset (mkBoard 0 (replicate (Z.to_nat NUM_HEXES) 0) [] [] PLAYER_1 true true 0).

Definition setHexValue (b : HexukiBitboard) (h tileValue : Z) : HexukiBitboard :=
  if (h <? 0) || (h >=? NUM_HEXES) then b
  else
    let b1 := set_hexOccupied b
                (wrap_u32 (Z.lor (hexOccupied b) (wrap_u32 (Z.shiftl 1 h)))) in
    let b2 := set_hexValues b1 (<[Z.to_nat h := wrap_u8 tileValue]> (hexValues b1)) in
    set_zobristHash b2 (Zobrist_hash b2).

Definition removeHexValue (b : HexukiBitboard) (h : Z) : HexukiBitboard :=
  if (h <? 0) || (h >=? NUM_HEXES) then b
  else
    let b1 := set_hexOccupied b
                (wrap_u32 (Z.land (hexOccupied b)
                                  (wrap_u32 (Z.lnot (wrap_u32 (Z.shiftl 1 h)))))) in
    let b2 := set_hexValues b1 (<[Z.to_nat h := 0]> (hexValues b1)) in
    set_zobristHash b2 (Zobrist_hash b2).

Definition setAvailableTiles (b : HexukiBitboard) (player : Z) (tiles : list Z)
  : HexukiBitboard :=
  if player =? PLAYER_1 then set_p1AvailableTiles b tiles
  else if player =? PLAYER_2 then set_p2AvailableTiles b tiles
  else b.

Definition clearBoard (b : HexukiBitboard) : HexukiBitboard :=
  let b1 := set_hexValues (set_hexOccupied b 0) (replicate (Z.to_nat NUM_HEXES) 0) in
  set_zobristHash b1 (Zobrist_hash b1).

(** [hexPair.substr(1, colonPos - 1)].  The count is taken in [size_t]: with
    the colon at position 0 it wraps and the whole remainder is taken. *)
Definition hexIdText (hexPair : list ascii) (colonPos : nat) : list ascii :=
  match colonPos with
  | O => drop 1 hexPair
  | S n => take n (drop 1 hexPair)
  end.

(** One [hexPair] of an [h] section. *)
Definition parseHexPair (b : HexukiBitboard) (hexPair : list ascii)
  : result HexukiBitboard :=
  if (length hexPair <? 4)%nat then Ok b
  else match string_find ":" hexPair with
       | None => Ok b
       | Some colonPos =>
           result_bind (stoi (hexIdText hexPair colonPos)) (fun h =>
           result_bind (stoi (drop (S colonPos) hexPair)) (fun tileVal =>
           Ok (setHexValue b h tileVal)))
       end.

Fixpoint parseHexPairs (b : HexukiBitboard) (pairs : list (list ascii))
  : result HexukiBitboard :=
  match pairs with
  | [] => Ok b
  | p :: rest => result_bind (parseHexPair b p) (fun b' => parseHexPairs b' rest)
  end.

(** The [while (getline(tileStream, tileStr, ','))] loop of a bag section. *)
Fixpoint parseTiles (tokens : list (list ascii)) (tiles : list Z)
  : result (list Z) :=
  match tokens with
  | [] => Ok tiles
  | t :: rest => result_bind (stoi t) (fun v => parseTiles rest (tiles ++ [v]))
  end.

Definition P1_PREFIX : list ascii := ["p"; "1"; ":"]%char.
Definition P2_PREFIX : list ascii := ["p"; "2"; ":"]%char.
Definition TURN_PREFIX : list ascii := ["t"; "u"; "r"; "n"; ":"]%char.

(** The body of the [while (getline(iss, section, '|'))] loop. *)
Definition parseSection (b : HexukiBitboard) (section : list ascii)
  : result HexukiBitboard :=
  match section with
  | [] => Ok b
  | c0 :: _ =>
      if Ascii.eqb c0 "h" then parseHexPairs b (getlines "," section [])
      else if bool_decide (take 3 section = P1_PREFIX) then
        result_bind (parseTiles (getlines "," (drop 3 section) []) [])
                    (fun tiles => Ok (setAvailableTiles b PLAYER_1 tiles))
      else if bool_decide (take 3 section = P2_PREFIX) then
        result_bind (parseTiles (getlines "," (drop 3 section) []) [])
                    (fun tiles => Ok (setAvailableTiles b PLAYER_2 tiles))
      else if bool_decide (take 5 section = TURN_PREFIX) then
        result_bind (stoi (drop 5 section))
                    (fun p => Ok (set_currentPlayer b p))
      else Ok b
  end.

Fixpoint parseSections (b : HexukiBitboard) (sections : list (list ascii))
  : result HexukiBitboard :=
  match sections with
  | [] => Ok b
  | s :: rest => result_bind (parseSection b s) (fun b' => parseSections b' rest)
  end.

(** The loop that recomputes [symmetryStillPossible]: false as soon as a
    mirror pair off the centre column holds two different tiles. *)
Definition symmetryPossible (b : HexukiBitboard) : bool :=
  negb (existsb
          (fun h =>
             let isCenterHex := existsb (fun i => h =? CENTER_COLUMN_HEXES i) (seqZ 0 5) in
             if isCenterHex then false
             else
               let val1 := getTileValue b h in
               let val2 := getTileValue b (VERTICAL_MIRROR_PAIRS h) in
               negb (val1 =? 0) && negb (val2 =? 0) && negb (val1 =? val2))
          (seqZ 0 NUM_HEXES)).

Definition loadPosition (b : HexukiBitboard) (position : string)
  : result HexukiBitboard :=
  let b1 := clearBoard b in
  let b2 := set_currentPlayer
              (set_p2AvailableTiles (set_p1AvailableTiles b1 DEFAULT_TILES) DEFAULT_TILES)
              PLAYER_1 in
  result_bind (parseSections b2 (getlines "|" (String.list_ascii_of_string position) []))
    (fun b3 =>
       let b4 := set_symmetryStillPossible b3 (symmetryPossible b3) in
       let b5 := set_tilesAreIdentical b4
                   (tilesMatch (p1AvailableTiles b4) (p2AvailableTiles b4)) in
       Ok (set_zobristHash b5 (Zobrist_hash b5))).

End Codec.

(** ** Search (ai/minimax.h, ai/minimax.cpp) *)

Definition INF : Z := 1000000.
Definition MATE_SCORE : Z := 900000.
Definition TIMEOUT_CHECK_INTERVAL : Z := 1000.

Inductive Flag := EXACT | LOWER_BOUND | UPPER_BOUND.

Record TTEntry := mkTTEntry {
  tt_score : Z;
  tt_depth : Z;
  tt_flag : Flag;
  tt_bestMove : Move
}.

Record TranspositionTable := mkTT {
  table : gmap Z TTEntry;         (* std::unordered_map<uint64_t, TTEntry> *)
  maxSize : Z;
  hits : Z;
  misses : Z
}.

Record SearchResult := mkResult {
  bestMove : Move;
  score : Z;
  nodesSearched : Z;
  timeMs : Z;
  depth : Z;
  timeout : bool;
  ttHits : Z;
  ttMisses : Z
}.

Record SearchConfig := mkConfig {
  maxDepth : Z;
  timeLimitMs : Z;
  useIterativeDeepening : bool;
  useMoveOrdering : bool;
  useTranspositionTable : bool;
  ttSizeMB : Z;
  verbose : bool
}.

(** [SearchConfig()] *)
Definition SearchConfig_default : SearchConfig :=
  mkConfig 20 30000 true true true 128 false.

(** *** Arrays with checked indices

    An access outside the array is undefined behaviour: [None]. *)

Definition arr_get {A : Type} (a : list A) (i : Z) : option A :=
  if i <? 0 then None else a !! Z.to_nat i.

Definition arr_set {A : Type} (a : list A) (i : Z) (x : A) : option (list A) :=
  if (0 <=? i) && (i <? Z.of_nat (length a)) then Some (<[Z.to_nat i := x]> a)
  else None.

(** *** Killer moves *)

Definition KILLER_MAX_DEPTH : Z := 50.

Record KillerMoves := mkKillers {
  killer1 : list Move;            (* Move killer1[MAX_DEPTH] *)
  killer2 : list Move
}.

Definition KillerMoves_update (k : KillerMoves) (ply : Z) (move : Move)
  : option KillerMoves :=
  if (ply <? 0) || (ply >=? KILLER_MAX_DEPTH) then Some k
  else
    k1 ← arr_get (killer1 k) ply;
    if negb (Move_eqb move k1)
    then
      killer2' ← arr_set (killer2 k) ply k1;
      killer1' ← arr_set (killer1 k) ply move;
      Some (mkKillers killer1' killer2')
    else Some k.

Definition KillerMoves_isKiller (k : KillerMoves) (ply : Z) (move : Move)
  : option bool :=
  if (ply <? 0) || (ply >=? KILLER_MAX_DEPTH) then Some false
  else
    k1 ← arr_get (killer1 k) ply;
    if Move_eqb move k1 then Some true
    else
      k2 ← arr_get (killer2 k) ply;
      Some (Move_eqb move k2).

(** *** History table *)

Definition HISTORY_NUM_HEXES : Z := 19.

Record HistoryTable := mkHistory {
  scores : list (list Z)          (* int scores[NUM_HEXES][10] *)
}.

Definition HistoryTable_new : HistoryTable :=
  mkHistory (replicate (Z.to_nat HISTORY_NUM_HEXES) (replicate 10%nat 0)).

Definition HistoryTable_inRange (move : Move) : bool :=
  (hexId move >=? 0) && (hexId move <? HISTORY_NUM_HEXES)
  && (tileValue move >=? 0) && (tileValue move <? 10).

Definition HistoryTable_update (t : HistoryTable) (move : Move) (depth : Z)
  : option HistoryTable :=
  if HistoryTable_inRange move
  then
    r ← arr_get (scores t) (hexId move);
    old ← arr_get r (tileValue move);
    r' ← arr_set r (tileValue move) (int_add old (int_mul depth depth));
    scores' ← arr_set (scores t) (hexId move) r';
    Some (mkHistory scores')
  else Some t.

Definition HistoryTable_getScore (t : HistoryTable) (move : Move) : option Z :=
  if HistoryTable_inRange move
  then r ← arr_get (scores t) (hexId move); arr_get r (tileValue move)
  else Some 0.

(** *** Transposition table *)

Definition wrap_u64 (z : Z) : Z := z mod 2 ^ 64.

Definition TT_store (t : TranspositionTable) (hash : Z) (entry : TTEntry)
  : TranspositionTable :=
  match table t !! hash with
  | Some old =>
      if tt_depth entry >=? tt_depth old
      then mkTT (<[hash := entry]> (table t)) (maxSize t) (hits t) (misses t)
      else t
  | None => mkTT (<[hash := entry]> (table t)) (maxSize t) (hits t) (misses t)
  end.

(** [probe] is [const] but counts through [mutable] members: the table is
    returned with the answer. *)
Definition TT_probe (t : TranspositionTable) (hash : Z)
  : option TTEntry * TranspositionTable :=
  match table t !! hash with
  | Some e => (Some e, mkTT (table t) (maxSize t) (wrap_u64 (hits t + 1)) (misses t))
  | None => (None, mkTT (table t) (maxSize t) (hits t) (wrap_u64 (misses t + 1)))
  end.

(** *** Move ordering *)

(** [std::sort] with the comparator [a.first > b.first].  The order it leaves
    among equal scores is unspecified; this insertion sort keeps theirs. *)
Fixpoint insertByScore (p : Z * nat) (l : list (Z * nat)) : list (Z * nat) :=
  match l with
  | [] => [p]
  | q :: t => if p.1 >=? q.1 then p :: q :: t else q :: insertByScore p t
  end.

Definition sortByScore (l : list (Z * nat)) : list (Z * nat) :=
  foldr insertByScore [] l.

Definition orderingScore (ttEntry : option TTEntry) (killers : KillerMoves)
  (history : HistoryTable) (ply : Z) (move : Move) : option Z :=
  if match ttEntry with
     | Some e => Move_eqb move (tt_bestMove e)
     | None => false
     end
  then Some 10000000
  else
    isK ← KillerMoves_isKiller killers ply move;
    if isK : bool then Some (int_add 1000000 (int_mul (tileValue move) 10))
    else
      h ← HistoryTable_getScore history move;
      let s1 := int_add h (int_mul (tileValue move) 100) in
      let s2 :=
        if hexId move =? 9 then int_add s1 50
        else if (hexId move =? 4) || (hexId move =? 6) || (hexId move =? 7)
                || (hexId move =? 11) || (hexId move =? 12)
             then int_add s1 30
             else s1 in
      Some (if (hexId move =? 0) || (hexId move =? 2)
               || (hexId move =? 16) || (hexId move =? 18)
            then int_add s2 20 else s2).

Definition orderMoves (moves : list Move) (ttEntry : option TTEntry)
  (killers : KillerMoves) (history : HistoryTable) (ply : Z)
  : option (list Move) :=
  moveScores ← mapM (fun '(i, move) =>
                       s ← orderingScore ttEntry killers history ply move;
                       Some (s, i))
                    (imap (fun i move => (i, move)) moves);
  mapM (fun p : Z * nat => moves !! p.2) (sortByScore moveScores).

(** *** The mutable objects of a search

    [alphaBeta] receives the board, the table, the node counter and the two
    heuristic tables by reference.  [ticks] counts the readings of
    [std::chrono::steady_clock] taken so far. *)
Record Search := mkSearch {
  s_board : HexukiBitboard;
  s_tt : TranspositionTable;
  s_nodes : Z;
  s_killers : KillerMoves;
  s_history : HistoryTable;
  s_ticks : nat
}.

Definition with_board (s : Search) (b : HexukiBitboard) : Search :=
  mkSearch b (s_tt s) (s_nodes s) (s_killers s) (s_history s) (s_ticks s).
Definition with_tt (s : Search) (t : TranspositionTable) : Search :=
  mkSearch (s_board s) t (s_nodes s) (s_killers s) (s_history s) (s_ticks s).
Definition with_nodes (s : Search) (n : Z) : Search :=
  mkSearch (s_board s) (s_tt s) n (s_killers s) (s_history s) (s_ticks s).
Definition with_killers (s : Search) (k : KillerMoves) : Search :=
  mkSearch (s_board s) (s_tt s) (s_nodes s) k (s_history s) (s_ticks s).
Definition with_history (s : Search) (h : HistoryTable) : Search :=
  mkSearch (s_board s) (s_tt s) (s_nodes s) (s_killers s) h (s_ticks s).
Definition with_ticks (s : Search) (n : nat) : Search :=
  mkSearch (s_board s) (s_tt s) (s_nodes s) (s_killers s) (s_history s) n.

(** The locals of the move loop of [alphaBeta]. *)
Record NodeAcc := mkNodeAcc {
  n_bestScore : Z;
  n_bestMove : Move;
  n_alpha : Z;
  n_flag : Flag
}.

(** The locals of a root move loop of [findBestMove]. *)
Record RootAcc := mkRootAcc {
  r_bestMove : Move;
  r_bestScore : Z;
  r_alpha : Z
}.

(** The locals of [findBestMove] that live across the depths of iterative
    deepening. *)
Record Driver := mkDriver {
  d_moves : list Move;
  d_bestMove : Move;
  d_bestScore : Z;
  d_result : SearchResult;
  d_search : Search
}.

Section Minimax.
Context `{T : Tables}.

(** The wall clock: [elapsedMs k] is the number of milliseconds between
    [startTime] and the [k]-th later reading of the clock. *)
Variable elapsedMs : nat -> Z.

(** [now()], and the elapsed time since [startTime]. *)
Definition readClock (s : Search) : Z * Search :=
  (elapsedMs (s_ticks s), with_ticks s (S (s_ticks s))).

Definition KillerMoves_new : KillerMoves :=
  mkKillers (replicate (Z.to_nat KILLER_MAX_DEPTH) Move_default)
            (replicate (Z.to_nat KILLER_MAX_DEPTH) Move_default).

Definition TT_new (sizeMB : Z) : TranspositionTable :=
  mkTT ∅ (sizeMB * 1024 * 1024 / SIZEOF_TTENTRY) 0 0.

(** [TTEntry()] *)
Definition TTEntry_default : TTEntry := mkTTEntry 0 0 EXACT Move_default.

(** The table lookup at the head of [alphaBeta]: a returned score, or the
    narrowed window and whether the entry may order the moves. *)
Definition ttLookup (found : option TTEntry) (depth alpha beta : Z)
  : Z + (Z * Z * bool) :=
  match found with
  | Some ttEntry =>
      if tt_depth ttEntry >=? depth
      then
        match tt_flag ttEntry with
        | EXACT => inl (tt_score ttEntry)
        | LOWER_BOUND =>
            let alpha' := Z.max alpha (tt_score ttEntry) in
            if alpha' >=? beta then inl (tt_score ttEntry)
            else inr (alpha', beta, true)
        | UPPER_BOUND =>
            let beta' := Z.min beta (tt_score ttEntry) in
            if alpha >=? beta' then inl (tt_score ttEntry)
            else inr (alpha, beta', true)
        end
      else inr (alpha, beta, false)
  | None => inr (alpha, beta, false)
  end.

(** The periodic check of the deadline at the head of [alphaBeta]: every
    [TIMEOUT_CHECK_INTERVAL] nodes the clock is read; the answer is whether
    the time limit has been reached. *)
Definition pollDeadline (timeLimit : Z) (s : Search) : bool * Search :=
  if Z.rem (s_nodes s) TIMEOUT_CHECK_INTERVAL =? 0
  then let '(elapsed, s') := readClock s in (elapsed >=? timeLimit, s')
  else (false, s).

(** The [for (const auto& move : moves)] loop of [alphaBeta]; [rec] is the
    recursive call. *)
Fixpoint searchMoves
  (rec : Z -> Z -> Z -> Z -> Search -> option (Z * Search))
  (depth beta ply : Z) (moves : list Move) (acc : NodeAcc) (s : Search)
  : option (NodeAcc * Search) :=
  match moves with
  | [] => Some (acc, s)
  | move :: rest =>
      let s1 := with_board s (makeMove (s_board s) move) in
      '(r, s2) ← rec (int_sub depth 1) (int_neg beta) (int_neg (n_alpha acc))
                     (int_add ply 1) s1;
      let score := int_neg r in
      let s3 := with_board s2 (unmakeMove (s_board s2) move) in
      let acc1 :=
        if score >? n_bestScore acc
        then if score >? n_alpha acc
             then mkNodeAcc score move score EXACT
             else mkNodeAcc score move (n_alpha acc) (n_flag acc)
        else acc in
      if n_alpha acc1 >=? beta
      then
        killers' ← KillerMoves_update (s_killers s3) ply (n_bestMove acc1);
        history' ← HistoryTable_update (s_history s3) (n_bestMove acc1) depth;
        Some (mkNodeAcc (n_bestScore acc1) (n_bestMove acc1) (n_alpha acc1) LOWER_BOUND,
              with_history (with_killers s3 killers') history')
      else searchMoves rec depth beta ply rest acc1 s3
  end.

Fixpoint alphaBeta (fuel : nat) (timeLimit : Z) (depth alpha beta ply : Z)
  (s : Search) : option (Z * Search) :=
  match fuel with
  | O => None
  | S fuel' =>
      let s1 := with_nodes s (int_add (s_nodes s) 1) in
      let '(timedOut, s2) := pollDeadline timeLimit s1 in
      if timedOut then Some (0, s2)
      else if (depth =? 0) || isGameOver (s_board s2)
      then Some (evaluate (s_board s2), s2)
      else
        let hash := zobristHash (s_board s2) in
        let '(found, tt') := TT_probe (s_tt s2) hash in
        let s3 := with_tt s2 tt' in
        match ttLookup found depth alpha beta with
        | inl v => Some (v, s3)
        | inr (alpha1, beta1, ttValid) =>
            moves ← getValidMoves (s_board s3);
            match moves with
            | [] => Some (evaluate (s_board s3), s3)
            | _ :: _ =>
                ordered ← orderMoves moves (if ttValid then found else None)
                                     (s_killers s3) (s_history s3) ply;
                first ← head ordered;
                '(acc, s4) ← searchMoves (alphaBeta fuel' timeLimit) depth beta1 ply
                               ordered (mkNodeAcc (- INF) first alpha1 UPPER_BOUND) s3;
                Some (n_bestScore acc,
                      with_tt s4 (TT_store (s_tt s4) hash
                                    (mkTTEntry (n_bestScore acc) depth (n_flag acc)
                                               (n_bestMove acc))))
            end
        end
  end.

(** [quiescence]: the stand-pat score, cut at [beta]. *)
Definition quiescence (alpha beta : Z) (s : Search) : Z * Search :=
  let s1 := with_nodes s (int_add (s_nodes s) 1) in
  let standPat := evaluate (s_board s1) in
  if standPat >=? beta then (beta, s1) else (standPat, s1).

(** The root move loop of one depth of iterative deepening.  The boolean is
    [depthTimedOut]. *)
Fixpoint searchRootID (fuel : nat) (timeLimit depth : Z) (moves : list Move)
  (acc : RootAcc) (s : Search) : option (bool * RootAcc * Search) :=
  match moves with
  | [] => Some (false, acc, s)
  | move :: rest =>
      let s1 := with_board s (makeMove (s_board s) move) in
      '(r, s2) ← alphaBeta fuel timeLimit (int_sub depth 1) (int_neg INF)
                           (int_neg (r_alpha acc)) 1 s1;
      let score := int_neg r in
      let s3 := with_board s2 (unmakeMove (s_board s2) move) in
      let '(elapsed, s4) := readClock s3 in
      if elapsed >=? timeLimit then Some (true, acc, s4)
      else
        let acc1 :=
          if score >? r_bestScore acc
          then mkRootAcc move score (if score >? r_alpha acc then score else r_alpha acc)
          else acc in
        searchRootID fuel timeLimit depth rest acc1 s4
  end.

Definition with_result_timeout (r : SearchResult) : SearchResult :=
  mkResult (bestMove r) (score r) (nodesSearched r) (timeMs r) (depth r) true
           (ttHits r) (ttMisses r).

Definition with_result_depth (r : SearchResult) (d nodes : Z) : SearchResult :=
  mkResult (bestMove r) (score r) (int_add (nodesSearched r) nodes) (timeMs r) d
           (timeout r) (ttHits r) (ttMisses r).

(** The first half of one pass of
    [for (int depth = 1; depth <= config.maxDepth; depth++)]: the root moves
    are ordered (from the second depth on) and searched.  The result is the
    move list as ordered, [depthTimedOut], the locals of the root loop and
    the search objects. *)
Definition idRootSearch (fuel : nat) (config : SearchConfig) (d : Z) (st : Driver)
  : option (list Move * bool * RootAcc * Search) :=
  let s0 := with_nodes (d_search st) 0 in
  moves ← (if d >? 1
           then orderMoves (d_moves st) None (s_killers s0) (s_history s0) 0
           else Some (d_moves st));
  '(depthTimedOut, acc, s1) ←
    searchRootID fuel (timeLimitMs config) d moves
                 (mkRootAcc Move_default (- INF) (- INF)) s0;
  Some (moves, depthTimedOut, acc, s1).

(** The second half: a depth that timed out sets [result.timeout] and
    leaves the loop; a completed depth commits its best move and score and
    leaves the loop on a mate score.  The boolean tells whether the loop goes
    on. *)
Definition idDepth (fuel : nat) (config : SearchConfig) (d : Z) (st : Driver)
  : option (bool * Driver) :=
  '(moves, depthTimedOut, acc, s1) ← idRootSearch fuel config d st;
  if depthTimedOut : bool
  then Some (false,
             mkDriver moves (d_bestMove st) (d_bestScore st)
                      (with_result_timeout (d_result st)) s1)
  else
    let st' := mkDriver moves (r_bestMove acc) (r_bestScore acc)
                        (with_result_depth (d_result st) d (s_nodes s1)) s1 in
    Some (negb (Z.abs (r_bestScore acc) >? MATE_SCORE - 100), st').

(** The loop itself; [n] is the number of depths left, [d] the next one. *)
Fixpoint idLoop (fuel : nat) (config : SearchConfig) (n : nat) (d : Z)
  (st : Driver) : option Driver :=
  match n with
  | O => Some st
  | S n' =>
      '(continue, st') ← idDepth fuel config d st;
      if continue : bool then idLoop fuel config n' (d + 1) st' else Some st'
  end.

(** The root move loop of the single-depth search. *)
Fixpoint searchRootSingle (fuel : nat) (timeLimit depth : Z) (moves : list Move)
  (acc : RootAcc) (s : Search) : option (RootAcc * Search) :=
  match moves with
  | [] => Some (acc, s)
  | move :: rest =>
      let s1 := with_board s (makeMove (s_board s) move) in
      '(r, s2) ← alphaBeta fuel timeLimit (int_sub depth 1) (int_neg INF)
                           (int_neg (r_alpha acc)) 1 s1;
      let score := int_neg r in
      let s3 := with_board s2 (unmakeMove (s_board s2) move) in
      let acc1 :=
        if score >? r_bestScore acc
        then mkRootAcc move score (if score >? r_alpha acc then score else r_alpha acc)
        else acc in
      searchRootSingle fuel timeLimit depth rest acc1 s3
  end.

(** [SearchResult()] *)
Definition SearchResult_default : SearchResult :=
  mkResult Move_default 0 0 0 0 false 0 0.

(** The last statements of [findBestMove]: the end time, then the result
    fields.  [timeMs] is a [double] in the source; here it is the clock
    reading in whole milliseconds. *)
Definition finishSearch (st : Driver) : Driver :=
  let '(elapsed, s) := readClock (d_search st) in
  let r := d_result st in
  mkDriver (d_moves st) (d_bestMove st) (d_bestScore st)
           (mkResult (d_bestMove st) (d_bestScore st) (nodesSearched r) elapsed
                     (depth r) (timeout r) (hits (s_tt s)) (misses (s_tt s)))
           s.

(** [findBestMove(board, config)], with the locals it ends with.  [fuel]
    bounds the recursion depth of [alphaBeta].  Output on [std::cout] under
    [config.verbose] is not represented. *)
Definition searchStart (board : HexukiBitboard) (config : SearchConfig) : Search :=
  mkSearch board (TT_new (ttSizeMB config)) 0 KillerMoves_new HistoryTable_new O.

(** The driver's locals when the search of a position with several root
    moves begins: [bestMove = moves[0]], [bestScore = -INF]. *)
Definition driverStart (board : HexukiBitboard) (config : SearchConfig)
  (moves : list Move) (first : Move) : Driver :=
  mkDriver moves first (- INF) SearchResult_default (searchStart board config).

Definition findBestMoveDriver (fuel : nat) (board : HexukiBitboard)
  (config : SearchConfig) : option Driver :=
  let s0 := searchStart board config in
  moves ← getValidMoves board;
  match moves with
  | [] =>
      Some (mkDriver moves Move_default 0
              (mkResult Move_default (evaluate board) 0 0 0 false 0 0) s0)
  | [only] =>
      let s1 := with_board s0 (makeMove board only) in
      '(r, s2) ← alphaBeta fuel (timeLimitMs config) (int_sub (maxDepth config) 1)
                           (- INF) INF 0 s1;
      let s3 := with_board s2 (unmakeMove (s_board s2) only) in
      let '(elapsed, s4) := readClock s3 in
      Some (mkDriver moves only (int_neg r)
              (mkResult only (int_neg r) (s_nodes s4) elapsed (maxDepth config)
                        false 0 0) s4)
  | first :: _ =>
      let st0 := driverStart board config moves first in
      if useIterativeDeepening config
      then
        st ← idLoop fuel config (Z.to_nat (maxDepth config)) 1 st0;
        Some (finishSearch st)
      else
        ordered ← (if useMoveOrdering config
                   then orderMoves moves None (s_killers s0) (s_history s0) 0
                   else Some moves);
        '(acc, s1) ← searchRootSingle fuel (timeLimitMs config) (maxDepth config)
                       ordered (mkRootAcc first (- INF) (- INF)) s0;
        let r := mkResult Move_default 0 (s_nodes s1) 0 (maxDepth config) false 0 0 in
        Some (finishSearch (mkDriver ordered (r_bestMove acc) (r_bestScore acc) r s1))
  end.

Definition findBestMove (fuel : nat) (board : HexukiBitboard)
  (config : SearchConfig) : option (SearchResult * HexukiBitboard) :=
  st ← findBestMoveDriver fuel board config;
  Some (d_result st, s_board (d_search st)).

End Minimax.

(** ** A reference instance of the tables

    Modelled from the spec: the tables of core/bitboard.h, core/zobrist.h and
    core/move.h are missing; this instance follows the data model: 19 hexes
    numbered row by row on a 9 x 5 grid in columns of 3-4-5-4-3, hex 9 the
    centre, six neighbour offsets, 15 chain lines (5 per axis), the scoring
    chains of player 1 along the down-right diagonals and those of player 2
    along the down-left diagonals, moves with a hex in [0,18] and a tile in
    [1,9].  The general results hold for any tables; this instance provides
    concrete positions to evaluate the engine on. *)

Definition ref_positions : list HexPosition :=
  [ mkPos 0 2; mkPos 1 1; mkPos 1 3; mkPos 2 0; mkPos 2 2; mkPos 2 4;
    mkPos 3 1; mkPos 3 3; mkPos 4 0; mkPos 4 2; mkPos 4 4; mkPos 5 1;
    mkPos 5 3; mkPos 6 0; mkPos 6 2; mkPos 6 4; mkPos 7 1; mkPos 7 3;
    mkPos 8 2 ].

Definition ref_HEX_POSITIONS (h : Z) : HexPosition :=
  if h <? 0 then mkPos (-1) (-1)
  else default (mkPos (-1) (-1)) (ref_positions !! Z.to_nat h).

Definition ref_ROW_COL_TO_HEX (r c : Z) : Z :=
  default (-1)
    (head (filter (fun h => let p := ref_HEX_POSITIONS h in
                            Is_true ((row p =? r) && (col p =? c)))
                  (seqZ 0 NUM_HEXES))).

Definition ref_HEX_DIRECTIONS : list Direction :=
  [ mkDir (-2) 0; mkDir 2 0; mkDir (-1) (-1); mkDir (-1) 1; mkDir 1 (-1); mkDir 1 1 ].

Definition ref_neighbours (h : Z) : list Z :=
  filter (fun n => 0 <= n)
    (map (fun d => let p := ref_HEX_POSITIONS h in
                   if (h <? 0) || (h >=? NUM_HEXES) then -1
                   else ref_ROW_COL_TO_HEX (row p + dr d) (col p + dc d))
         ref_HEX_DIRECTIONS).

Definition ref_ADJACENT_HEXES (h : Z) : AdjacentList :=
  let l := ref_neighbours h in
  mkAdj (fun i => if i <? 0 then -1 else default (-1) (l !! Z.to_nat i))
        (Z.of_nat (length l)).

Definition ref_starters : list ChainStarter :=
  [ mkStarter 3 (mkDir 2 0); mkStarter 1 (mkDir 2 0); mkStarter 0 (mkDir 2 0);
    mkStarter 2 (mkDir 2 0); mkStarter 5 (mkDir 2 0);
    mkStarter 0 (mkDir 1 1); mkStarter 1 (mkDir 1 1); mkStarter 3 (mkDir 1 1);
    mkStarter 8 (mkDir 1 1); mkStarter 13 (mkDir 1 1);
    mkStarter 0 (mkDir 1 (-1)); mkStarter 2 (mkDir 1 (-1)); mkStarter 5 (mkDir 1 (-1));
    mkStarter 10 (mkDir 1 (-1)); mkStarter 15 (mkDir 1 (-1)) ].

Definition ref_CHAIN_STARTERS (i : Z) : ChainStarter :=
  if i <? 0 then mkStarter (-1) (mkDir 0 0)
  else default (mkStarter (-1) (mkDir 0 0)) (ref_starters !! Z.to_nat i).

Definition ref_chain_table (chains : list (list Z)) (i j : Z) : Z :=
  if (i <? 0) || (j <? 0) then -1
  else default (-1) (default [] (chains !! Z.to_nat i) !! Z.to_nat j).

Definition ref_p1_chains : list (list Z) :=
  [ [0; 2; 5]; [1; 4; 7; 10]; [3; 6; 9; 12; 15]; [8; 11; 14; 17]; [13; 16; 18] ].

Definition ref_p2_chains : list (list Z) :=
  [ [0; 1; 3]; [2; 4; 6; 8]; [5; 7; 9; 11; 13]; [10; 12; 14; 16]; [15; 17; 18] ].

Definition ref_chain_lengths (chains : list (list Z)) (i : Z) : Z :=
  if i <? 0 then 0 else Z.of_nat (length (default [] (chains !! Z.to_nat i))).

Definition ref_CENTER_COLUMN_HEXES (i : Z) : Z :=
  if i <? 0 then -1 else default (-1) ([0; 4; 9; 14; 18] !! Z.to_nat i).

Definition ref_VERTICAL_MIRROR_PAIRS (h : Z) : Z :=
  let p := ref_HEX_POSITIONS h in ref_ROW_COL_TO_HEX (row p) (4 - col p).

Definition ref_getTileHash (h v : Z) : Z :=
  wrap_u64 ((h * 16 + v + 1) * 11400714819323198485).

Definition ref_getPlayerHash (p : Z) : Z :=
  wrap_u64 ((p + 1000) * 14029467366897019727).

Definition ref_Move_isValid (m : Move) : bool :=
  (0 <=? hexId m) && (hexId m <? NUM_HEXES)
  && (1 <=? tileValue m) && (tileValue m <=? MAX_TILE_VALUE).

Definition refTables : Tables := {|
  HEX_POSITIONS := ref_HEX_POSITIONS;
  ROW_COL_TO_HEX := ref_ROW_COL_TO_HEX;
  ADJACENT_HEXES := ref_ADJACENT_HEXES;
  CHAIN_STARTERS := ref_CHAIN_STARTERS;
  P1_CHAIN_COUNT := 5;
  P1_CHAINS := ref_chain_table ref_p1_chains;
  P1_CHAIN_LENGTHS := ref_chain_lengths ref_p1_chains;
  P2_CHAIN_COUNT := 5;
  P2_CHAINS := ref_chain_table ref_p2_chains;
  P2_CHAIN_LENGTHS := ref_chain_lengths ref_p2_chains;
  CENTER_COLUMN_HEXES := ref_CENTER_COLUMN_HEXES;
  VERTICAL_MIRROR_PAIRS := ref_VERTICAL_MIRROR_PAIRS;
  getTileHash := ref_getTileHash;
  getPlayerHash := ref_getPlayerHash;
  Move_default := mkMove (-1) 0;
  Move_isValid := ref_Move_isValid;
  SIZEOF_TTENTRY := 20
|}.

(** A clock that never reaches the deadline. *)
Definition ref_clock (k : nat) : Z := 0.

(** A clock that passes 50 ms after its 54th reading. *)
Definition ref_timeout_clock (k : nat) : Z := if (k <? 54)%nat then 0 else 1000.

(** A position read from its text form, starting from the constructor's. *)
Definition ref_load (position : string) : result HexukiBitboard :=
  loadPosition (T := refTables) (HexukiBitboard_new (T := refTables)) position.

(** The search that the clock above cuts in its second depth. *)
Definition ref_timeout_config : SearchConfig :=
  mkConfig 3 50 true true true 128 false.

Definition ref_initial_moves : list Move :=
  Eval vm_compute in
    default [] (getValidMoves (T := refTables) (HexukiBitboard_new (T := refTables))).

(** The driver's locals after the first depth of that search. *)
Definition ref_after_depth1 : Driver :=
  Eval vm_compute in
    let st0 := driverStart (T := refTables) (HexukiBitboard_new (T := refTables))
                           ref_timeout_config ref_initial_moves (mkMove 4 1) in
    match idDepth (T := refTables) ref_timeout_clock 19 ref_timeout_config 1 st0 with
    | Some (_, st) => st
    | None => st0
    end.

(** ** Definitions used to state the properties *)

(** The declared sizes of the heuristic arrays. *)
Definition KillerMoves_sized (k : KillerMoves) : Prop :=
  Z.of_nat (length (killer1 k)) = KILLER_MAX_DEPTH
  /\ Z.of_nat (length (killer2 k)) = KILLER_MAX_DEPTH.

Definition HistoryTable_sized (t : HistoryTable) : Prop :=
  Z.of_nat (length (scores t)) = HISTORY_NUM_HEXES
  /\ Forall (fun r => Z.of_nat (length r) = 10) (scores t).

Section SpecDefs.
Context `{T : Tables}.

(** The hexes a chain walk visits from [currentHex] in direction [d], in
    order: the line of the board the walk follows. *)
Fixpoint chainLine (fuel : nat) (d : Direction) (currentHex : Z)
  : option (list Z) :=
  match fuel with
  | O => None
  | S fuel' =>
      if currentHex >=? 0
      then cons currentHex <$> chainLine fuel' d (nextHex currentHex d)
      else Some []
  end.

Definition starterLine (i : Z) : option (list Z) :=
  chainLine WALK_FUEL (dir (CHAIN_STARTERS i)) (startHex (CHAIN_STARTERS i)).

(** What the walks need of the tables: each of the 15 chain lines leaves the
    board. *)
Definition walks_end : Prop :=
  forall i, 0 <= i < 15 -> is_Some (starterLine i).

(** The 15 lines of the board. *)
Definition boardLines : list (list Z) :=
  omap starterLine (seqZ 0 15).

(** The representation invariant of a position: the mask fits its 32 bits,
    the side to move is one of the two players, and a hex whose bit is clear
    holds no tile. *)
Definition Position_wf (b : HexukiBitboard) : Prop :=
  0 <= hexOccupied b < 2 ^ 32
  /\ (currentPlayer b = PLAYER_1 \/ currentPlayer b = PLAYER_2)
  /\ (forall h, 0 <= h < NUM_HEXES -> isHexOccupied b h = false ->
                getTileValue b h = 0).

(** A hex on which the side to move may place a tile: on the board, empty,
    next to an occupied hex, and within the chain-length rule. *)
Definition legalHex (b : HexukiBitboard) (h : Z) : Prop :=
  0 <= h < NUM_HEXES
  /\ isHexOccupied b h = false
  /\ hasAdjacentOccupied b h = true
  /\ exists b', checkChainLengthConstraint b h = Some (true, b').

End SpecDefs.

(** *** The chain-length rule as the specification words it *)

(** The maximal runs of consecutively occupied hexes along [line]; [cur] is
    the run in progress. *)
Fixpoint spec_runs (occ : Z -> bool) (line : list Z) (cur : list Z)
  : list (list Z) :=
  match line with
  | [] => match cur with [] => [] | _ => [cur] end
  | x :: rest =>
      if occ x then spec_runs occ rest (cur ++ [x])
      else match cur with
           | [] => spec_runs occ rest []
           | _ => cur :: spec_runs occ rest []
           end
  end.

(** The largest element of a list of lengths, 0 for the empty list. *)
Definition list_max_Z (l : list Z) : Z := foldr Z.max 0 l.

(** The second-largest length: the largest that is left once one occurrence
    of the largest is taken away. *)
Definition spec_secondLargest (lens : list Z) : Z :=
  list_max_Z (eraseFirst (list_max_Z lens) lens).

(** The length of the longest chain that contains [h]. *)
Definition spec_longestThrough (h : Z) (chains : list (list Z)) : Z :=
  list_max_Z ((fun c => Z.of_nat (length c)) <$> filter (fun c => h ∈ c) chains).

Section SpecChains.
Context `{T : Tables}.

(** The occupancy after a tile is placed on [h]. *)
Definition spec_occupiedAfter (b : HexukiBitboard) (h : Z) (x : Z) : bool :=
  (x =? h) || isHexOccupied b x.

(** All chains of the board after a tile is placed on [h]. *)
Definition spec_chains (b : HexukiBitboard) (h : Z) : list (list Z) :=
  boardLines ≫= fun line => spec_runs (spec_occupiedAfter b h) line [].

(** The rule: L <= S + 1. *)
Definition spec_chainLegal (b : HexukiBitboard) (h : Z) : Prop :=
  spec_longestThrough h (spec_chains b h)
  <= spec_secondLargest ((fun c => Z.of_nat (length c)) <$> spec_chains b h) + 1.

(** *** Auxiliary views of the walk, used in the proofs *)

(** Closing a chain, as a function of the chain itself. *)
Definition endChain (h : Z) (a : ChainMax) (run : list Z) : ChainMax :=
  chainEnded a (Z.of_nat (length run)) (bool_decide (h ∈ run)).

(** The state of a walk whose run in progress is [cur]. *)
Definition walkOf (h : Z) (cur : list Z) (a : ChainMax) : WalkState :=
  mkWalk (Z.of_nat (length cur)) (bool_decide (h ∈ cur)) a.

(** What [walkStarter] does once the walk has ended. *)
Definition flushWalk (w : WalkState) : ChainMax :=
  if currentLength w >? 0
  then chainEnded (maxima w) (currentLength w) (chainContainsHexId w)
  else maxima w.

(** The pair (largest, second largest) that the source keeps while chains
    end, for the lengths [lens] seen so far. *)
Definition top2 (a : ChainMax) (lens : list Z) : Prop :=
  maxLength a = list_max_Z lens
  /\ secondMaxLength a = spec_secondLargest lens.

End SpecChains.

Section SpecMoves.
Context `{T : Tables}.

(** What the closure of [getValidMoves] under [isValidMove] needs of
    [Move::isValid] (core/move.h): it accepts a hex of the board with a tile
    value of the game. *)
Definition isValid_accepts_game_moves : Prop :=
  forall h v, 0 <= h < NUM_HEXES -> 1 <= v <= MAX_TILE_VALUE ->
              Move_isValid (mkMove h v) = true.

End SpecMoves.

(** *** Inputs on which the parser's conversions succeed *)

Definition returns {A : Type} (r : result A) : Prop := exists a, r = Ok a.

(** A hex pair that the parser skips, or whose two numbers [std::stoi]
    converts. *)
Definition pairNumeric (hexPair : list ascii) : Prop :=
  (length hexPair < 4)%nat
  \/ string_find ":" hexPair = None
  \/ exists colonPos,
       string_find ":" hexPair = Some colonPos
       /\ returns (stoi (hexIdText hexPair colonPos))
       /\ returns (stoi (drop (S colonPos) hexPair)).

Definition sectionNumeric (section : list ascii) : Prop :=
  match section with
  | [] => True
  | c0 :: _ =>
      if Ascii.eqb c0 "h" then Forall pairNumeric (getlines "," section [])
      else if bool_decide (take 3 section = P1_PREFIX)
                || bool_decide (take 3 section = P2_PREFIX)
      then Forall (fun t => returns (stoi t)) (getlines "," (drop 3 section) [])
      else if bool_decide (take 5 section = TURN_PREFIX)
      then returns (stoi (drop 5 section))
      else True
  end.

Definition positionNumeric (position : string) : Prop :=
  Forall sectionNumeric (getlines "|" (String.list_ascii_of_string position) []).

(** *** The run of the iterative-deepening loop *)

Section SpecDriver.
Context `{T : Tables}.
Variable clk : nat -> Z.
Variable fuel : nat.
Variable config : SearchConfig.

(** [idReaches d st d' st']: from the driver's locals [st] at the start of
    depth [d], the depths [d], ..., [d' - 1] complete one after the other
    and the loop goes on; [st'] are the locals at the start of depth [d']. *)
Inductive idReaches : Z -> Driver -> Z -> Driver -> Prop :=
| idReaches_here (d : Z) (st : Driver) : idReaches d st d st
| idReaches_next (d : Z) (st st1 : Driver) (d' : Z) (st' : Driver) :
    idDepth clk fuel config d st = Some (true, st1) ->
    idReaches (d + 1) st1 d' st' ->
    idReaches d st d' st'.

(** Depth [d], entered with the locals [st], is cut by the deadline: its
    root move loop leaves with [depthTimedOut]. *)
Definition depthAborted (d : Z) (st : Driver) : Prop :=
  exists moves acc s1,
    idRootSearch clk fuel config d st = Some (moves, true, acc, s1).

(** Depth [d], entered with the locals [st], runs to its end and finds the
    move and score of [acc]. *)
Definition depthCompleted (d : Z) (st : Driver) (acc : RootAcc) : Prop :=
  exists moves s1,
    idRootSearch clk fuel config d st = Some (moves, false, acc, s1).

End SpecDriver.

(** *** What a search relies on *)

(** The number of empty hexes of the board: the remaining length of any
    game continued from the position. *)
Definition emptyCount (b : HexukiBitboard) : nat :=
  length (filter (fun h => isHexOccupied b h = false) (seqZ 0 NUM_HEXES)).

(** The mask within its 32 bits and the heuristic arrays of their declared
    sizes. *)
Definition SearchInv (s : Search) : Prop :=
  0 <= hexOccupied (s_board s) < 2 ^ 32
  /\ KillerMoves_sized (s_killers s)
  /\ HistoryTable_sized (s_history s).

(** A move onto an empty hex of the board. *)
Definition ontoEmptyHex (occ : Z) (m : Move) : Prop :=
  0 <= hexId m < NUM_HEXES /\ Z.testbit occ (hexId m) = false.

(** A call on the search objects [s] returns, leaves the occupancy mask as
    it found it and keeps [SearchInv]. *)
Definition returnsInv {A : Type} (r : option (A * Search)) (s : Search) : Prop :=
  exists a s', r = Some (a, s') /\ SearchInv s'
               /\ hexOccupied (s_board s') = hexOccupied (s_board s).

(** The driver's locals between two depths: the search objects as
    [SearchInv] wants them, the mask [occ] of the position searched, root
    moves onto empty hexes. *)
Definition DriverInv (occ : Z) (st : Driver) : Prop :=
  SearchInv (d_search st)
  /\ hexOccupied (s_board (d_search st)) = occ
  /\ Forall (ontoEmptyHex occ) (d_moves st).

(** [r] is a maximal run of occupied hexes of [line]: a non-empty stretch of
    the line, occupied throughout, with no occupied hex just before or just
    after it. *)
Definition isMaximalRun (occ : Z -> bool) (line r : list Z) : Prop :=
  r <> []
  /\ Forall (fun x => occ x = true) r
  /\ exists pre post,
       line = pre ++ r ++ post
       /\ (forall x, last pre = Some x -> occ x = false)
       /\ (forall x, head post = Some x -> occ x = false).

(** ** Further functions of the engine *)

(** [ChainInfo] of core/bitboard.h. *)
Record ChainInfo := mkChainInfo { ci_length : Z; ci_hexIds : list Z }.

Section ModelMore.
Context `{T : Tables}.

(** [getAvailableTiles] *)
Definition getAvailableTiles (b : HexukiBitboard) (player : Z) : list Z :=
  if player =? PLAYER_1 then p1AvailableTiles b else p2AvailableTiles b.

(** The [while] loop of [getChainLengthsFromStart]: the length of the chain
    in progress and the lengths recorded so far. *)
Fixpoint chainLengthsWalk (fuel : nat) (b : HexukiBitboard) (d : Direction)
  (currentHex : Z) (currentLength : Z) (lengths : list Z)
  : option (Z * list Z) :=
  match fuel with
  | O => None
  | S fuel' =>
      if currentHex >=? 0
      then
        let '(len, ls) :=
          if isHexOccupied b currentHex then (currentLength + 1, lengths)
          else if currentLength >? 0 then (0, lengths ++ [currentLength])
               else (currentLength, lengths) in
        chainLengthsWalk fuel' b d (nextHex currentHex d) len ls
      else Some (currentLength, lengths)
  end.

Definition getChainLengthsFromStart (b : HexukiBitboard) (start : Z) (d : Direction)
  : option (list Z) :=
  '(len, ls) ← chainLengthsWalk WALK_FUEL b d start 0 [];
  Some (if len >? 0 then ls ++ [len] else ls).

Definition getAllChainLengths (b : HexukiBitboard) : option (list Z) :=
  fold_left
    (fun acc i =>
       chainLengths ← acc;
       lengths ← getChainLengthsFromStart b (startHex (CHAIN_STARTERS i))
                                          (dir (CHAIN_STARTERS i));
       Some (chainLengths ++ lengths))
    (seqZ 0 15) (Some []).

(** The loop of [getFirstAndSecondChainLengths] over the lengths. *)
Definition firstAndSecond (lengths : list Z) : Z * Z :=
  fold_left
    (fun '(first, second) length =>
       if length >? first then (length, first)
       else if length >? second then (first, length)
       else (first, second))
    lengths (0, 0).

Definition getFirstAndSecondChainLengths (b : HexukiBitboard) : option (Z * Z) :=
  allLengths ← getAllChainLengths b;
  Some (firstAndSecond allLengths).

(** The [while] loop of [getAllChainsWithMembers]: the chain in progress and
    the chains recorded so far. *)
Fixpoint chainsWalk (fuel : nat) (b : HexukiBitboard) (d : Direction)
  (currentHex : Z) (currentChain : list Z) (chains : list ChainInfo)
  : option (list Z * list ChainInfo) :=
  match fuel with
  | O => None
  | S fuel' =>
      if currentHex >=? 0
      then
        let '(cur, cs) :=
          if isHexOccupied b currentHex then (currentChain ++ [currentHex], chains)
          else match currentChain with
               | [] => (currentChain, chains)
               | _ => ([], chains ++ [mkChainInfo (Z.of_nat (length currentChain))
                                                   currentChain])
               end in
        chainsWalk fuel' b d (nextHex currentHex d) cur cs
      else Some (currentChain, chains)
  end.

(** The body of the loop over the chain starters. *)
Definition chainsOfStarter (b : HexukiBitboard) (chains : list ChainInfo) (i : Z)
  : option (list ChainInfo) :=
  '(cur, cs) ← chainsWalk WALK_FUEL b (dir (CHAIN_STARTERS i))
                          (startHex (CHAIN_STARTERS i)) [] chains;
  Some (match cur with
        | [] => cs
        | _ => cs ++ [mkChainInfo (Z.of_nat (length cur)) cur]
        end).

(** The last loop: an occupied hex that no chain holds becomes a chain of
    its own.  [hexesInChains] is filled before the loop and not changed by
    it. *)
Definition addIsolated (b : HexukiBitboard) (hexesInChains : gset Z)
  (chains : list ChainInfo) : list ChainInfo :=
  fold_left
    (fun cs h =>
       if isHexOccupied b h && bool_decide (h ∉ hexesInChains)
       then cs ++ [mkChainInfo 1 [h]] else cs)
    (seqZ 0 NUM_HEXES) chains.

Definition getAllChainsWithMembers (b : HexukiBitboard) : option (list ChainInfo) :=
  chains ← fold_left (fun acc i => cs ← acc; chainsOfStarter b cs i)
                     (seqZ 0 15) (Some []);
  let hexesInChains : gset Z := list_to_set (chains ≫= ci_hexIds) in
  Some (addIsolated b hexesInChains chains).

(** The loop of [isBoardMirrored] over the hexes [hs]. *)
Fixpoint mirroredOn (b : HexukiBitboard) (hs : list Z) : bool :=
  match hs with
  | [] => true
  | h :: rest =>
      if existsb (fun i => h =? CENTER_COLUMN_HEXES i) (seqZ 0 5)
      then mirroredOn b rest
      else
        let val1 := getTileValue b h in
        let val2 := getTileValue b (VERTICAL_MIRROR_PAIRS h) in
        if negb (Bool.eqb (val1 =? 0) (val2 =? 0)) then false
        else if negb (val1 =? 0) && negb (val2 =? 0) && negb (val1 =? val2)
             then false
             else mirroredOn b rest
  end.

Definition isBoardMirrored (b : HexukiBitboard) : bool :=
  if negb (symmetryStillPossible b) then false
  else mirroredOn b (seqZ 0 NUM_HEXES).

(** [TranspositionTable::clear] *)
Definition TT_clear (t : TranspositionTable) : TranspositionTable :=
  mkTT ∅ (maxSize t) 0 0.

(** [findBestMove(board, depth, timeLimitMs)], the simple interface. *)
Definition findBestMoveDepth (clk : nat -> Z) (fuel : nat) (board : HexukiBitboard)
  (d timeLimit : Z) : option (SearchResult * HexukiBitboard) :=
  findBestMove clk fuel board (mkConfig d timeLimit true true true 128 false).

End ModelMore.

(** *** Writing a position *)

(** [operator<<(std::ostream&, int)]: the decimal digits, most significant
    first, after a minus sign for a negative number.  An [int] has at most
    ten digits. *)
Definition digitChar (d : Z) : ascii := ascii_of_nat (48 + Z.to_nat d).

Fixpoint showDigits (fuel : nat) (n : Z) (acc : list ascii) : list ascii :=
  match fuel with
  | O => acc
  | S fuel' =>
      let acc' := digitChar (n mod 10) :: acc in
      if n <? 10 then acc' else showDigits fuel' (n / 10) acc'
  end.

Definition showInt (n : Z) : list ascii :=
  if n <? 0 then "-"%char :: showDigits 10 (- n) [] else showDigits 10 n [].

(** The characters that the first loop of [savePosition] writes for the
    hexes [hs]. *)
Fixpoint saveHexes (b : HexukiBitboard) (firstHex : bool) (hs : list Z)
  : list ascii :=
  match hs with
  | [] => []
  | hexId :: rest =>
      if isHexOccupied b hexId
      then (if firstHex then [] else [","%char])
           ++ "h"%char :: showInt hexId ++ ":"%char :: showInt (getTileValue b hexId)
           ++ saveHexes b false rest
      else saveHexes b firstHex rest
  end.

(** The characters that a bag loop writes; [first] is [i == 0]. *)
Fixpoint saveTiles (first : bool) (tiles : list Z) : list ascii :=
  match tiles with
  | [] => []
  | t :: rest => (if first then [] else [","%char]) ++ showInt t ++ saveTiles false rest
  end.

Definition savePosition (b : HexukiBitboard) : string :=
  String.string_of_list_ascii
    (saveHexes b true (seqZ 0 NUM_HEXES)
     ++ ["|"; "p"; "1"; ":"]%char ++ saveTiles true (getAvailableTiles b PLAYER_1)
     ++ ["|"; "p"; "2"; ":"]%char ++ saveTiles true (getAvailableTiles b PLAYER_2)
     ++ ["|"; "t"; "u"; "r"; "n"; ":"]%char ++ showInt (currentPlayer b)).

(** A value that an [int] holds. *)
Definition isInt (z : Z) : Prop := - 2 ^ 31 <= z < 2 ^ 31.

(** *** Notions used to state further properties *)

(** Two positions that differ at most in the order of the tiles in the
    bags. *)
Definition sameUpToBagOrder (b1 b2 : HexukiBitboard) : Prop :=
  hexOccupied b1 = hexOccupied b2
  /\ hexValues b1 = hexValues b2
  /\ currentPlayer b1 = currentPlayer b2
  /\ zobristHash b1 = zobristHash b2
  /\ p1AvailableTiles b1 ≡ₚ p1AvailableTiles b2
  /\ p2AvailableTiles b1 ≡ₚ p2AvailableTiles b2
  /\ symmetryStillPossible b1 = symmetryStillPossible b2
  /\ tilesAreIdentical b1 = tilesAreIdentical b2.

Section SpecMore.
Context `{T : Tables}.

(** A move the side to move can make: onto an empty hex of the board, with
    a tile of its bag. *)
Definition playableOn (b : HexukiBitboard) (m : Move) : Prop :=
  ontoEmptyHex (hexOccupied b) m /\ tileValue m ∈ moverTiles b.

(** A line of play: each move is playable on the position the moves before
    it lead to. *)
Fixpoint playable (b : HexukiBitboard) (ms : list Move) : Prop :=
  match ms with
  | [] => True
  | m :: rest => playableOn b m /\ playable (makeMove b m) rest
  end.

(** The moves made in order, and unmade (give them in the order of
    unmaking). *)
Definition makeMoves (b : HexukiBitboard) (ms : list Move) : HexukiBitboard :=
  fold_left makeMove ms b.

Definition unmakeMoves (b : HexukiBitboard) (ms : list Move) : HexukiBitboard :=
  fold_left unmakeMove ms b.

(** A call on the search objects [s] returns, keeps [SearchInv] and leaves
    the position as it found it, up to the order of the bags. *)
Definition returnsSame {A : Type} (r : option (A * Search)) (s : Search) : Prop :=
  exists a s', r = Some (a, s') /\ SearchInv s'
               /\ sameUpToBagOrder (s_board s') (s_board s).

(** The driver's locals between two depths, for the position [b] searched. *)
Definition DriverSame (b : HexukiBitboard) (st : Driver) : Prop :=
  SearchInv (d_search st)
  /\ sameUpToBagOrder (s_board (d_search st)) b
  /\ Forall (playableOn b) (d_moves st).

(** The value array has one cell per hex, each a byte. *)
Definition values_sized (b : HexukiBitboard) : Prop :=
  length (hexValues b) = 19%nat
  /\ Forall (fun v => 0 <= v < 256) (hexValues b).

End SpecMore.

(** *** Chains of the board as it stands *)

(** The chain that a run of hexes makes. *)
Definition chainInfoOf (run : list Z) : ChainInfo :=
  mkChainInfo (Z.of_nat (length run)) run.

Section SpecRuns.
Context `{T : Tables}.

(** The maximal runs of occupied hexes along the 15 lines of the board, line
    by line. *)
Definition boardRuns (b : HexukiBitboard) : list (list Z) :=
  boardLines ≫= fun line => spec_runs (isHexOccupied b) line [].

(** The occupied hexes that lie on no run. *)
Definition isolatedHexes (b : HexukiBitboard) : list Z :=
  filter (fun h => isHexOccupied b h = true /\ h ∉ mjoin (boardRuns b))
         (seqZ 0 NUM_HEXES).

End SpecRuns.

Section SpecMirror.
Context `{T : Tables}.

(** A hex of the centre column, which mirrors to itself. *)
Definition isCenterHex (h : Z) : Prop :=
  exists i, 0 <= i < 5 /\ h = CENTER_COLUMN_HEXES i.

(** Every hex off the centre column holds what its mirror image holds (0 for
    an empty hex). *)
Definition mirrorSymmetric (b : HexukiBitboard) : Prop :=
  forall h, 0 <= h < NUM_HEXES -> ~ isCenterHex h ->
            getTileValue b h = getTileValue b (VERTICAL_MIRROR_PAIRS h).

End SpecMirror.

(** *** Scores as exact integers *)

(** The hexes of a chain row of [P1_CHAINS] or [P2_CHAINS]: the entries
    before the first negative one. *)
Fixpoint untilPadding (hs : list Z) : list Z :=
  match hs with
  | [] => []
  | h :: rest => if h <? 0 then [] else h :: untilPadding rest
  end.

Section SpecScore.
Context `{T : Tables}.

(** The product of the tiles that lie on a chain (1 when it holds none). *)
Definition spec_chainScore (b : HexukiBitboard) (chain : Z -> Z) (chainLength : Z)
  : Z :=
  foldr Z.mul 1
    (getTileValue b <$> filter (fun h => isHexOccupied b h = true)
                               (untilPadding (chain <$> seqZ 0 chainLength))).

(** The sum of the chain products of a player. *)
Definition spec_playerScore (b : HexukiBitboard) (player : Z) : Z :=
  if player =? PLAYER_1
  then foldr Z.add 0 ((fun i => spec_chainScore b (P1_CHAINS i) (P1_CHAIN_LENGTHS i))
                        <$> seqZ 0 P1_CHAIN_COUNT)
  else foldr Z.add 0 ((fun i => spec_chainScore b (P2_CHAINS i) (P2_CHAIN_LENGTHS i))
                        <$> seqZ 0 P2_CHAIN_COUNT).

End SpecScore.

(** *** What a position holds, apart from what is derived from it *)

(** The fields that [loadPosition] reads from the text: mask, values, bags
    and side to move.  The two flags and the hash are computed from them. *)
Definition sameContent (b1 b2 : HexukiBitboard) : Prop :=
  hexOccupied b1 = hexOccupied b2
  /\ hexValues b1 = hexValues b2
  /\ p1AvailableTiles b1 = p1AvailableTiles b2
  /\ p2AvailableTiles b1 = p2AvailableTiles b2
  /\ currentPlayer b1 = currentPlayer b2.


(** The mask has bits for the hexes of the board only, the value array has
    one byte per hex, and an empty hex holds the value 0. *)
Definition boardShape (b : HexukiBitboard) : Prop :=
  0 <= hexOccupied b < 2 ^ NUM_HEXES
  /\ values_sized b
  /\ forall h, 0 <= h < NUM_HEXES -> isHexOccupied b h = false -> getTileValue b h = 0.

(** *** The text of a saved position *)

(** The characters of a written number: digits and the minus sign. *)
Definition numChar (c : ascii) : Prop := isdigit c = true \/ c = "-"%char.

(** What [savePosition] writes for one occupied hex. *)
Definition hexPairText (b : HexukiBitboard) (h : Z) : list ascii :=
  "h"%char :: showInt h ++ ":"%char :: showInt (getTileValue b h).

Section SpecPly.
Context `{T : Tables}.

(** The value of a move for the side that makes it, one ply deep: the
    evaluation of the position it leads to, negated. *)
Definition childScore (b : HexukiBitboard) (m : Move) : Z :=
  int_neg (evaluate (makeMove b m)).

End SpecPly.

(** *** The search without a depth limit

    Not functions of the engine.  [alphaBetaToEnd] is [alphaBeta] without its
    [depth == 0] test: a line of play ends at the deadline, at the end of the
    game, on an answer of the table or where no move is left, and nowhere
    else.  [findBestMoveToEnd] is the single-depth search of [findBestMove]
    over it.  The search at [maxDepth = 0] is compared with them. *)

Section SpecToEnd.
Context `{T : Tables}.
Variable clk : nat -> Z.




End SpecToEnd.

(** * Properties *)

(** ** Checked arrays *)

Lemma arr_get_is_Some {A : Type} (a : list A) (i : Z) :
  0 <= i < Z.of_nat (length a) -> is_Some (arr_get a i).
Proof.
  intros [H0 H1]. unfold arr_get.
  destruct (Z.ltb_spec i 0); [lia|].
  apply lookup_lt_is_Some. lia.
Qed.

Lemma arr_get_Some_range {A : Type} (a : list A) (i : Z) (x : A) :
  arr_get a i = Some x -> 0 <= i < Z.of_nat (length a).
Proof.
  unfold arr_get. destruct (Z.ltb_spec i 0); [discriminate|].
  intros H1. apply lookup_lt_Some in H1. lia.
Qed.

Lemma arr_set_is_Some {A : Type} (a : list A) (i : Z) (x : A) :
  0 <= i < Z.of_nat (length a) -> arr_set a i x = Some (<[Z.to_nat i := x]> a).
Proof.
  intros [H0 H1]. unfold arr_set.
  destruct (Z.leb_spec 0 i); [|lia].
  destruct (Z.ltb_spec i (Z.of_nat (length a))); [reflexivity|lia].
Qed.

(** ** Heuristic tables *)

Lemma KillerMoves_update_total (k : KillerMoves) (ply : Z) (move : Move) :
  KillerMoves_sized k -> is_Some (KillerMoves_update k ply move).
Proof.
  intros [H1 H2]. unfold KillerMoves_update.
  destruct ((ply <? 0) || (ply >=? KILLER_MAX_DEPTH)) eqn:Hg; [eauto|].
  apply orb_false_iff in Hg as [Hlo Hhi].
  apply Z.ltb_ge in Hlo. rewrite Z.geb_leb in Hhi. apply Z.leb_gt in Hhi.
  destruct (arr_get_is_Some (killer1 k) ply) as [k1 Hk1]; [lia|].
  rewrite Hk1. simpl.
  destruct (negb (Move_eqb move k1)); [|eauto].
  rewrite !arr_set_is_Some by lia. simpl. eauto.
Qed.

Lemma KillerMoves_isKiller_total (k : KillerMoves) (ply : Z) (move : Move) :
  KillerMoves_sized k -> is_Some (KillerMoves_isKiller k ply move).
Proof.
  intros [H1 H2]. unfold KillerMoves_isKiller.
  destruct ((ply <? 0) || (ply >=? KILLER_MAX_DEPTH)) eqn:Hg; [eauto|].
  apply orb_false_iff in Hg as [Hlo Hhi].
  apply Z.ltb_ge in Hlo. rewrite Z.geb_leb in Hhi. apply Z.leb_gt in Hhi.
  destruct (arr_get_is_Some (killer1 k) ply) as [k1 Hk1]; [lia|].
  destruct (arr_get_is_Some (killer2 k) ply) as [k2 Hk2]; [lia|].
  rewrite Hk1. simpl. destruct (Move_eqb move k1); [eauto|].
  rewrite Hk2. simpl. eauto.
Qed.

Lemma HistoryTable_inRange_spec (move : Move) :
  HistoryTable_inRange move = true <->
  0 <= hexId move < HISTORY_NUM_HEXES /\ 0 <= tileValue move < 10.
Proof.
  unfold HistoryTable_inRange.
  rewrite !andb_true_iff, !Z.geb_leb, !Z.leb_le, !Z.ltb_lt. lia.
Qed.

Lemma HistoryTable_row (t : HistoryTable) (move : Move) :
  HistoryTable_sized t -> HistoryTable_inRange move = true ->
  exists r, arr_get (scores t) (hexId move) = Some r
            /\ Z.of_nat (length r) = 10.
Proof.
  intros [H1 H2] Hr. apply HistoryTable_inRange_spec in Hr as [Hh Ht].
  destruct (arr_get_is_Some (scores t) (hexId move)) as [r Hrow]; [lia|].
  exists r. split; [exact Hrow|].
  unfold arr_get in Hrow. destruct (hexId move <? 0); [discriminate|].
  rewrite Forall_forall in H2. apply H2. eapply list_elem_of_lookup_2, Hrow.
Qed.

Lemma HistoryTable_update_total (t : HistoryTable) (move : Move) (d : Z) :
  HistoryTable_sized t -> is_Some (HistoryTable_update t move d).
Proof.
  intros Hs. unfold HistoryTable_update.
  destruct (HistoryTable_inRange move) eqn:Hr; [|eauto].
  destruct (HistoryTable_row t move Hs Hr) as (r & Hrow & Hlen).
  apply HistoryTable_inRange_spec in Hr as [Hh Ht].
  rewrite Hrow. simpl.
  destruct (arr_get_is_Some r (tileValue move)) as [old Hold]; [lia|].
  rewrite Hold. simpl.
  rewrite arr_set_is_Some by lia. simpl.
  destruct Hs as [Hs _]. rewrite arr_set_is_Some by lia. simpl. eauto.
Qed.

Lemma HistoryTable_getScore_total (t : HistoryTable) (move : Move) :
  HistoryTable_sized t -> is_Some (HistoryTable_getScore t move).
Proof.
  intros Hs. unfold HistoryTable_getScore.
  destruct (HistoryTable_inRange move) eqn:Hr; [|eauto].
  destruct (HistoryTable_row t move Hs Hr) as (r & Hrow & Hlen).
  apply HistoryTable_inRange_spec in Hr as [Hh Ht].
  rewrite Hrow. simpl. apply arr_get_is_Some. lia.
Qed.

(** C10.  The killer and history tables are guarded at their interface.
    With arrays of the declared sizes (50 killer slots, 19 x 10 history
    cells) no call reads or writes outside an array, whatever the ply and
    the move: every call returns.  For a ply outside [0, 50) [update] leaves
    both killer arrays as they are and [isKiller] answers false; for a move
    whose hex is outside [0, 19) or whose tile is outside [0, 10) the
    history [update] leaves the table as it is and [getScore] answers 0. *)
Theorem heuristic_tables_bounds_guarded
  (k : KillerMoves) (t : HistoryTable) (ply d : Z) (move : Move) :
  KillerMoves_sized k -> HistoryTable_sized t ->
  (is_Some (KillerMoves_update k ply move)
   /\ is_Some (KillerMoves_isKiller k ply move)
   /\ is_Some (HistoryTable_update t move d)
   /\ is_Some (HistoryTable_getScore t move))
  /\ (~ (0 <= ply < 50) ->
      KillerMoves_update k ply move = Some k
      /\ KillerMoves_isKiller k ply move = Some false)
  /\ (~ (0 <= hexId move < 19 /\ 0 <= tileValue move < 10) ->
      HistoryTable_update t move d = Some t
      /\ HistoryTable_getScore t move = Some 0).
Proof.
  intros Hk Ht. split; [|split].
  - auto using KillerMoves_update_total, KillerMoves_isKiller_total,
      HistoryTable_update_total, HistoryTable_getScore_total.
  - intros Hply. unfold KillerMoves_update, KillerMoves_isKiller.
    assert ((ply <? 0) || (ply >=? KILLER_MAX_DEPTH) = true) as ->; [|done].
    unfold KILLER_MAX_DEPTH. rewrite orb_true_iff, Z.ltb_lt, Z.geb_leb, Z.leb_le. lia.
  - intros Hm. unfold HistoryTable_update, HistoryTable_getScore.
    destruct (HistoryTable_inRange move) eqn:Hr; [|done].
    apply HistoryTable_inRange_spec in Hr. unfold HISTORY_NUM_HEXES in Hr. tauto.
Qed.

(** The tables a search starts with, a ply past the last slot and a move off
    the board. *)
Lemma heuristic_tables_bounds_guarded_witness :
  (is_Some (KillerMoves_update (KillerMoves_new (T := refTables)) 50 (mkMove 19 10))
   /\ is_Some (KillerMoves_isKiller (KillerMoves_new (T := refTables)) 50 (mkMove 19 10))
   /\ is_Some (HistoryTable_update HistoryTable_new (mkMove 19 10) 3)
   /\ is_Some (HistoryTable_getScore HistoryTable_new (mkMove 19 10)))
  /\ (~ (0 <= 50 < 50) ->
      KillerMoves_update (KillerMoves_new (T := refTables)) 50 (mkMove 19 10)
      = Some (KillerMoves_new (T := refTables))
      /\ KillerMoves_isKiller (KillerMoves_new (T := refTables)) 50 (mkMove 19 10)
         = Some false)
  /\ (~ (0 <= hexId (mkMove 19 10) < 19 /\ 0 <= tileValue (mkMove 19 10) < 10) ->
      HistoryTable_update HistoryTable_new (mkMove 19 10) 3 = Some HistoryTable_new
      /\ HistoryTable_getScore HistoryTable_new (mkMove 19 10) = Some 0).
Proof.
  apply (heuristic_tables_bounds_guarded
           (KillerMoves_new (T := refTables)) HistoryTable_new 50 3 (mkMove 19 10)).
  - split; reflexivity.
  - split; [reflexivity|]. repeat constructor.
Defined.

Section Properties.
Context `{T : Tables}.

(** ** Chain walks *)

Lemma walkChain_line (fuel : nat) (b : HexukiBitboard) (h : Z) (d : Direction)
  (cur : Z) (w : WalkState) (line : list Z) :
  chainLine fuel d cur = Some line ->
  walkChain fuel b h d cur w = Some (fold_left (fun w c => walkBody b h c w) line w).
Proof.
  revert cur w line. induction fuel as [|fuel IH]; intros cur w line; simpl.
  - discriminate.
  - destruct (cur >=? 0); [|intros [= <-]; reflexivity].
    destruct (chainLine fuel d (nextHex cur d)) as [rest|] eqn:Hrest; [|discriminate].
    simpl. intros [= <-]. simpl. apply IH. exact Hrest.
Qed.

Lemma walkStarter_is_Some (b : HexukiBitboard) (h : Z) (a : ChainMax) (i : Z) :
  is_Some (starterLine i) -> is_Some (walkStarter b h a i).
Proof.
  intros [line Hline]. unfold walkStarter.
  rewrite (walkChain_line _ _ _ _ _ _ _ Hline). eauto.
Qed.

Lemma fold_option_is_Some {A B : Type} (f : A -> B -> option A) (l : list B) (a : A) :
  (forall a' x, x ∈ l -> is_Some (f a' x)) ->
  is_Some (fold_left (fun acc x => match acc with
                                   | Some a' => f a' x
                                   | None => None
                                   end) l (Some a)).
Proof.
  revert a. induction l as [|x l IH]; intros a Hf; simpl; [eauto|].
  destruct (Hf a x) as [a' Ha']; [left|].
  rewrite Ha'. apply IH. intros a'' y Hy. apply Hf. by right.
Qed.

Lemma walkAllStarters_is_Some (b : HexukiBitboard) (h : Z) :
  walks_end -> is_Some (walkAllStarters b h).
Proof.
  intros Hw. unfold walkAllStarters.
  apply (fold_option_is_Some (walkStarter b h)).
  intros a i Hi. apply walkStarter_is_Some, Hw.
  apply elem_of_seqZ in Hi. lia.
Qed.

Lemma checkChainLengthConstraint_is_Some (b : HexukiBitboard) (h : Z) :
  walks_end -> is_Some (checkChainLengthConstraint b h).
Proof.
  intros Hw. unfold checkChainLengthConstraint.
  destruct (walkAllStarters_is_Some
              (set_hexValues
                 (set_hexOccupied b
                    (wrap_u32 (Z.lor (hexOccupied b) (wrap_u32 (Z.shiftl 1 h)))))
                 (<[Z.to_nat h := 1]>
                    (hexValues
                       (set_hexOccupied b
                          (wrap_u32 (Z.lor (hexOccupied b) (wrap_u32 (Z.shiftl 1 h))))))))
              h Hw) as [a Ha].
  rewrite Ha. eauto.
Qed.

Lemma isMoveLegal_is_Some (b : HexukiBitboard) (h : Z) :
  walks_end -> is_Some (isMoveLegal b h).
Proof.
  intros Hw. unfold isMoveLegal.
  destruct (isHexOccupied b h); [eauto|].
  destruct (negb (hasAdjacentOccupied b h)); [eauto|].
  destruct (checkChainLengthConstraint_is_Some b h Hw) as [[ok b'] Hc].
  rewrite Hc. eauto.
Qed.

Lemma isMoveLegal_true (b : HexukiBitboard) (h : Z) :
  0 <= h < NUM_HEXES ->
  isMoveLegal b h = Some true <-> legalHex b h.
Proof.
  intros Hh. unfold isMoveLegal, legalHex. split.
  - destruct (isHexOccupied b h); [discriminate|].
    destruct (hasAdjacentOccupied b h); simpl; [|discriminate].
    destruct (checkChainLengthConstraint b h) as [[ok b']|]; [|discriminate].
    intros [= ->]. eauto 10.
  - intros (_ & -> & -> & b' & ->). reflexivity.
Qed.

(** ** Move generation *)

Lemma uniqueTileValues_acc (l u : list Z) :
  NoDup u ->
  let r := fold_left (fun u tile => if existsb (Z.eqb tile) u then u else u ++ [tile])
                     l u in
  NoDup r /\ forall x, x ∈ r <-> x ∈ u \/ x ∈ l.
Proof.
  revert u. induction l as [|t l IH]; intros u Hu; simpl.
  - split; [exact Hu|]. intros x. rewrite elem_of_nil. tauto.
  - destruct (existsb (Z.eqb t) u) eqn:Hex.
    + destruct (IH u Hu) as [Hnd Hel]. split; [exact Hnd|].
      intros x. rewrite Hel, elem_of_cons.
      apply existsb_exists in Hex as (y & Hy & Hty). apply Z.eqb_eq in Hty. subst y.
      apply list_elem_of_In in Hy. split; [tauto|]. intros [?|[->|?]]; tauto.
    + assert (t ∉ u) as Hnot.
      { intros Hin. apply list_elem_of_In in Hin.
        assert (existsb (Z.eqb t) u = true) as Ht; [|congruence].
        apply existsb_exists. exists t. split; [exact Hin|apply Z.eqb_refl]. }
      destruct (IH (u ++ [t])) as [Hnd Hel].
      { apply NoDup_app. split; [exact Hu|]. split.
        - intros x Hx Hx'. apply list_elem_of_singleton in Hx'. subst. tauto.
        - apply NoDup_singleton. }
      split; [exact Hnd|]. intros x.
      rewrite Hel, elem_of_app, !elem_of_cons, elem_of_nil. tauto.
Qed.

Lemma uniqueTileValues_spec (l : list Z) :
  NoDup (uniqueTileValues l) /\ forall x, x ∈ uniqueTileValues l <-> x ∈ l.
Proof.
  destruct (uniqueTileValues_acc l [] (NoDup_nil_2)) as [H1 H2].
  split; [exact H1|]. intros x. unfold uniqueTileValues. rewrite H2, elem_of_nil. tauto.
Qed.

(** The moves generated for the hexes [hs], given the moves so far. *)
Lemma getValidMoves_fold (b : HexukiBitboard) (u : list Z) (hs : list Z)
  (moves0 : list Move) :
  (forall h, h ∈ hs -> is_Some (isMoveLegal b h)) ->
  fold_left
    (fun acc h =>
       match acc with
       | None => None
       | Some moves =>
           if isHexOccupied b h then Some moves
           else match isMoveLegal b h with
                | None => None
                | Some true => Some (moves ++ (mkMove h <$> u))
                | Some false => Some moves
                end
       end) hs (Some moves0)
  = Some (moves0 ++
          (hs ≫= fun h => if bool_decide (isMoveLegal b h = Some true)
                          then (mkMove h <$> u) else [])).
Proof.
  revert moves0. induction hs as [|h hs IH]; intros moves0 Hs; simpl.
  - by rewrite app_nil_r.
  - assert (forall h', h' ∈ hs -> is_Some (isMoveLegal b h')) as Hs'.
    { intros h' Hh'. apply Hs. by right. }
    destruct (Hs h) as [r Hr]; [left|].
    destruct (isHexOccupied b h) eqn:Hocc.
    + rewrite IH by exact Hs'. f_equal.
      assert (isMoveLegal b h = Some false) as ->.
      { unfold isMoveLegal. by rewrite Hocc. }
      rewrite bool_decide_eq_false_2 by discriminate. reflexivity.
    + rewrite Hr. destruct r.
      * rewrite IH by exact Hs'. rewrite bool_decide_eq_true_2 by reflexivity.
        by rewrite <- app_assoc.
      * rewrite IH by exact Hs'. rewrite bool_decide_eq_false_2 by discriminate.
        reflexivity.
Qed.

Lemma getValidMoves_eq (b : HexukiBitboard) :
  walks_end ->
  getValidMoves b
  = Some (seqZ 0 NUM_HEXES ≫= fun h =>
            if bool_decide (isMoveLegal b h = Some true)
            then mkMove h <$> uniqueTileValues (moverTiles b) else []).
Proof.
  intros Hw. unfold getValidMoves.
  rewrite getValidMoves_fold; [reflexivity|].
  intros h _. by apply isMoveLegal_is_Some.
Qed.

Lemma getValidMoves_elem (b : HexukiBitboard) (moves : list Move) (m : Move) :
  walks_end -> getValidMoves b = Some moves ->
  m ∈ moves <-> legalHex b (hexId m) /\ tileValue m ∈ moverTiles b.
Proof.
  intros Hw. rewrite (getValidMoves_eq b Hw). intros Heq.
  apply (inj Some) in Heq. subst moves.
  rewrite list_elem_of_bind. split.
  - intros (h & Hm & Hh). apply elem_of_seqZ in Hh.
    destruct (bool_decide (isMoveLegal b h = Some true)) eqn:Hl;
      [|by apply elem_of_nil in Hm].
    apply bool_decide_eq_true in Hl.
    apply list_elem_of_fmap in Hm as (v & -> & Hv). simpl.
    split; [apply isMoveLegal_true; [unfold NUM_HEXES in *; lia|exact Hl]|].
    by apply uniqueTileValues_spec.
  - intros [Hl Hv]. exists (hexId m).
    pose proof Hl as (Hr & _). split; [|apply elem_of_seqZ; lia].
    apply isMoveLegal_true in Hl; [|exact Hr].
    rewrite bool_decide_eq_true_2 by exact Hl.
    apply list_elem_of_fmap. exists (tileValue m). split; [by destruct m|].
    by apply uniqueTileValues_spec.
Qed.

Lemma getValidMoves_NoDup (b : HexukiBitboard) (moves : list Move) :
  walks_end -> getValidMoves b = Some moves -> NoDup moves.
Proof.
  intros Hw. rewrite (getValidMoves_eq b Hw). intros Heq.
  apply (inj Some) in Heq. subst moves.
  apply NoDup_bind.
  - intros h1 h2 m _ _ H1 H2.
    destruct (bool_decide (isMoveLegal b h1 = Some true)); [|by apply elem_of_nil in H1].
    destruct (bool_decide (isMoveLegal b h2 = Some true)); [|by apply elem_of_nil in H2].
    apply list_elem_of_fmap in H1 as (v1 & -> & _).
    apply list_elem_of_fmap in H2 as (v2 & [= -> _] & _). reflexivity.
  - intros h _. destruct (bool_decide (isMoveLegal b h = Some true)); [|constructor].
    apply NoDup_fmap_2_strong; [|apply uniqueTileValues_spec].
    intros v1 v2 _ _ [= ->]. reflexivity.
  - apply NoDup_seqZ.
Qed.

(** C8.  Provided the 15 chain lines of the tables leave the board,
    [getValidMoves] returns a list in which a move [(h, v)] occurs exactly
    once when [h] is an empty hex with an occupied neighbour that passes
    the chain-length rule and [v] is a value of the mover's bag, and does not
    occur otherwise: one move per legal hex and distinct bag value, however
    often the value is in the bag. *)
Theorem getValidMoves_exactly_legal_pairs (b : HexukiBitboard) :
  walks_end ->
  exists moves,
    getValidMoves b = Some moves
    /\ NoDup moves
    /\ forall h v,
         mkMove h v ∈ moves <-> legalHex b h /\ v ∈ moverTiles b.
Proof.
  intros Hw. rewrite (getValidMoves_eq b Hw). eexists. split; [reflexivity|].
  split.
  - eapply getValidMoves_NoDup; [exact Hw|]. apply getValidMoves_eq, Hw.
  - intros h v.
    apply (getValidMoves_elem b _ (mkMove h v) Hw (getValidMoves_eq b Hw)).
Qed.

(** ** The chain-length rule *)

Lemma walk_line_runs (b : HexukiBitboard) (h : Z) (line cur : list Z) (a : ChainMax) :
  flushWalk (fold_left (fun w c => walkBody b h c w) line (walkOf h cur a))
  = fold_left (endChain h) (spec_runs (isHexOccupied b) line cur) a.
Proof.
  revert cur a. induction line as [|x rest IH]; intros cur a; simpl.
  - unfold flushWalk, walkOf. simpl. destruct cur as [|c cur]; [reflexivity|].
    simpl. destruct (Z.gtb_spec (Z.of_nat (S (length cur))) 0); [reflexivity|lia].
  - unfold walkBody at 2. destruct (isHexOccupied b x) eqn:Hocc.
    + rewrite <- IH. f_equal. f_equal. unfold walkOf. simpl. f_equal.
      * rewrite length_app. simpl. lia.
      * destruct (Z.eqb_spec x h) as [->|Hne].
        -- symmetry. apply bool_decide_eq_true_2. apply elem_of_app. right. by left.
        -- apply bool_decide_ext. rewrite elem_of_app, list_elem_of_singleton.
           split; [tauto|]. intros [?|?]; [done|congruence].
    + destruct cur as [|c cur].
      * simpl. rewrite <- IH. reflexivity.
      * unfold walkOf at 1. simpl currentLength.
        destruct (Z.gtb_spec (Z.of_nat (length (c :: cur))) 0) as [_|Hle];
          [|simpl in Hle; lia].
        simpl fold_left. rewrite <- IH. reflexivity.
Qed.

Lemma walkStarter_runs (b : HexukiBitboard) (h : Z) (a : ChainMax) (i : Z)
  (line : list Z) :
  starterLine i = Some line ->
  walkStarter b h a i
  = Some (fold_left (endChain h) (spec_runs (isHexOccupied b) line []) a).
Proof.
  intros Hline. unfold walkStarter.
  rewrite (walkChain_line _ b h _ _ (mkWalk 0 false a) _ Hline).
  f_equal. apply (walk_line_runs b h line [] a).
Qed.

Lemma walkStarters_runs (b : HexukiBitboard) (h : Z) (idxs : list Z) (a : ChainMax) :
  (forall i, i ∈ idxs -> is_Some (starterLine i)) ->
  fold_left (fun acc i => match acc with
                          | Some a => walkStarter b h a i
                          | None => None
                          end) idxs (Some a)
  = Some (fold_left (endChain h)
            (omap starterLine idxs ≫= fun line => spec_runs (isHexOccupied b) line [])
            a).
Proof.
  revert a. induction idxs as [|i idxs IH]; intros a His; simpl; [reflexivity|].
  destruct (His i) as [line Hline]; [left|].
  rewrite (walkStarter_runs b h a i line Hline), Hline. simpl.
  rewrite IH by (intros j Hj; apply His; by right).
  by rewrite fold_left_app.
Qed.

(** *** Running maxima *)

Lemma list_max_Z_nonneg (l : list Z) : 0 <= list_max_Z l.
Proof. induction l; simpl; lia. Qed.

Lemma list_max_Z_app (l1 l2 : list Z) :
  list_max_Z (l1 ++ l2) = Z.max (list_max_Z l1) (list_max_Z l2).
Proof.
  induction l1 as [|x l1 IH]; simpl.
  - pose proof (list_max_Z_nonneg l2). lia.
  - rewrite IH. lia.
Qed.

Lemma list_max_Z_elem (l : list Z) :
  l <> [] -> Forall (fun x => 0 < x) l -> list_max_Z l ∈ l.
Proof.
  induction l as [|x l IH]; [done|]. intros _ Hpos.
  apply Forall_cons in Hpos as [Hx Hl]. simpl.
  destruct l as [|y l].
  - simpl. replace (Z.max x 0) with x by lia. by left.
  - destruct (Z.max_spec x (list_max_Z (y :: l))) as [[_ ->]|[_ ->]].
    + right. by apply IH.
    + by left.
Qed.

Lemma list_max_Z_ge (l : list Z) (x : Z) : x ∈ l -> x <= list_max_Z l.
Proof.
  induction l as [|y l IH]; [by intros ?%elem_of_nil|].
  intros [->|Hx]%elem_of_cons; simpl; [lia|]. specialize (IH Hx). lia.
Qed.

Lemma eraseFirst_app_elem (v : Z) (l1 l2 : list Z) :
  v ∈ l1 -> eraseFirst v (l1 ++ l2) = eraseFirst v l1 ++ l2.
Proof.
  induction l1 as [|x l1 IH]; [by intros ?%elem_of_nil|]. simpl.
  destruct (Z.eqb_spec x v); [reflexivity|].
  intros [->|Hin]%elem_of_cons; [done|]. by rewrite IH.
Qed.

Lemma eraseFirst_app_not_elem (v : Z) (l1 l2 : list Z) :
  v ∉ l1 -> eraseFirst v (l1 ++ l2) = l1 ++ eraseFirst v l2.
Proof.
  induction l1 as [|x l1 IH]; [reflexivity|]. simpl. intros Hnot.
  apply not_elem_of_cons in Hnot as [Hne Hnot].
  destruct (Z.eqb_spec x v); [congruence|]. by rewrite IH.
Qed.

Lemma chainEnded_top2 (a : ChainMax) (lens : list Z) (len : Z) (c : bool) :
  Forall (fun x => 0 < x) lens -> 0 < len -> top2 a lens ->
  top2 (chainEnded a len c) (lens ++ [len]).
Proof.
  intros Hpos Hlen [Hmax Hsnd]. unfold top2, spec_secondLargest in *.
  assert (maxLength (chainEnded a len c)
          = (if len >? maxLength a then len else maxLength a)
          /\ secondMaxLength (chainEnded a len c)
             = (if len >? maxLength a then maxLength a
                else if len >? secondMaxLength a then len else secondMaxLength a))
    as [-> ->].
  { unfold chainEnded.
    destruct (len >? maxLength a), (len >? secondMaxLength a);
      match goal with |- context [if ?g then _ else _] => destruct g end; simpl; auto. }
  assert (list_max_Z (lens ++ [len]) = Z.max (list_max_Z lens) len) as ->.
  { rewrite list_max_Z_app. simpl. lia. }
  rewrite Hmax, Hsnd.
  destruct (Z.gtb_spec len (list_max_Z lens)) as [Hgt|Hle].
  - replace (Z.max (list_max_Z lens) len) with len by lia. split; [reflexivity|].
    rewrite eraseFirst_app_not_elem.
    + cbn [eraseFirst]. rewrite Z.eqb_refl, app_nil_r. reflexivity.
    + intros Hin. apply list_max_Z_ge in Hin. lia.
  - replace (Z.max (list_max_Z lens) len) with (list_max_Z lens) by lia.
    split; [reflexivity|].
    assert (lens <> []) as Hne.
    { intros ->. simpl in Hle. lia. }
    rewrite eraseFirst_app_elem by (by apply list_max_Z_elem).
    rewrite list_max_Z_app. cbn [list_max_Z foldr].
    destruct (Z.gtb_spec len (list_max_Z (eraseFirst (list_max_Z lens) lens)));
      pose proof (list_max_Z_nonneg (eraseFirst (list_max_Z lens) lens));
      unfold list_max_Z in *; lia.
Qed.

Lemma chainEnded_longest (a : ChainMax) (len : Z) (c : bool) :
  0 <= longestAffected a ->
  longestAffected (chainEnded a len c)
  = Z.max (longestAffected a) (if c then len else 0).
Proof.
  intros Hla. unfold chainEnded.
  assert (forall a1 : ChainMax, longestAffected a1 = longestAffected a ->
            longestAffected
              (if c && (len >? longestAffected a1)
               then mkChainMax (maxLength a1) (secondMaxLength a1) len else a1)
            = Z.max (longestAffected a) (if c then len else 0)) as Hgen.
  { intros a1 Ha1. rewrite Ha1. destruct c; simpl; [|lia].
    destruct (Z.gtb_spec len (longestAffected a)); simpl; lia. }
  destruct (len >? maxLength a); [by apply Hgen|].
  destruct (len >? secondMaxLength a); by apply Hgen.
Qed.

Lemma spec_runs_nonempty (occ : Z -> bool) (line cur : list Z) :
  Forall (fun run => run <> []) (spec_runs occ line cur).
Proof.
  revert cur. induction line as [|x rest IH]; intros cur; simpl.
  - destruct cur; [constructor|]. by repeat constructor.
  - destruct (occ x).
    + apply IH.
    + destruct cur; [apply IH|]. constructor; [done|apply IH].
Qed.

Lemma endChain_fold (h : Z) (chains seen : list (list Z)) (a : ChainMax) :
  Forall (fun run => run <> []) chains ->
  Forall (fun run => run <> []) seen ->
  top2 a ((fun c => Z.of_nat (length c)) <$> seen) ->
  longestAffected a = spec_longestThrough h seen ->
  let a' := fold_left (endChain h) chains a in
  top2 a' ((fun c => Z.of_nat (length c)) <$> (seen ++ chains))
  /\ longestAffected a' = spec_longestThrough h (seen ++ chains).
Proof.
  revert seen a. induction chains as [|run chains IH]; intros seen a Hch Hdone Ht Hl.
  - simpl. by rewrite app_nil_r.
  - apply Forall_cons in Hch as [Hrun Hch]. simpl.
    replace (seen ++ run :: chains) with ((seen ++ [run]) ++ chains)
      by (by rewrite <- app_assoc).
    assert (0 < Z.of_nat (length run)) as Hlen.
    { destruct run; [done|simpl; lia]. }
    apply IH.
    + exact Hch.
    + apply Forall_app. split; [exact Hdone|by repeat constructor].
    + rewrite fmap_app. simpl. apply chainEnded_top2; [|exact Hlen|exact Ht].
      apply Forall_fmap. eapply Forall_impl; [exact Hdone|].
      intros r Hr. simpl. destruct r; [done|simpl; lia].
    + unfold endChain. rewrite chainEnded_longest.
      * rewrite Hl. unfold spec_longestThrough.
        rewrite filter_app, fmap_app, list_max_Z_app. f_equal.
        rewrite filter_cons. destruct (decide (h ∈ run)) as [Hin|Hnot].
        -- rewrite bool_decide_eq_true_2 by exact Hin. simpl. lia.
        -- rewrite bool_decide_eq_false_2 by exact Hnot. reflexivity.
      * rewrite Hl. apply list_max_Z_nonneg.
Qed.

(** [spec_runs] lists maximal runs of occupied hexes. *)
Lemma spec_runs_maximal_gen (occ : Z -> bool) (line : list Z) :
  forall pfx cur r,
    (forall x, last pfx = Some x -> occ x = false) ->
    Forall (fun x => occ x = true) cur ->
    r ∈ spec_runs occ line cur ->
    isMaximalRun occ (pfx ++ cur ++ line) r.
Proof.
  induction line as [|x rest IH]; intros pfx cur r Hpfx Hcur Hr; simpl in Hr.
  - destruct cur as [|c cur]; [by apply elem_of_nil in Hr|].
    apply list_elem_of_singleton in Hr as ->.
    split; [done|]. split; [exact Hcur|].
    exists pfx, []. split; [reflexivity|]. split; [exact Hpfx|]. intros y [=].
  - destruct (occ x) eqn:Hx.
    + replace (pfx ++ cur ++ x :: rest) with (pfx ++ (cur ++ [x]) ++ rest)
        by (by rewrite <- (app_assoc cur)).
      apply IH; [exact Hpfx| |exact Hr].
      apply Forall_app. split; [exact Hcur|by repeat constructor].
    + assert (forall y, last ((pfx ++ cur) ++ [x]) = Some y -> occ y = false) as Hlast.
      { intros y. rewrite last_snoc. by intros [= <-]. }
      assert (pfx ++ cur ++ x :: rest = ((pfx ++ cur) ++ [x]) ++ [] ++ rest) as Hline.
      { simpl. by rewrite <- !app_assoc. }
      destruct cur as [|c cur].
      * rewrite Hline. apply IH; [exact Hlast|constructor|exact Hr].
      * apply elem_of_cons in Hr as [->|Hr].
        -- split; [done|]. split; [exact Hcur|].
           exists pfx, (x :: rest). split; [reflexivity|]. split; [exact Hpfx|].
           by intros y [= <-].
        -- rewrite Hline. apply IH; [exact Hlast|constructor|exact Hr].
Qed.

Lemma spec_runs_maximal (occ : Z -> bool) (line r : list Z) :
  r ∈ spec_runs occ line [] -> isMaximalRun occ line r.
Proof.
  intros Hr. apply (spec_runs_maximal_gen occ line [] [] r); [intros y [=]|constructor|].
  exact Hr.
Qed.

(** *** The temporary placement *)

Lemma wrap_u32_testbit (z i : Z) :
  0 <= i -> Z.testbit (wrap_u32 z) i = (i <? 32) && Z.testbit z i.
Proof.
  intros Hi. unfold wrap_u32. destruct (Z.ltb_spec i 32).
  - by rewrite Z.mod_pow2_bits_low by lia.
  - by rewrite Z.mod_pow2_bits_high by lia.
Qed.

Lemma uint32_testbit_high (z i : Z) :
  0 <= z < 2 ^ 32 -> 32 <= i -> Z.testbit z i = false.
Proof.
  intros Hz Hi. rewrite <- (Z.mod_small z (2 ^ 32)) by lia.
  apply Z.mod_pow2_bits_high. lia.
Qed.

Lemma shift1_testbit (h i : Z) :
  0 <= h -> Z.testbit (Z.shiftl 1 h) i = (i =? h).
Proof.
  intros Hh. rewrite Z.shiftl_1_l.
  destruct (Z.eqb_spec i h) as [->|Hne].
  - by apply Z.pow2_bits_true.
  - apply Z.pow2_bits_false. congruence.
Qed.

Lemma placed_testbit (occ h i : Z) :
  0 <= occ < 2 ^ 32 -> 0 <= h < 32 ->
  Z.testbit (wrap_u32 (Z.lor occ (wrap_u32 (Z.shiftl 1 h)))) i
  = (i =? h) || Z.testbit occ i.
Proof.
  intros Hocc Hh. destruct (Z.ltb_spec i 0) as [Hneg|Hpos].
  - rewrite !Z.testbit_neg_r by lia.
    destruct (Z.eqb_spec i h); [lia|reflexivity].
  - rewrite wrap_u32_testbit, Z.lor_spec, wrap_u32_testbit, shift1_testbit by lia.
    destruct (Z.ltb_spec i 32); simpl.
    + apply orb_comm.
    + rewrite uint32_testbit_high by lia.
      destruct (Z.eqb_spec i h); [lia|reflexivity].
Qed.

Lemma spec_runs_ext (occ1 occ2 : Z -> bool) (line cur : list Z) :
  (forall x, occ1 x = occ2 x) -> spec_runs occ1 line cur = spec_runs occ2 line cur.
Proof.
  intros Hext. revert cur. induction line as [|x rest IH]; intros cur; simpl;
    [reflexivity|].
  rewrite Hext. destruct (occ2 x); [apply IH|]. destruct cur; by rewrite IH.
Qed.

Lemma restore_hexValues (vals : list Z) (n : nat) :
  <[n := vals !!! n]> (<[n := 1]> vals) = vals.
Proof.
  rewrite list_insert_insert_eq.
  destruct (decide (n < length vals)%nat) as [Hlt|Hge].
  - apply list_insert_id. by apply list_lookup_lookup_total_lt.
  - apply list_insert_ge. lia.
Qed.

Lemma boardLines_eq :
  boardLines = omap starterLine (seqZ 0 15).
Proof. reflexivity. Qed.

(** C7.  Provided the 15 chain lines of the tables leave the board, for a
    position whose mask fits its 32 bits and a hex [h] of the board,
    [checkChainLengthConstraint] returns; it answers true exactly when, with
    a tile placed on [h], the longest chain through [h] is at most one longer
    than the second-largest chain length of the whole board (chains of equal
    length count separately: two chains of the largest length make it the
    second largest too); and the position it leaves is the one it was given,
    field for field. *)
Theorem checkChainLengthConstraint_spec (b : HexukiBitboard) (h : Z) :
  walks_end -> 0 <= hexOccupied b < 2 ^ 32 -> 0 <= h < NUM_HEXES ->
  exists ok,
    checkChainLengthConstraint b h = Some (ok, b)
    /\ (ok = true <-> spec_chainLegal b h).
Proof.
  intros Hw Hocc Hh. unfold checkChainLengthConstraint, walkAllStarters.
  rewrite walkStarters_runs.
  2:{ intros i Hi. apply Hw. apply elem_of_seqZ in Hi. lia. }
  rewrite <- boardLines_eq.
  set (b2 := set_hexValues _ _).
  assert ((boardLines ≫= fun line => spec_runs (isHexOccupied b2) line [])
          = spec_chains b h) as ->.
  { unfold spec_chains.
    induction boardLines as [|l ls IHl]; [reflexivity|]. csimpl.
    rewrite IHl. f_equal. apply spec_runs_ext. intros x.
    unfold isHexOccupied, spec_occupiedAfter, b2. simpl.
    apply placed_testbit; [exact Hocc|unfold NUM_HEXES in Hh; lia]. }
  destruct (endChain_fold h (spec_chains b h) [] (mkChainMax 0 0 0)) as [[_ Hs] Hl].
  { unfold spec_chains. apply Forall_bind. apply Forall_forall.
    intros line _. apply spec_runs_nonempty. }
  { constructor. }
  { split; reflexivity. }
  { reflexivity. }
  simpl in Hs, Hl. eexists. split.
  - f_equal. f_equal. unfold b2. destruct b as [occ vals p1 p2 cp sy ti zh].
    unfold set_hexOccupied, set_hexValues, getTileValue. simpl.
    by rewrite restore_hexValues.
  - unfold spec_chainLegal. rewrite <- Hs, <- Hl.
    rewrite negb_true_iff. rewrite Z.gtb_ltb, Z.ltb_ge. reflexivity.
Qed.

(** ** Moves of [getValidMoves] *)

Lemma getValidMoves_fold_None (b : HexukiBitboard) (u : list Z) (hs : list Z) :
  fold_left
    (fun acc h =>
       match acc with
       | None => None
       | Some moves =>
           if isHexOccupied b h then Some moves
           else match isMoveLegal b h with
                | None => None
                | Some true => Some (moves ++ (mkMove h <$> u))
                | Some false => Some moves
                end
       end) hs None = None.
Proof. induction hs; simpl; auto. Qed.

Lemma getValidMoves_fold_sound (b : HexukiBitboard) (u : list Z) (hs : list Z)
  (moves0 moves : list Move) (m : Move) :
  fold_left
    (fun acc h =>
       match acc with
       | None => None
       | Some moves =>
           if isHexOccupied b h then Some moves
           else match isMoveLegal b h with
                | None => None
                | Some true => Some (moves ++ (mkMove h <$> u))
                | Some false => Some moves
                end
       end) hs (Some moves0) = Some moves ->
  m ∈ moves ->
  m ∈ moves0
  \/ (hexId m ∈ hs /\ isMoveLegal b (hexId m) = Some true /\ tileValue m ∈ u).
Proof.
  revert moves0. induction hs as [|h hs IH]; intros moves0; simpl.
  - intros [= ->]. auto.
  - destruct (isHexOccupied b h) eqn:Hocc.
    { intros Hf Hm. destruct (IH _ Hf Hm) as [?|(? & ? & ?)]; [auto|].
      right. split; [by right|done]. }
    destruct (isMoveLegal b h) as [[|]|] eqn:Hl.
    + intros Hf Hm. destruct (IH _ Hf Hm) as [Hin|(? & ? & ?)].
      * apply elem_of_app in Hin as [?|Hin]; [auto|].
        apply list_elem_of_fmap in Hin as (v & -> & Hv). simpl.
        right. split; [by left|done].
      * right. split; [by right|done].
    + intros Hf Hm. destruct (IH _ Hf Hm) as [?|(? & ? & ?)]; [auto|].
      right. split; [by right|done].
    + by rewrite getValidMoves_fold_None.
Qed.

(** A generated move names a legal hex and a value of the mover's bag. *)
Lemma getValidMoves_sound (b : HexukiBitboard) (moves : list Move) (m : Move) :
  getValidMoves b = Some moves -> m ∈ moves ->
  legalHex b (hexId m) /\ tileValue m ∈ moverTiles b.
Proof.
  unfold getValidMoves. intros Hf Hm.
  destruct (getValidMoves_fold_sound _ _ _ _ _ _ Hf Hm) as [Hin|(Hh & Hl & Hv)];
    [by apply elem_of_nil in Hin|].
  apply elem_of_seqZ in Hh. split.
  - apply isMoveLegal_true; [lia|exact Hl].
  - by apply uniqueTileValues_spec.
Qed.

(** ** make / unmake *)

Lemma eraseFirst_append (v : Z) (l : list Z) :
  v ∈ l -> eraseFirst v l ++ [v] ≡ₚ l.
Proof.
  induction l as [|x l IH]; [by intros ?%elem_of_nil|]. simpl.
  destruct (Z.eqb_spec x v) as [->|Hne].
  - intros _. symmetry. apply Permutation_cons_append.
  - intros [->|Hin]%elem_of_cons; [done|]. simpl. by rewrite IH.
Qed.

Lemma occupancy_restored (occ h : Z) :
  0 <= occ < 2 ^ 32 -> 0 <= h < 32 -> Z.testbit occ h = false ->
  wrap_u32 (Z.land (wrap_u32 (Z.lor occ (wrap_u32 (Z.shiftl 1 h))))
                   (wrap_u32 (Z.lnot (wrap_u32 (Z.shiftl 1 h)))))
  = occ.
Proof.
  intros Hocc Hh Hbit. apply Z.bits_inj'. intros i Hi.
  rewrite wrap_u32_testbit, Z.land_spec, placed_testbit by lia.
  rewrite wrap_u32_testbit, Z.lnot_spec, wrap_u32_testbit, shift1_testbit by lia.
  destruct (Z.ltb_spec i 32); simpl.
  - destruct (Z.eqb_spec i h) as [->|Hne]; simpl; [by rewrite Hbit|].
    by rewrite andb_true_r.
  - symmetry. by apply uint32_testbit_high.
Qed.

Lemma unmoved_hexValues (vals : list Z) (n : nat) (v : Z) :
  vals !!! n = 0 -> <[n := 0]> (<[n := v]> vals) = vals.
Proof.
  intros Hz. rewrite list_insert_insert_eq.
  destruct (decide (n < length vals)%nat) as [Hlt|Hge].
  - apply list_insert_id. rewrite <- Hz. by apply list_lookup_lookup_total_lt.
  - apply list_insert_ge. lia.
Qed.

Lemma lxor_cancel (x k1 k2 : Z) :
  Z.lxor (Z.lxor (Z.lxor (Z.lxor x k1) k2) k1) k2 = x.
Proof.
  apply Z.bits_inj'. intros i _. rewrite !Z.lxor_spec.
  by destruct (Z.testbit x i), (Z.testbit k1 i), (Z.testbit k2 i).
Qed.

(** [unmakeMove] after [makeMove], for any move onto an empty hex of the
    board with a value of the mover's bag. *)
Lemma unmake_make (b : HexukiBitboard) (m : Move) :
  Position_wf b -> 0 <= hexId m < NUM_HEXES ->
  isHexOccupied b (hexId m) = false -> tileValue m ∈ moverTiles b ->
  hexOccupied (unmakeMove (makeMove b m) m) = hexOccupied b
  /\ hexValues (unmakeMove (makeMove b m) m) = hexValues b
  /\ currentPlayer (unmakeMove (makeMove b m) m) = currentPlayer b
  /\ zobristHash (unmakeMove (makeMove b m) m) = zobristHash b
  /\ p1AvailableTiles (unmakeMove (makeMove b m) m) ≡ₚ p1AvailableTiles b
  /\ p2AvailableTiles (unmakeMove (makeMove b m) m) ≡ₚ p2AvailableTiles b
  /\ symmetryStillPossible (unmakeMove (makeMove b m) m) = symmetryStillPossible b
  /\ tilesAreIdentical (unmakeMove (makeMove b m) m) = tilesAreIdentical b.
Proof.
  intros (Hocc & Hcp & Hzero) Hh Hempty Hv.
  specialize (Hzero _ Hh Hempty).
  assert (0 <= hexId m < 32) as Hh32 by (unfold NUM_HEXES in Hh; lia).
  destruct b as [occ vals p1 p2 cp sy ti zh].
  unfold isHexOccupied, getTileValue, moverTiles in *.
  cbn [hexOccupied hexValues currentPlayer p1AvailableTiles p2AvailableTiles] in *.
  pose proof (occupancy_restored occ (hexId m) Hocc Hh32 Hempty) as Ho.
  pose proof (unmoved_hexValues vals (Z.to_nat (hexId m)) (wrap_u8 (tileValue m)) Hzero)
    as Hvals.
  destruct Hcp as [-> | ->].
  - change (PLAYER_1 =? PLAYER_1) with true in Hv.
    pose proof (eraseFirst_append _ _ Hv) as Hbag.
    pose proof (lxor_cancel zh (getTileHash (hexId m) (tileValue m))
                            (getPlayerHash PLAYER_1)) as Hx.
    split; [exact Ho|]. split; [exact Hvals|]. split; [reflexivity|].
    split; [exact Hx|]. split; [exact Hbag|]. done.
  - change (PLAYER_2 =? PLAYER_1) with false in Hv.
    pose proof (eraseFirst_append _ _ Hv) as Hbag.
    pose proof (lxor_cancel zh (getTileHash (hexId m) (tileValue m))
                            (getPlayerHash PLAYER_2)) as Hx.
    split; [exact Ho|]. split; [exact Hvals|]. split; [reflexivity|].
    split; [exact Hx|]. split; [reflexivity|]. split; [exact Hbag|]. done.
Qed.

(** C1.  For a position that satisfies its representation invariant and a
    move [m] of [getValidMoves], [makeMove m] followed by [unmakeMove m]
    gives back the occupancy mask, the value of every hex, the side to move
    and the Zobrist hash unchanged, and bags with the same tiles as before,
    possibly in another order. *)
Theorem makeMove_unmakeMove_restores (b : HexukiBitboard) (moves : list Move)
  (m : Move) :
  Position_wf b -> getValidMoves b = Some moves -> m ∈ moves ->
  hexOccupied (unmakeMove (makeMove b m) m) = hexOccupied b
  /\ hexValues (unmakeMove (makeMove b m) m) = hexValues b
  /\ currentPlayer (unmakeMove (makeMove b m) m) = currentPlayer b
  /\ zobristHash (unmakeMove (makeMove b m) m) = zobristHash b
  /\ p1AvailableTiles (unmakeMove (makeMove b m) m) ≡ₚ p1AvailableTiles b
  /\ p2AvailableTiles (unmakeMove (makeMove b m) m) ≡ₚ p2AvailableTiles b.
Proof.
  intros Hwf Hmoves Hm.
  destruct (getValidMoves_sound b moves m Hmoves Hm) as [(Hh & Hempty & _) Hv].
  destruct (unmake_make b m Hwf Hh Hempty Hv) as (H1 & H2 & H3 & H4 & H5 & H6 & _).
  repeat split; assumption.
Qed.

(** ** Legality closure *)

Lemma isTileAvailable_mover (b : HexukiBitboard) (v : Z) :
  1 <= v <= MAX_TILE_VALUE -> v ∈ moverTiles b ->
  isTileAvailable b (currentPlayer b) v = true.
Proof.
  intros Hv Hin. unfold isTileAvailable.
  destruct (Z.ltb_spec v 1); [lia|]. destruct (Z.gtb_spec v MAX_TILE_VALUE); [lia|].
  simpl. apply existsb_exists. exists v. split; [|apply Z.eqb_refl].
  apply list_elem_of_In. exact Hin.
Qed.

(** Whatever [Move::isValid] says, [isValidMove] accepts no move whose tile
    value is outside [1, MAX_TILE_VALUE]: [isTileAvailable] refuses it. *)
Lemma isValidMove_tile_range (b : HexukiBitboard) (m : Move) :
  isValidMove b m = Some true -> 1 <= tileValue m <= MAX_TILE_VALUE.
Proof.
  unfold isValidMove, isTileAvailable.
  destruct (negb (Move_isValid m)); [discriminate|].
  destruct (isMoveLegal b (hexId m)) as [[|]|]; try discriminate.
  destruct (Z.ltb_spec (tileValue m) 1); [discriminate|].
  destruct (Z.gtb_spec (tileValue m) MAX_TILE_VALUE); [discriminate|].
  intros _. lia.
Qed.

(** C9, amended.  When the mover's bag holds only tile values of the game
    (1 to 9), every move of [getValidMoves] satisfies [isValidMove]. *)
Theorem getValidMoves_valid_for_game_tiles (b : HexukiBitboard)
  (moves : list Move) (m : Move) :
  isValid_accepts_game_moves ->
  Forall (fun v => 1 <= v <= MAX_TILE_VALUE) (moverTiles b) ->
  getValidMoves b = Some moves -> m ∈ moves ->
  isValidMove b m = Some true.
Proof.
  intros Hvalid Hbag Hmoves Hm.
  destruct (getValidMoves_sound b moves m Hmoves Hm) as [Hlegal Hv].
  assert (1 <= tileValue m <= MAX_TILE_VALUE) as Hrange.
  { rewrite Forall_forall in Hbag. by apply Hbag. }
  pose proof Hlegal as (Hh & _).
  unfold isValidMove.
  replace m with (mkMove (hexId m) (tileValue m)) at 1 by (by destruct m).
  rewrite Hvalid by assumption. simpl.
  apply isMoveLegal_true in Hlegal; [|exact Hh]. rewrite Hlegal.
  by rewrite isTileAvailable_mover.
Qed.

(** ** The position parser *)

Lemma returns_bind {A B : Type} (r : result A) (k : A -> result B) :
  returns (result_bind r k) <-> exists a, r = Ok a /\ returns (k a).
Proof.
  unfold returns. destruct r as [a|e]; simpl.
  - split; [intros [b Hb]; eauto|]. intros (a' & [= <-] & Hk). exact Hk.
  - split; [intros [b Hb]; discriminate|]. intros (a' & Ha & _). discriminate.
Qed.

Lemma returns_Ok {A : Type} (a : A) : returns (Ok a).
Proof. by exists a. Qed.

Lemma parseTiles_returns (tokens : list (list ascii)) (tiles : list Z) :
  returns (parseTiles tokens tiles) <-> Forall (fun t => returns (stoi t)) tokens.
Proof.
  revert tiles. induction tokens as [|t rest IH]; intros tiles; simpl.
  - split; [constructor|intros _; apply returns_Ok].
  - rewrite returns_bind, Forall_cons. split.
    + intros (v & Hv & Hrest). split; [by exists v|]. by apply (IH (tiles ++ [v])).
    + intros [[v Hv] Hrest]. exists v. split; [exact Hv|]. by apply IH.
Qed.

Lemma parseHexPair_returns (b : HexukiBitboard) (hexPair : list ascii) :
  returns (parseHexPair b hexPair) <-> pairNumeric hexPair.
Proof.
  unfold parseHexPair, pairNumeric.
  destruct (Nat.ltb_spec (length hexPair) 4) as [Hshort|Hlong].
  { split; [auto|intros _; apply returns_Ok]. }
  destruct (string_find ":" hexPair) as [colonPos|] eqn:Hfind.
  2:{ split; [auto|intros _; apply returns_Ok]. }
  rewrite returns_bind. split.
  - intros (h & Hh & Hrest). apply returns_bind in Hrest as (v & Hv & _).
    right. right. exists colonPos. split; [reflexivity|]. split; [by exists h|by exists v].
  - intros [Hshort|[Hnone|(c & [= <-] & [h Hh] & [v Hv])]]; [lia|discriminate|].
    exists h. split; [exact Hh|]. apply returns_bind. exists v.
    split; [exact Hv|apply returns_Ok].
Qed.

Lemma parseHexPairs_returns (b : HexukiBitboard) (pairs : list (list ascii)) :
  returns (parseHexPairs b pairs) <-> Forall pairNumeric pairs.
Proof.
  revert b. induction pairs as [|p rest IH]; intros b; simpl.
  - split; [constructor|intros _; apply returns_Ok].
  - rewrite returns_bind, Forall_cons. split.
    + intros (b' & Hp & Hrest). split.
      * apply (parseHexPair_returns b). by exists b'.
      * by apply (IH b').
    + intros [Hp Hrest]. apply (parseHexPair_returns b) in Hp as [b' Hb'].
      exists b'. split; [exact Hb'|]. by apply IH.
Qed.

Lemma parseSection_returns (b : HexukiBitboard) (section : list ascii) :
  returns (parseSection b section) <-> sectionNumeric section.
Proof.
  unfold parseSection, sectionNumeric. destruct section as [|c0 rest].
  { split; [done|intros _; apply returns_Ok]. }
  destruct (Ascii.eqb c0 "h"); [apply parseHexPairs_returns|].
  destruct (bool_decide (take 3 (c0 :: rest) = P1_PREFIX)); cbn [orb].
  { rewrite returns_bind, <- (parseTiles_returns _ []). split.
    - intros (tiles & Ht & _). by exists tiles.
    - intros [tiles Ht]. exists tiles. split; [exact Ht|apply returns_Ok]. }
  destruct (bool_decide (take 3 (c0 :: rest) = P2_PREFIX)); cbn [orb].
  { rewrite returns_bind, <- (parseTiles_returns _ []). split.
    - intros (tiles & Ht & _). by exists tiles.
    - intros [tiles Ht]. exists tiles. split; [exact Ht|apply returns_Ok]. }
  destruct (bool_decide (take 5 (c0 :: rest) = TURN_PREFIX)).
  { rewrite returns_bind. split.
    - intros (p & Hp & _). by exists p.
    - intros [p Hp]. exists p. split; [exact Hp|apply returns_Ok]. }
  split; [done|intros _; apply returns_Ok].
Qed.

Lemma parseSections_returns (b : HexukiBitboard) (sections : list (list ascii)) :
  returns (parseSections b sections) <-> Forall sectionNumeric sections.
Proof.
  revert b. induction sections as [|s rest IH]; intros b; simpl.
  - split; [constructor|intros _; apply returns_Ok].
  - rewrite returns_bind, Forall_cons. split.
    + intros (b' & Hs & Hrest). split.
      * apply (parseSection_returns b). by exists b'.
      * by apply (IH b').
    + intros [Hs Hrest]. apply (parseSection_returns b) in Hs as [b' Hb'].
      exists b'. split; [exact Hb'|]. by apply IH.
Qed.

(** [loadPosition] returns normally exactly on the inputs whose numbers
    [std::stoi] converts. *)
Lemma loadPosition_returns_iff (b : HexukiBitboard) (position : string) :
  returns (loadPosition b position) <-> positionNumeric position.
Proof.
  unfold loadPosition, positionNumeric. rewrite returns_bind.
  rewrite <- parseSections_returns. split.
  - intros (b3 & Hb3 & _). exists b3. exact Hb3.
  - intros [b3 Hb3]. exists b3. split; [exact Hb3|apply returns_Ok].
Qed.

(** C6, amended.  [loadPosition] returns normally on every input in which
    [std::stoi] converts each number the parser reads: both numbers of each
    hex pair that has at least four characters and a colon, every token of a
    bag section, and the text after [turn:].  An empty section is skipped,
    and so is a hex pair that has fewer than four characters or no colon:
    either leaves the position as it is. *)
Theorem loadPosition_returns_on_numeric (b : HexukiBitboard) (position : string) :
  (positionNumeric position -> returns (loadPosition b position))
  /\ parseSection b [] = Ok b
  /\ forall hexPair,
       ((length hexPair < 4)%nat \/ string_find ":" hexPair = None) ->
       parseHexPair b hexPair = Ok b.
Proof.
  split; [|split].
  - apply loadPosition_returns_iff.
  - reflexivity.
  - intros hexPair Hskip. unfold parseHexPair.
    destruct (Nat.ltb_spec (length hexPair) 4) as [Hshort|Hlong]; [reflexivity|].
    destruct Hskip as [Hshort|Hnone]; [lia|]. by rewrite Hnone.
Qed.

(** ** The configuration flags *)

(** [idLoop] reads the time limit of the configuration and nothing else. *)
Lemma idLoop_config (clk : nat -> Z) (fuel : nat) (c1 c2 : SearchConfig)
  (n : nat) (d : Z) (st : Driver) :
  timeLimitMs c1 = timeLimitMs c2 ->
  idLoop clk fuel c1 n d st = idLoop clk fuel c2 n d st.
Proof.
  intros Htl. revert d st. induction n as [|n IH]; intros d st; [reflexivity|].
  cbn [idLoop].
  assert (idDepth clk fuel c1 d st = idDepth clk fuel c2 d st) as ->.
  { unfold idDepth, idRootSearch. by rewrite Htl. }
  destruct (idDepth clk fuel c2 d st) as [[continue st']|]; [|reflexivity].
  cbn [mbind option_bind]. destruct continue; [apply IH|reflexivity].
Qed.

(** [findBestMove] never reads [config.useTranspositionTable]: the search
    with the flag off is the search with the flag on. *)
Lemma findBestMove_flag_tt_irrelevant
  (clk : nat -> Z) (fuel : nat) (b : HexukiBitboard)
  (md tl sz : Z) (id mo vb : bool) :
  findBestMove clk fuel b (mkConfig md tl id mo false sz vb)
  = findBestMove clk fuel b (mkConfig md tl id mo true sz vb).
Proof.
  unfold findBestMove, findBestMoveDriver.
  destruct (getValidMoves b) as [[|first [|second rest]]|]; try reflexivity.
  cbn [mbind option_bind useIterativeDeepening maxDepth].
  destruct id; [|reflexivity].
  by rewrite (idLoop_config clk fuel (mkConfig md tl true mo false sz vb)
                (mkConfig md tl true mo true sz vb)).
Qed.

(** ** Iterative deepening and the deadline *)

Lemma idReaches_le (clk : nat -> Z) (fuel : nat) (config : SearchConfig)
  (d : Z) (st : Driver) (d' : Z) (st' : Driver) :
  idReaches clk fuel config d st d' st' -> d <= d'.
Proof. induction 1; lia. Qed.

Lemma idDepth_continue (clk : nat -> Z) (fuel : nat) (config : SearchConfig)
  (d : Z) (st st1 : Driver) :
  idDepth clk fuel config d st = Some (true, st1) ->
  exists acc, depthCompleted clk fuel config d st acc
              /\ d_bestMove st1 = r_bestMove acc
              /\ d_bestScore st1 = r_bestScore acc
              /\ depth (d_result st1) = d
              /\ timeout (d_result st1) = timeout (d_result st).
Proof.
  unfold idDepth, depthCompleted.
  destruct (idRootSearch clk fuel config d st) as [[[[moves [|]] acc] s1]|];
    cbn [mbind option_bind]; [discriminate| |discriminate].
  intros [= _ <-]. exists acc. cbn. eauto 10.
Qed.

Lemma idDepth_aborted (clk : nat -> Z) (fuel : nat) (config : SearchConfig)
  (d : Z) (st : Driver) :
  depthAborted clk fuel config d st ->
  exists st', idDepth clk fuel config d st = Some (false, st')
              /\ d_bestMove st' = d_bestMove st
              /\ d_bestScore st' = d_bestScore st
              /\ timeout (d_result st') = true
              /\ depth (d_result st') = depth (d_result st).
Proof.
  intros (moves & acc & s1 & Hroot). unfold idDepth. rewrite Hroot.
  cbn [mbind option_bind]. eexists. split; [reflexivity|]. cbn. auto.
Qed.

(** The loop, entered with enough passes left, stops at the first depth the
    deadline cuts and keeps the locals of the depths completed before. *)
Lemma idLoop_aborted (clk : nat -> Z) (fuel : nat) (config : SearchConfig)
  (n : nat) (d0 : Z) (st0 : Driver) (d : Z) (st stf : Driver) :
  idReaches clk fuel config d0 st0 d st ->
  d < d0 + Z.of_nat n ->
  depthAborted clk fuel config d st ->
  idLoop clk fuel config n d0 st0 = Some stf ->
  d_bestMove stf = d_bestMove st
  /\ d_bestScore stf = d_bestScore st
  /\ timeout (d_result stf) = true
  /\ depth (d_result stf) = depth (d_result st).
Proof.
  intros Hreach. revert n. induction Hreach as [d st|d st st1 d' st' Hstep Hreach IH];
    intros n Hn Habort.
  - destruct n as [|n]; [lia|]. cbn [idLoop].
    destruct (idDepth_aborted _ _ _ _ _ Habort) as (st' & -> & Hres).
    cbn [mbind option_bind]. intros [= <-]. exact Hres.
  - pose proof (idReaches_le _ _ _ _ _ _ _ Hreach) as Hle.
    destruct n as [|n]; [lia|]. cbn [idLoop]. rewrite Hstep.
    cbn [mbind option_bind]. apply IH; [lia|exact Habort].
Qed.

(** The locals at the start of a depth are those of the start of the loop,
    or the move and score that the depth before has found. *)
Lemma idReaches_last (clk : nat -> Z) (fuel : nat) (config : SearchConfig)
  (d0 : Z) (st0 : Driver) (d : Z) (st : Driver) :
  idReaches clk fuel config d0 st0 d st ->
  (d = d0 /\ st = st0)
  \/ exists stp acc,
       idReaches clk fuel config d0 st0 (d - 1) stp
       /\ depthCompleted clk fuel config (d - 1) stp acc
       /\ d_bestMove st = r_bestMove acc
       /\ d_bestScore st = r_bestScore acc
       /\ depth (d_result st) = d - 1.
Proof.
  induction 1 as [d st|d st st1 d' st' Hstep Hreach IH]; [by left|]. right.
  destruct IH as [[-> ->]|(stp & acc & Hp & Hc & Hm & Hs & Hd)].
  - destruct (idDepth_continue _ _ _ _ _ _ Hstep) as (acc & Hc & Hm & Hs & Hd & _).
    exists st, acc. replace (d + 1 - 1) with d by lia.
    split; [constructor|]. auto.
  - exists stp, acc. split; [|auto]. econstructor; eassumption.
Qed.

Lemma finishSearch_result (clk : nat -> Z) (st : Driver) :
  bestMove (d_result (finishSearch clk st)) = d_bestMove st
  /\ score (d_result (finishSearch clk st)) = d_bestScore st
  /\ timeout (d_result (finishSearch clk st)) = timeout (d_result st)
  /\ depth (d_result (finishSearch clk st)) = depth (d_result st).
Proof. unfold finishSearch. cbn. auto. Qed.

(** The result of a cut search: when iterative deepening over a position
    with several root moves returns, and the deadline cuts depth [d] after
    the depths before it have completed, the result reports the timeout, the
    depth [d - 1], and the move and score that depth [d - 1] found, or the
    initial [moves[0]] and [-INF] when [d] is the first depth. *)
Lemma findBestMove_timeout_result (clk : nat -> Z) (fuel : nat)
  (b : HexukiBitboard) (config : SearchConfig)
  (first second : Move) (rest : list Move) (r : SearchResult) (b' : HexukiBitboard)
  (d : Z) (st : Driver) :
  useIterativeDeepening config = true ->
  getValidMoves b = Some (first :: second :: rest) ->
  findBestMove clk fuel b config = Some (r, b') ->
  1 <= d <= maxDepth config ->
  idReaches clk fuel config 1
            (driverStart b config (first :: second :: rest) first) d st ->
  depthAborted clk fuel config d st ->
  timeout r = true
  /\ depth r = d - 1
  /\ bestMove r = d_bestMove st
  /\ score r = d_bestScore st
  /\ ((d = 1 /\ bestMove r = first /\ score r = - INF)
      \/ exists stp acc,
           idReaches clk fuel config 1
                     (driverStart b config (first :: second :: rest) first)
                     (d - 1) stp
           /\ depthCompleted clk fuel config (d - 1) stp acc
           /\ bestMove r = r_bestMove acc
           /\ score r = r_bestScore acc).
Proof.
  intros Hid Hmoves Hres Hd Hreach Habort.
  unfold findBestMove, findBestMoveDriver in Hres. rewrite Hmoves, Hid in Hres.
  cbn [mbind option_bind] in Hres.
  destruct (idLoop clk fuel config (Z.to_nat (maxDepth config)) 1
              (driverStart b config (first :: second :: rest) first))
    as [stf|] eqn:Hloop; [|discriminate].
  cbn [mbind option_bind] in Hres.
  assert (r = d_result (finishSearch clk stf)) as -> by congruence.
  assert (d < 1 + Z.of_nat (Z.to_nat (maxDepth config))) as Hpasses by lia.
  destruct (idLoop_aborted _ _ _ _ _ _ _ _ _ Hreach Hpasses Habort Hloop)
    as (Hm & Hs & Ht & Hdep).
  destruct (finishSearch_result clk stf) as (-> & -> & -> & ->).
  rewrite Hm, Hs, Ht, Hdep.
  destruct (idReaches_last _ _ _ _ _ _ _ Hreach)
    as [[-> ->]|(stp & acc & Hp & Hc & Hm' & Hs' & Hd')].
  - repeat split; try reflexivity. left. repeat split; reflexivity.
  - rewrite Hd'. repeat split; try reflexivity. right. exists stp, acc. auto.
Qed.

(** ** Every search returns *)

(** *** Move ordering *)

Lemma insertByScore_perm (p : Z * nat) (l : list (Z * nat)) :
  insertByScore p l ≡ₚ p :: l.
Proof.
  induction l as [|q l IH]; simpl; [reflexivity|].
  destruct (p.1 >=? q.1); [reflexivity|]. rewrite IH. apply Permutation_swap.
Qed.

Lemma sortByScore_perm (l : list (Z * nat)) : sortByScore l ≡ₚ l.
Proof.
  induction l as [|p l IH]; simpl; [reflexivity|].
  unfold sortByScore in *. simpl. by rewrite insertByScore_perm, IH.
Qed.

Lemma mapM_fmap_total {A B : Type} (f : A -> option B) (g : A -> B) (l : list A) :
  Forall (fun x => f x = Some (g x)) l -> mapM f l = Some (g <$> l).
Proof.
  intros Hl. apply mapM_Some. induction Hl; simpl; constructor; auto.
Qed.

Lemma orderingScore_total (tt : option TTEntry) (k : KillerMoves) (h : HistoryTable)
  (ply : Z) (m : Move) :
  KillerMoves_sized k -> HistoryTable_sized h ->
  is_Some (orderingScore tt k h ply m).
Proof.
  intros Hk Hh. unfold orderingScore.
  destruct (match tt with Some e => Move_eqb m (tt_bestMove e) | None => false end);
    [eauto|].
  destruct (KillerMoves_isKiller_total k ply m Hk) as [isK ->]. simpl.
  destruct isK; [eauto|].
  destruct (HistoryTable_getScore_total h m Hh) as [v ->]. simpl. eauto.
Qed.

(** [orderMoves] returns, and what it returns is a rearrangement of the
    moves it was given. *)
Lemma orderMoves_perm (moves : list Move) (tt : option TTEntry) (k : KillerMoves)
  (h : HistoryTable) (ply : Z) :
  KillerMoves_sized k -> HistoryTable_sized h ->
  exists ordered, orderMoves moves tt k h ply = Some ordered /\ ordered ≡ₚ moves.
Proof.
  intros Hk Hh. unfold orderMoves.
  set (F := fun '(i, move) => orderingScore tt k h ply move ≫= fun s => Some (s, i)).
  destruct (mapM F (imap (fun i move => (i, move)) moves)) as [moveScores|] eqn:Hscores.
  2:{ apply mapM_None in Hscores. apply Exists_exists in Hscores as ([i m] & _ & Hnone).
      unfold F in Hnone.
      destruct (orderingScore_total tt k h ply m Hk Hh) as [v Hv].
      rewrite Hv in Hnone. discriminate. }
  cbn [mbind option_bind].
  apply mapM_Some in Hscores.
  set (g := fun p : Z * nat => default (mkMove 0 0) (moves !! p.2)).
  assert (forall i p, moveScores !! i = Some p -> moves !! p.2 = moves !! i /\ p.2 = i)
    as Hidx.
  { intros i p Hp.
    destruct (Forall2_lookup_r _ _ _ _ _ Hscores Hp) as ([j m] & Hjm & HF).
    rewrite list_lookup_imap in Hjm.
    assert (j = i) as ->.
    { destruct (moves !! i); [|discriminate]. simpl in Hjm. congruence. }
    unfold F in HF.
    destruct (orderingScore tt k h ply m); [|discriminate]. simpl in HF.
    injection HF as <-. simpl. auto. }
  assert (length moveScores = length moves) as Hlen.
  { rewrite <- (Forall2_length _ _ _ Hscores). apply length_imap. }
  assert (g <$> moveScores = moves) as Hmoves.
  { apply list_eq. intros i. rewrite list_lookup_fmap.
    destruct (moveScores !! i) as [p|] eqn:Hp; simpl.
    - destruct (Hidx i p Hp) as [Hpi Hi]. unfold g. rewrite Hpi.
      apply lookup_lt_Some in Hp. rewrite Hlen in Hp.
      destruct (lookup_lt_is_Some_2 moves i Hp) as [m ->]. reflexivity.
    - apply lookup_ge_None in Hp. symmetry. apply lookup_ge_None. lia. }
  exists (g <$> sortByScore moveScores). split.
  - apply mapM_fmap_total. apply Forall_forall. intros p Hp.
    rewrite sortByScore_perm in Hp.
    apply list_elem_of_lookup in Hp as [i Hp].
    destruct (Hidx i p Hp) as [Hpi Hi]. unfold g. rewrite Hpi.
    apply lookup_lt_Some in Hp. rewrite Hlen in Hp.
    destruct (lookup_lt_is_Some_2 moves i Hp) as [m ->]. reflexivity.
  - rewrite sortByScore_perm. by rewrite Hmoves.
Qed.

(** *** The heuristic tables keep their sizes *)

Lemma KillerMoves_update_sized (k k' : KillerMoves) (ply : Z) (m : Move) :
  KillerMoves_sized k -> KillerMoves_update k ply m = Some k' ->
  KillerMoves_sized k'.
Proof.
  intros [H1 H2]. unfold KillerMoves_update.
  destruct ((ply <? 0) || (ply >=? KILLER_MAX_DEPTH)); [by intros [= <-]|].
  destruct (arr_get (killer1 k) ply) as [k1|]; [|discriminate]. simpl.
  destruct (negb (Move_eqb m k1)); [|by intros [= <-]].
  unfold arr_set.
  destruct ((0 <=? ply) && (ply <? Z.of_nat (length (killer2 k)))); [|discriminate].
  simpl.
  destruct ((0 <=? ply) && (ply <? Z.of_nat (length (killer1 k)))); [|discriminate].
  simpl. intros [= <-]. split; simpl; by rewrite length_insert.
Qed.

Lemma HistoryTable_update_sized (t t' : HistoryTable) (m : Move) (d : Z) :
  HistoryTable_sized t -> HistoryTable_update t m d = Some t' ->
  HistoryTable_sized t'.
Proof.
  intros Hs. unfold HistoryTable_update.
  destruct (HistoryTable_inRange m) eqn:Hr; [|by intros [= <-]].
  destruct (HistoryTable_row t m Hs Hr) as (r & -> & Hlen).
  apply HistoryTable_inRange_spec in Hr as [Hh Ht]. destruct Hs as [H1 H2].
  cbn [mbind option_bind].
  destruct (arr_get r (tileValue m)) as [old|]; [|discriminate].
  cbn [mbind option_bind].
  rewrite (arr_set_is_Some r) by lia. cbn [mbind option_bind].
  rewrite (arr_set_is_Some (scores t)) by lia. cbn [mbind option_bind].
  intros [= <-]. split; simpl.
  - by rewrite length_insert.
  - apply Forall_insert; [exact H2|]. by rewrite length_insert.
Qed.

(** *** Occupancy along a line of play *)

Lemma hexOccupied_makeMove (b : HexukiBitboard) (m : Move) :
  hexOccupied (makeMove b m)
  = wrap_u32 (Z.lor (hexOccupied b) (wrap_u32 (Z.shiftl 1 (hexId m)))).
Proof.
  unfold makeMove, updateZobristHash, set_moverTiles.
  cbn [currentPlayer set_hexValues set_hexOccupied].
  by destruct (currentPlayer b =? PLAYER_1).
Qed.

Lemma hexOccupied_unmakeMove (b : HexukiBitboard) (m : Move) :
  hexOccupied (unmakeMove b m)
  = wrap_u32 (Z.land (hexOccupied b)
                     (wrap_u32 (Z.lnot (wrap_u32 (Z.shiftl 1 (hexId m)))))).
Proof.
  unfold unmakeMove, updateZobristHash, set_moverTiles.
  cbn [currentPlayer set_currentPlayer set_zobristHash].
  by destruct (otherPlayer (currentPlayer b) =? PLAYER_1).
Qed.

Lemma wrap_u32_range (z : Z) : 0 <= wrap_u32 z < 2 ^ 32.
Proof. unfold wrap_u32. apply Z.mod_pos_bound. lia. Qed.

Lemma emptyCount_makeMove (b : HexukiBitboard) (m : Move) :
  0 <= hexOccupied b < 2 ^ 32 -> ontoEmptyHex (hexOccupied b) m ->
  (emptyCount (makeMove b m) < emptyCount b)%nat.
Proof.
  intros Hocc [Hh Hempty]. unfold emptyCount.
  assert (forall x, isHexOccupied (makeMove b m) x
                    = (x =? hexId m) || isHexOccupied b x) as Hbits.
  { intros x. unfold isHexOccupied. rewrite hexOccupied_makeMove.
    apply placed_testbit; [exact Hocc|unfold NUM_HEXES in Hh; lia]. }
  rewrite <- (list_filter_filter_l (fun h => isHexOccupied (makeMove b m) h = false)
                (fun h => isHexOccupied b h = false)).
  - apply (length_filter_lt _ _ (hexId m)).
    + apply list_elem_of_filter. split; [exact Hempty|]. apply elem_of_seqZ. lia.
    + rewrite Hbits, Z.eqb_refl. discriminate.
  - intros x. rewrite Hbits. intros Hx. apply orb_false_iff in Hx. tauto.
Qed.

Lemma emptyCount_bound (b : HexukiBitboard) : (emptyCount b <= 19)%nat.
Proof.
  unfold emptyCount. etransitivity; [apply length_filter|].
  rewrite length_seqZ. reflexivity.
Qed.

(** *** The recursion *)

Lemma emptyCount_ext (b1 b2 : HexukiBitboard) :
  hexOccupied b1 = hexOccupied b2 -> emptyCount b1 = emptyCount b2.
Proof. intros Heq. unfold emptyCount, isHexOccupied. by rewrite Heq. Qed.

Lemma pollDeadline_frame (clk : nat -> Z) (limit : Z) (s : Search) :
  s_board (pollDeadline clk limit s).2 = s_board s
  /\ s_killers (pollDeadline clk limit s).2 = s_killers s
  /\ s_history (pollDeadline clk limit s).2 = s_history s.
Proof.
  unfold pollDeadline, readClock.
  by destruct (Z.rem (s_nodes s) TIMEOUT_CHECK_INTERVAL =? 0).
Qed.

(** A move made, the position searched by a call that restores the mask,
    the move unmade: the mask is the one before the move. *)
Lemma make_search_unmake (s s2 : Search) (m : Move) :
  SearchInv s -> ontoEmptyHex (hexOccupied (s_board s)) m ->
  SearchInv s2 ->
  hexOccupied (s_board s2) = hexOccupied (makeMove (s_board s) m) ->
  SearchInv (with_board s2 (unmakeMove (s_board s2) m))
  /\ hexOccupied (unmakeMove (s_board s2) m) = hexOccupied (s_board s).
Proof.
  intros (Hocc & _) [Hh Hempty] (_ & Hk & Hh2) Heq.
  assert (hexOccupied (unmakeMove (s_board s2) m) = hexOccupied (s_board s)) as Hback.
  { rewrite hexOccupied_unmakeMove, Heq, hexOccupied_makeMove.
    apply occupancy_restored; [exact Hocc|unfold NUM_HEXES in Hh; lia|exact Hempty]. }
  split; [|exact Hback].
  split; [|split; assumption]. cbn [s_board with_board]. by rewrite Hback.
Qed.

Lemma SearchInv_makeMove (s : Search) (m : Move) :
  SearchInv s -> SearchInv (with_board s (makeMove (s_board s) m)).
Proof.
  intros (_ & Hk & Hh). split; [|split; assumption].
  cbn [s_board with_board]. rewrite hexOccupied_makeMove. apply wrap_u32_range.
Qed.

Lemma searchMoves_total
  (rec : Z -> Z -> Z -> Z -> Search -> option (Z * Search)) (n : nat)
  (d beta ply : Z) :
  (forall d' a b' p s, SearchInv s -> (emptyCount (s_board s) < n)%nat ->
                       returnsInv (rec d' a b' p s) s) ->
  forall moves acc s,
    SearchInv s -> (emptyCount (s_board s) <= n)%nat ->
    Forall (ontoEmptyHex (hexOccupied (s_board s))) moves ->
    returnsInv (searchMoves rec d beta ply moves acc s) s.
Proof.
  intros Hrec moves. induction moves as [|m rest IH]; intros acc s Hinv Hcount Hmoves.
  - exists acc, s. auto.
  - apply Forall_cons in Hmoves as [Hm Hrest]. cbn [searchMoves].
    pose proof (SearchInv_makeMove s m Hinv) as Hinv1.
    destruct (Hrec (int_sub d 1) (int_neg beta) (int_neg (n_alpha acc)) (int_add ply 1)
                   (with_board s (makeMove (s_board s) m)) Hinv1)
      as (r & s2 & Hcall & Hinv2 & Hocc2).
    { cbn [s_board with_board].
      pose proof (emptyCount_makeMove (s_board s) m (proj1 Hinv) Hm). lia. }
    rewrite Hcall. cbn [mbind option_bind].
    destruct (make_search_unmake s s2 m Hinv Hm Hinv2 Hocc2) as [Hinv3 Hocc3].
    set (s3 := with_board s2 (unmakeMove (s_board s2) m)) in *.
    set (acc1 := if int_neg r >? n_bestScore acc then _ else acc).
    destruct (n_alpha acc1 >=? beta).
    + destruct Hinv3 as (Ho3 & Hk3 & Hh3).
      destruct (KillerMoves_update_total (s_killers s3) ply (n_bestMove acc1) Hk3)
        as [k' Hk'].
      destruct (HistoryTable_update_total (s_history s3) (n_bestMove acc1) d Hh3)
        as [h' Hh'].
      rewrite Hk'. cbn [mbind option_bind]. rewrite Hh'. cbn [mbind option_bind].
      eexists. eexists. split; [reflexivity|]. split.
      * split; [exact Ho3|]. split.
        -- eapply KillerMoves_update_sized; eassumption.
        -- eapply HistoryTable_update_sized; eassumption.
      * exact Hocc3.
    + destruct (IH acc1 s3 Hinv3) as (a & s' & Hr & Hinv' & Hocc').
      * rewrite (emptyCount_ext (s_board s3) (s_board s)); [exact Hcount|exact Hocc3].
      * change (hexOccupied (s_board s3)) with (hexOccupied (unmakeMove (s_board s2) m)).
        by rewrite Hocc3.
      * exists a, s'. split; [exact Hr|]. split; [exact Hinv'|].
        rewrite Hocc'. exact Hocc3.
Qed.

Lemma getValidMoves_onto_empty (b : HexukiBitboard) (moves : list Move) :
  getValidMoves b = Some moves -> Forall (ontoEmptyHex (hexOccupied b)) moves.
Proof.
  intros Hmoves. apply Forall_forall. intros m Hm.
  destruct (getValidMoves_sound b moves m Hmoves Hm) as [(Hh & Hempty & _) _].
  split; assumption.
Qed.

(** [alphaBeta] returns whenever its budget exceeds the number of empty
    hexes, whatever the remaining depth. *)
Lemma alphaBeta_total (clk : nat -> Z) (fuel : nat) :
  walks_end ->
  forall limit d alpha beta ply s,
    SearchInv s -> (emptyCount (s_board s) < fuel)%nat ->
    returnsInv (alphaBeta clk fuel limit d alpha beta ply s) s.
Proof.
  intros Hw. induction fuel as [|fuel IH]; intros limit d alpha beta ply s Hinv Hcount;
    [lia|].
  cbn [alphaBeta].
  set (s1 := with_nodes s (int_add (s_nodes s) 1)).
  destruct (pollDeadline_frame clk limit s1) as (Hb2 & Hk2 & Hh2).
  destruct (pollDeadline clk limit s1) as [timedOut s2]. cbn [snd] in Hb2, Hk2, Hh2.
  assert (SearchInv s2 /\ hexOccupied (s_board s2) = hexOccupied (s_board s))
    as [Hinv2 Hocc2].
  { unfold SearchInv. rewrite Hb2, Hk2, Hh2. split; [exact Hinv|reflexivity]. }
  destruct timedOut; [by exists 0, s2|].
  destruct ((d =? 0) || isGameOver (s_board s2)); [by eexists; exists s2|].
  destruct (TT_probe (s_tt s2) (zobristHash (s_board s2))) as [found tt'].
  set (s3 := with_tt s2 tt').
  assert (SearchInv s3 /\ hexOccupied (s_board s3) = hexOccupied (s_board s))
    as [Hinv3 Hocc3] by (split; assumption).
  destruct (ttLookup found d alpha beta) as [v|[[alpha1 beta1] ttValid]];
    [by exists v, s3|].
  destruct (getValidMoves (s_board s3)) as [moves|] eqn:Hmoves.
  2:{ rewrite (getValidMoves_eq _ Hw) in Hmoves. discriminate. }
  cbn [mbind option_bind].
  destruct moves as [|m0 moves']; [by eexists; exists s3|].
  destruct (orderMoves_perm (m0 :: moves') (if ttValid then found else None)
              (s_killers s3) (s_history s3) ply)
    as (ordered & Hord & Hperm); [apply Hinv3..|].
  rewrite Hord. cbn [mbind option_bind].
  destruct ordered as [|first ordered'].
  { by apply Permutation_nil_cons in Hperm. }
  cbn [head mbind option_bind].
  destruct (searchMoves_total (alphaBeta clk fuel limit) fuel d beta1 ply
              (fun d' a b' p s' => IH limit d' a b' p s')
              (first :: ordered') (mkNodeAcc (- INF) first alpha1 UPPER_BOUND) s3 Hinv3)
    as (acc & s4 & Hloop & Hinv4 & Hocc4).
  { rewrite (emptyCount_ext (s_board s3) (s_board s)); [lia|exact Hocc3]. }
  { rewrite Hperm. by apply getValidMoves_onto_empty. }
  rewrite Hloop. cbn [mbind option_bind].
  eexists. eexists. split; [reflexivity|]. split; [exact Hinv4|].
  cbn [s_board with_tt]. by rewrite Hocc4.
Qed.

(** *** The driver *)

Lemma searchRootID_total (clk : nat -> Z) (fuel : nat) (limit d : Z) :
  walks_end ->
  forall moves acc s,
    SearchInv s -> (emptyCount (s_board s) <= fuel)%nat ->
    Forall (ontoEmptyHex (hexOccupied (s_board s))) moves ->
    returnsInv (searchRootID clk fuel limit d moves acc s) s.
Proof.
  intros Hw moves. induction moves as [|m rest IH]; intros acc s Hinv Hcount Hmoves.
  - exists (false, acc), s. auto.
  - apply Forall_cons in Hmoves as [Hm Hrest]. cbn [searchRootID].
    pose proof (SearchInv_makeMove s m Hinv) as Hinv1.
    destruct (alphaBeta_total clk fuel Hw limit (int_sub d 1) (int_neg INF)
                (int_neg (r_alpha acc)) 1 (with_board s (makeMove (s_board s) m)) Hinv1)
      as (r & s2 & Hcall & Hinv2 & Hocc2).
    { cbn [s_board with_board].
      pose proof (emptyCount_makeMove (s_board s) m (proj1 Hinv) Hm). lia. }
    rewrite Hcall. cbn [mbind option_bind].
    destruct (make_search_unmake s s2 m Hinv Hm Hinv2 Hocc2) as [Hinv3 Hocc3].
    set (s3 := with_board s2 (unmakeMove (s_board s2) m)) in *.
    unfold readClock.
    set (s4 := with_ticks s3 (S (s_ticks s3))).
    assert (SearchInv s4) as Hinv4 by exact Hinv3.
    destruct (clk (s_ticks s3) >=? limit).
    + eexists. exists s4. split; [reflexivity|]. split; [exact Hinv4|exact Hocc3].
    + set (acc1 := if int_neg r >? r_bestScore acc then _ else acc).
      destruct (IH acc1 s4 Hinv4) as (a & s' & Hr & Hinv' & Hocc').
      * rewrite (emptyCount_ext (s_board s4) (s_board s)); [exact Hcount|exact Hocc3].
      * change (hexOccupied (s_board s4)) with (hexOccupied (unmakeMove (s_board s2) m)).
        by rewrite Hocc3.
      * exists a, s'. split; [exact Hr|]. split; [exact Hinv'|].
        rewrite Hocc'. exact Hocc3.
Qed.

Lemma searchRootSingle_total (clk : nat -> Z) (fuel : nat) (limit d : Z) :
  walks_end ->
  forall moves acc s,
    SearchInv s -> (emptyCount (s_board s) <= fuel)%nat ->
    Forall (ontoEmptyHex (hexOccupied (s_board s))) moves ->
    returnsInv (searchRootSingle clk fuel limit d moves acc s) s.
Proof.
  intros Hw moves. induction moves as [|m rest IH]; intros acc s Hinv Hcount Hmoves.
  - exists acc, s. auto.
  - apply Forall_cons in Hmoves as [Hm Hrest]. cbn [searchRootSingle].
    pose proof (SearchInv_makeMove s m Hinv) as Hinv1.
    destruct (alphaBeta_total clk fuel Hw limit (int_sub d 1) (int_neg INF)
                (int_neg (r_alpha acc)) 1 (with_board s (makeMove (s_board s) m)) Hinv1)
      as (r & s2 & Hcall & Hinv2 & Hocc2).
    { cbn [s_board with_board].
      pose proof (emptyCount_makeMove (s_board s) m (proj1 Hinv) Hm). lia. }
    rewrite Hcall. cbn [mbind option_bind].
    destruct (make_search_unmake s s2 m Hinv Hm Hinv2 Hocc2) as [Hinv3 Hocc3].
    set (s3 := with_board s2 (unmakeMove (s_board s2) m)) in *.
    set (acc1 := if int_neg r >? r_bestScore acc then _ else acc).
    destruct (IH acc1 s3 Hinv3) as (a & s' & Hr & Hinv' & Hocc').
    + rewrite (emptyCount_ext (s_board s3) (s_board s)); [exact Hcount|exact Hocc3].
    + change (hexOccupied (s_board s3)) with (hexOccupied (unmakeMove (s_board s2) m)).
      by rewrite Hocc3.
    + exists a, s'. split; [exact Hr|]. split; [exact Hinv'|].
      rewrite Hocc'. exact Hocc3.
Qed.

Lemma idRootSearch_total (clk : nat -> Z) (fuel : nat) (config : SearchConfig)
  (occ : Z) (d : Z) (st : Driver) :
  walks_end -> (19 <= fuel)%nat -> DriverInv occ st ->
  exists moves timedOut acc s1,
    idRootSearch clk fuel config d st = Some (moves, timedOut, acc, s1)
    /\ SearchInv s1 /\ hexOccupied (s_board s1) = occ
    /\ Forall (ontoEmptyHex occ) moves.
Proof.
  intros Hw Hfuel (Hinv & Hocc & Hmoves). unfold idRootSearch.
  set (s0 := with_nodes (d_search st) 0).
  assert (SearchInv s0) as Hinv0 by exact Hinv.
  assert (exists moves,
            (if d >? 1
             then orderMoves (d_moves st) None (s_killers s0) (s_history s0) 0
             else Some (d_moves st)) = Some moves
            /\ Forall (ontoEmptyHex occ) moves) as (moves & -> & Hmoves').
  { destruct (d >? 1); [|eauto].
    destruct (orderMoves_perm (d_moves st) None (s_killers s0) (s_history s0) 0)
      as (ordered & -> & Hperm); [apply Hinv0..|].
    exists ordered. split; [reflexivity|]. by rewrite Hperm. }
  cbn [mbind option_bind].
  destruct (searchRootID_total clk fuel (timeLimitMs config) d Hw moves
              (mkRootAcc Move_default (- INF) (- INF)) s0 Hinv0)
    as ([timedOut acc] & s1 & -> & Hinv1 & Hocc1).
  { pose proof (emptyCount_bound (s_board s0)). lia. }
  { change (s_board s0) with (s_board (d_search st)). by rewrite Hocc. }
  cbn [mbind option_bind]. exists moves, timedOut, acc, s1.
  split; [reflexivity|]. split; [exact Hinv1|]. split; [|exact Hmoves'].
  rewrite Hocc1. exact Hocc.
Qed.

Lemma idDepth_total (clk : nat -> Z) (fuel : nat) (config : SearchConfig)
  (occ : Z) (d : Z) (st : Driver) :
  walks_end -> (19 <= fuel)%nat -> DriverInv occ st ->
  exists continue st',
    idDepth clk fuel config d st = Some (continue, st') /\ DriverInv occ st'.
Proof.
  intros Hw Hfuel Hst.
  destruct (idRootSearch_total clk fuel config occ d st Hw Hfuel Hst)
    as (moves & timedOut & acc & s1 & Hroot & Hinv1 & Hocc1 & Hmoves).
  unfold idDepth. rewrite Hroot. cbn [mbind option_bind].
  destruct timedOut; eexists; eexists; (split; [reflexivity|]);
    (split; [exact Hinv1|]); (split; [exact Hocc1|exact Hmoves]).
Qed.

Lemma idLoop_total (clk : nat -> Z) (fuel : nat) (config : SearchConfig)
  (occ : Z) (n : nat) :
  walks_end -> (19 <= fuel)%nat ->
  forall d st, DriverInv occ st ->
  exists st', idLoop clk fuel config n d st = Some st' /\ DriverInv occ st'.
Proof.
  intros Hw Hfuel. induction n as [|n IH]; intros d st Hst; [by exists st|].
  cbn [idLoop].
  destruct (idDepth_total clk fuel config occ d st Hw Hfuel Hst)
    as (continue & st1 & -> & Hst1).
  cbn [mbind option_bind]. destruct continue; [by apply IH|by exists st1].
Qed.

Lemma searchStart_inv (b : HexukiBitboard) (config : SearchConfig) :
  0 <= hexOccupied b < 2 ^ 32 -> SearchInv (searchStart b config).
Proof.
  intros Hocc. split; [exact Hocc|]. split.
  - split; reflexivity.
  - split; [reflexivity|]. apply Forall_replicate. reflexivity.
Qed.

(** [findBestMove] returns: a budget of 19 recursive calls, one per hex that
    can still be filled, is enough for any position, configuration and
    clock. *)
Lemma findBestMove_total (clk : nat -> Z) (fuel : nat) (b : HexukiBitboard)
  (config : SearchConfig) :
  walks_end -> 0 <= hexOccupied b < 2 ^ 32 -> (19 <= fuel)%nat ->
  is_Some (findBestMove clk fuel b config).
Proof.
  intros Hw Hocc Hfuel. unfold findBestMove.
  assert (is_Some (findBestMoveDriver clk fuel b config)) as [st ->]; [|by eexists].
  unfold findBestMoveDriver.
  pose proof (searchStart_inv b config Hocc) as Hinv0.
  destruct (getValidMoves b) as [moves|] eqn:Hmoves.
  2:{ rewrite (getValidMoves_eq _ Hw) in Hmoves. discriminate. }
  pose proof (getValidMoves_onto_empty b moves Hmoves) as Honto.
  cbn [mbind option_bind].
  destruct moves as [|first [|second rest]]; [by eexists| |].
  - apply Forall_cons in Honto as [Hm _].
    pose proof (SearchInv_makeMove (searchStart b config) first Hinv0) as Hinv1.
    destruct (alphaBeta_total clk fuel Hw (timeLimitMs config)
                (int_sub (maxDepth config) 1) (- INF) INF 0
                (with_board (searchStart b config) (makeMove b first)) Hinv1)
      as (r & s2 & -> & _).
    { cbn [s_board with_board].
      pose proof (emptyCount_makeMove b first Hocc Hm).
      pose proof (emptyCount_bound b). lia. }
    cbn [mbind option_bind]. by eexists.
  - assert (DriverInv (hexOccupied b)
              (driverStart b config (first :: second :: rest) first)) as Hst0.
    { split; [exact Hinv0|]. split; [reflexivity|exact Honto]. }
    destruct (useIterativeDeepening config).
    + destruct (idLoop_total clk fuel config (hexOccupied b)
                  (Z.to_nat (maxDepth config)) Hw Hfuel 1 _ Hst0) as (st & -> & _).
      cbn [mbind option_bind]. by eexists.
    + assert (exists ordered,
                (if useMoveOrdering config
                 then orderMoves (first :: second :: rest) None
                        (s_killers (searchStart b config))
                        (s_history (searchStart b config)) 0
                 else Some (first :: second :: rest)) = Some ordered
                /\ Forall (ontoEmptyHex (hexOccupied b)) ordered)
        as (ordered & -> & Hordered).
      { destruct (useMoveOrdering config); [|eauto].
        destruct (orderMoves_perm (first :: second :: rest) None
                    (s_killers (searchStart b config))
                    (s_history (searchStart b config)) 0)
          as (ordered & -> & Hperm); [apply Hinv0..|].
        exists ordered. split; [reflexivity|]. by rewrite Hperm. }
      cbn [mbind option_bind].
      destruct (searchRootSingle_total clk fuel (timeLimitMs config) (maxDepth config)
                  Hw ordered (mkRootAcc first (- INF) (- INF)) (searchStart b config)
                  Hinv0) as (acc & s1 & -> & _).
      { pose proof (emptyCount_bound b). cbn [s_board searchStart]. lia. }
      { exact Hordered. }
      cbn [mbind option_bind]. by eexists.
Qed.

(** A depth that runs to its end under a clock that never goes back has seen
    no reading at or past the time limit: no call of [alphaBeta] below it was
    cut by the deadline. *)
Lemma completed_depth_before_deadline (clk : nat -> Z) (fuel : nat) (limit d : Z)
  (moves : list Move) (acc acc' : RootAcc) (s s' : Search) :
  (forall i j, (i <= j)%nat -> clk i <= clk j) ->
  moves <> [] ->
  searchRootID clk fuel limit d moves acc s = Some (false, acc', s') ->
  forall k, (k < s_ticks s')%nat -> clk k < limit.
Proof.
  intros Hmono. revert acc s.
  assert (forall moves acc s,
            (forall k, (k < s_ticks s)%nat -> clk k < limit) ->
            searchRootID clk fuel limit d moves acc s = Some (false, acc', s') ->
            forall k, (k < s_ticks s')%nat -> clk k < limit) as Hgen.
  { clear moves. intros moves. induction moves as [|m rest IH]; intros acc s Hbefore.
    - cbn [searchRootID]. intros [= _ <-]. exact Hbefore.
    - cbn [searchRootID].
      destruct (alphaBeta clk fuel limit (int_sub d 1) (int_neg INF)
                  (int_neg (r_alpha acc)) 1 (with_board s (makeMove (s_board s) m)))
        as [[r s2]|]; [|discriminate].
      cbn [mbind option_bind]. unfold readClock.
      set (s3 := with_board s2 (unmakeMove (s_board s2) m)).
      destruct (Z.geb_spec (clk (s_ticks s3)) limit) as [|Hlt]; [discriminate|].
      apply IH. intros k Hk. cbn [s_ticks with_ticks] in Hk.
      specialize (Hmono k (s_ticks s3)). lia. }
  intros acc s Hne. destruct moves as [|m rest]; [done|].
  cbn [searchRootID].
  destruct (alphaBeta clk fuel limit (int_sub d 1) (int_neg INF)
              (int_neg (r_alpha acc)) 1 (with_board s (makeMove (s_board s) m)))
    as [[r s2]|]; [|discriminate].
  cbn [mbind option_bind]. unfold readClock.
  set (s3 := with_board s2 (unmakeMove (s_board s2) m)).
  destruct (Z.geb_spec (clk (s_ticks s3)) limit) as [|Hlt]; [discriminate|].
  apply Hgen. intros k Hk. cbn [s_ticks with_ticks] in Hk.
  specialize (Hmono k (s_ticks s3)). lia.
Qed.

(** C2.  Iterative deepening over a position with several root moves always
    returns (a budget of 19 recursive calls suffices).  When the deadline
    cuts depth [d], after the depths before it have completed, the result
    has [timeout = true] and reports depth [d - 1] with the move and score
    committed by that last completed depth; if the first depth is cut, it
    reports the initial [moves[0]] and [-INF].  Nothing computed in the
    depth that was cut reaches the result. *)
Theorem findBestMove_timeout_keeps_completed_depth (clk : nat -> Z) (fuel : nat)
  (b : HexukiBitboard) (config : SearchConfig)
  (first second : Move) (rest : list Move) :
  walks_end -> 0 <= hexOccupied b < 2 ^ 32 -> (19 <= fuel)%nat ->
  useIterativeDeepening config = true ->
  getValidMoves b = Some (first :: second :: rest) ->
  exists r b',
    findBestMove clk fuel b config = Some (r, b')
    /\ forall d st,
         1 <= d <= maxDepth config ->
         idReaches clk fuel config 1
                   (driverStart b config (first :: second :: rest) first) d st ->
         depthAborted clk fuel config d st ->
         timeout r = true
         /\ depth r = d - 1
         /\ ((d = 1 /\ bestMove r = first /\ score r = - INF)
             \/ exists stp acc,
                  idReaches clk fuel config 1
                            (driverStart b config (first :: second :: rest) first)
                            (d - 1) stp
                  /\ depthCompleted clk fuel config (d - 1) stp acc
                  /\ bestMove r = r_bestMove acc
                  /\ score r = r_bestScore acc).
Proof.
  intros Hw Hocc Hfuel Hid Hmoves.
  destruct (findBestMove_total clk fuel b config Hw Hocc Hfuel) as [[r b'] Hres].
  exists r, b'. split; [exact Hres|]. intros d st Hd Hreach Habort.
  destruct (findBestMove_timeout_result clk fuel b config first second rest r b' d st
              Hid Hmoves Hres Hd Hreach Habort) as (Ht & Hdep & _ & _ & Hlast).
  auto.
Qed.

(** The single-depth search honours [useMoveOrdering]: with the flag off
    the root moves stay in the order of [getValidMoves]. *)
Lemma single_depth_keeps_root_order (clk : nat -> Z) (fuel : nat)
  (b : HexukiBitboard) (config : SearchConfig) (moves : list Move) (st : Driver) :
  useIterativeDeepening config = false -> useMoveOrdering config = false ->
  getValidMoves b = Some moves ->
  findBestMoveDriver clk fuel b config = Some st ->
  d_moves st = moves.
Proof.
  intros Hid Hmo Hmoves. unfold findBestMoveDriver. rewrite Hmoves, Hid, Hmo.
  cbn [mbind option_bind].
  destruct moves as [|first [|second rest]].
  - by intros [= <-].
  - destruct (alphaBeta _ _ _ _ _ _ _ _) as [[r s2]|]; [|discriminate].
    cbn [mbind option_bind]. by intros [= <-].
  - destruct (searchRootSingle _ _ _ _ _ _ _) as [[acc s1]|]; [|discriminate].
    cbn [mbind option_bind]. by intros [= <-].
Qed.

(** The invariant of positions holds when a game starts and along its
    moves. *)
Lemma Position_wf_new : Position_wf HexukiBitboard_new.
Proof.
  split; [vm_compute; split; [discriminate|reflexivity]|].
  split; [by left|]. intros h Hh Hempty.
  unfold getTileValue, isHexOccupied in *. cbn in *.
  destruct (Z.eq_dec h 9) as [->|Hne]; [discriminate|].
  unfold NUM_HEXES in Hh.
  assert (h = 0 \/ h = 1 \/ h = 2 \/ h = 3 \/ h = 4 \/ h = 5 \/ h = 6 \/ h = 7
          \/ h = 8 \/ h = 10 \/ h = 11 \/ h = 12 \/ h = 13 \/ h = 14
          \/ h = 15 \/ h = 16 \/ h = 17 \/ h = 18) as Hcases by lia.
  repeat (destruct Hcases as [-> | Hcases]); try subst h; reflexivity.
Qed.

Lemma Position_wf_makeMove (b : HexukiBitboard) (m : Move) :
  Position_wf b -> ontoEmptyHex (hexOccupied b) m ->
  Position_wf (makeMove b m).
Proof.
  intros (Hocc & Hcp & Hzero) [Hh Hempty]. split; [|split].
  - rewrite hexOccupied_makeMove. apply wrap_u32_range.
  - destruct b as [occ vals p1 p2 cp sy ti zh]. cbn [currentPlayer] in Hcp.
    destruct Hcp as [-> | ->]; [by right|by left].
  - intros h' Hh' Hempty'. unfold isHexOccupied in Hempty'.
    rewrite hexOccupied_makeMove, placed_testbit in Hempty'
      by (unfold NUM_HEXES in Hh; lia).
    apply orb_false_iff in Hempty' as [Hne Hclear]. apply Z.eqb_neq in Hne.
    specialize (Hzero h' Hh' Hclear).
    assert (hexValues (makeMove b m)
            = <[Z.to_nat (hexId m) := wrap_u8 (tileValue m)]> (hexValues b)) as Hvals.
    { unfold makeMove, updateZobristHash, set_moverTiles.
      cbn [currentPlayer set_hexValues set_hexOccupied].
      by destruct (currentPlayer b =? PLAYER_1). }
    unfold getTileValue in *. rewrite Hvals.
    rewrite list_lookup_total_insert_ne; [exact Hzero|]. lia.
Qed.

(** ** The search at depth 0 *)








End Properties.

(** * The properties on concrete positions *)

Lemma ref_walks_end : walks_end (T := refTables).
Proof.
  intros i Hi.
  assert (i = 0 \/ i = 1 \/ i = 2 \/ i = 3 \/ i = 4 \/ i = 5 \/ i = 6 \/ i = 7
          \/ i = 8 \/ i = 9 \/ i = 10 \/ i = 11 \/ i = 12 \/ i = 13 \/ i = 14)
    as Hcases by lia.
  repeat (destruct Hcases as [-> | Hcases]); try subst i; vm_compute; eauto.
Qed.

Lemma ref_isValid_accepts : isValid_accepts_game_moves (T := refTables).
Proof.
  intros h v Hh Hv. simpl. unfold ref_Move_isValid, NUM_HEXES, MAX_TILE_VALUE in *.
  simpl. rewrite !andb_true_iff, !Z.leb_le, !Z.ltb_lt. lia.
Qed.

(** The first move of the initial position, made and unmade. *)
Lemma makeMove_unmakeMove_restores_witness :
  let b := HexukiBitboard_new (T := refTables) in
  let m := mkMove 4 1 in
  hexOccupied (unmakeMove (T := refTables) (makeMove (T := refTables) b m) m)
  = hexOccupied b
  /\ hexValues (unmakeMove (T := refTables) (makeMove (T := refTables) b m) m)
     = hexValues b
  /\ currentPlayer (unmakeMove (T := refTables) (makeMove (T := refTables) b m) m)
     = currentPlayer b
  /\ zobristHash (unmakeMove (T := refTables) (makeMove (T := refTables) b m) m)
     = zobristHash b
  /\ p1AvailableTiles (unmakeMove (T := refTables) (makeMove (T := refTables) b m) m)
     ≡ₚ p1AvailableTiles b
  /\ p2AvailableTiles (unmakeMove (T := refTables) (makeMove (T := refTables) b m) m)
     ≡ₚ p2AvailableTiles b.
Proof.
  intros b m.
  destruct (getValidMoves (T := refTables) b) as [moves|] eqn:Hmoves;
    [|vm_compute in Hmoves; discriminate].
  apply (makeMove_unmakeMove_restores (T := refTables) b moves m (Position_wf_new (T := refTables)) Hmoves).
  vm_compute in Hmoves. injection Hmoves as <-. left.
Defined.

(** The chain rule on hex 4 of the initial position. *)
Lemma checkChainLengthConstraint_spec_witness :
  exists ok,
    checkChainLengthConstraint (T := refTables) (HexukiBitboard_new (T := refTables)) 4
    = Some (ok, HexukiBitboard_new (T := refTables))
    /\ (ok = true <->
        spec_chainLegal (T := refTables) (HexukiBitboard_new (T := refTables)) 4).
Proof.
  apply (checkChainLengthConstraint_spec (T := refTables)
           (HexukiBitboard_new (T := refTables)) 4 ref_walks_end).
  - vm_compute. split; [discriminate|reflexivity].
  - unfold NUM_HEXES. lia.
Defined.

(** The moves of the initial position. *)
Lemma getValidMoves_exactly_legal_pairs_witness :
  exists moves,
    getValidMoves (T := refTables) (HexukiBitboard_new (T := refTables)) = Some moves
    /\ NoDup moves
    /\ forall h v,
         mkMove h v ∈ moves <->
         legalHex (T := refTables) (HexukiBitboard_new (T := refTables)) h
         /\ v ∈ moverTiles (HexukiBitboard_new (T := refTables)).
Proof.
  exact (getValidMoves_exactly_legal_pairs (T := refTables)
           (HexukiBitboard_new (T := refTables)) ref_walks_end).
Defined.

(** C9, counterexample.  A bag that holds the value 10, as [loadPosition]
    and [setAvailableTiles] accept it: [getValidMoves] offers the move
    (4, 10), and [isValidMove] refuses it. *)
Lemma getValidMoves_not_closed_counterexample :
  exists b moves,
    ref_load "h9:1|p1:10|p2:1|turn:1" = Ok b
    /\ getValidMoves (T := refTables) b = Some moves
    /\ mkMove 4 10 ∈ moves
    /\ isValidMove (T := refTables) b (mkMove 4 10) = Some false.
Proof.
  eexists. eexists. split; [vm_compute; reflexivity|].
  split; [vm_compute; reflexivity|]. split; [left|vm_compute; reflexivity].
Qed.

(** The moves of the initial position, whose bag is 1 to 9. *)
Lemma getValidMoves_valid_for_game_tiles_witness :
  isValidMove (T := refTables) (HexukiBitboard_new (T := refTables)) (mkMove 4 1)
  = Some true.
Proof.
  destruct (getValidMoves (T := refTables) (HexukiBitboard_new (T := refTables)))
    as [moves|] eqn:Hmoves; [|vm_compute in Hmoves; discriminate].
  apply (getValidMoves_valid_for_game_tiles (T := refTables)
           (HexukiBitboard_new (T := refTables)) moves (mkMove 4 1)
           ref_isValid_accepts).
  - vm_compute. repeat constructor; discriminate.
  - exact Hmoves.
  - vm_compute in Hmoves. injection Hmoves as <-. left.
Defined.

(** C6, counterexample.  A hex pair with a letter after the colon:
    [std::stoi] throws [std::invalid_argument], nothing catches it, and
    [loadPosition] does not return. *)
Lemma loadPosition_throws_counterexample :
  ref_load "h9:1,h4:x|p1:1,2|p2:3|turn:1" = Throw invalid_argument
  /\ ref_load "h9:1|p1:1,,2|p2:3|turn:1" = Throw invalid_argument
  /\ ref_load "h9:1|p1:1|p2:3|turn:" = Throw invalid_argument
  /\ ref_load "h9:99999999999" = Throw out_of_range.
Proof. vm_compute. repeat split. Qed.



(** C4.  [findBestMove] never reads [config.useTranspositionTable]: for
    all tables, clocks, positions and configurations the search with the flag
    off is the search with the flag on.  On the position below (two empty
    hexes, a search of depth 2) the search with the flag off probes the table
    4 times and leaves 4 entries in it. *)
Theorem findBestMove_ignores_useTranspositionTable :
  (forall (T : Tables) (clk : nat -> Z) (fuel : nat) (b : HexukiBitboard)
          (md tl sz : Z) (id mo vb : bool),
     findBestMove clk fuel b (mkConfig md tl id mo false sz vb)
     = findBestMove clk fuel b (mkConfig md tl id mo true sz vb))
  /\ exists b st,
       ref_load
         "h0:1,h1:1,h2:1,h3:1,h4:1,h5:1,h6:1,h7:1,h8:1,h9:1,h10:1,h11:1,h12:1,h13:3,h14:1,h15:1,h16:1|p1:2,3|p2:4|turn:1"
       = Ok b
       /\ findBestMoveDriver (T := refTables) ref_clock 25 b
            (mkConfig 2 30000 false true false 128 false) = Some st
       /\ ttMisses (d_result st) = 4
       /\ size (table (s_tt (d_search st))) = 4%nat.
Proof.
  split; [intros; apply findBestMove_flag_tt_irrelevant|].
  eexists. eexists.
  split; [vm_compute; reflexivity|].
  split; [vm_compute; reflexivity|].
  split; vm_compute; reflexivity.
Qed.

(** C5.  The single-depth search keeps the root moves in the order of
    [getValidMoves] when [useMoveOrdering] is off, but iterative deepening
    does not read the flag.  From the initial position, deepening to depth 2
    with the flag off: [getValidMoves] gives (4, 1) first, and when the
    search ends the root move list is a rearrangement that starts with a
    move of tile 9. *)
Theorem findBestMove_reorders_root_when_off :
  (forall (T : Tables) (clk : nat -> Z) (fuel : nat) (b : HexukiBitboard)
          (config : SearchConfig) (moves : list Move) (st : Driver),
     useIterativeDeepening config = false -> useMoveOrdering config = false ->
     getValidMoves b = Some moves ->
     findBestMoveDriver clk fuel b config = Some st ->
     d_moves st = moves)
  /\ exists moves st first,
       getValidMoves (T := refTables) (HexukiBitboard_new (T := refTables)) = Some moves
       /\ head moves = Some (mkMove 4 1)
       /\ findBestMoveDriver (T := refTables) ref_clock 25
            (HexukiBitboard_new (T := refTables))
            (mkConfig 2 30000 true false true 128 false) = Some st
       /\ head (d_moves st) = Some first
       /\ tileValue first = 9
       /\ d_moves st ≡ₚ moves.
Proof.
  split; [intros; eapply single_depth_keeps_root_order; eassumption|].
  eexists. eexists. eexists.
  split; [vm_compute; reflexivity|].
  split; [reflexivity|].
  split; [vm_compute; reflexivity|].
  split; [reflexivity|].
  split; [reflexivity|].
  apply (bool_decide_unpack _). vm_compute. reflexivity.
Qed.

(** The initial position searched to depth 3 under a clock that passes the
    limit of 50 ms after its 54th reading: depth 1 completes (54 root moves,
    one reading each), depth 2 is cut after its first root move. *)
Lemma findBestMove_timeout_keeps_completed_depth_witness :
  exists r b',
    findBestMove (T := refTables) ref_timeout_clock 19
                 (HexukiBitboard_new (T := refTables)) ref_timeout_config
    = Some (r, b')
    /\ timeout r = true
    /\ depth r = 2 - 1.
Proof.
  assert (getValidMoves (T := refTables) (HexukiBitboard_new (T := refTables))
          = Some (mkMove 4 1 :: mkMove 4 2 :: drop 2 ref_initial_moves)) as Hmoves
    by (vm_compute; reflexivity).
  destruct (findBestMove_timeout_keeps_completed_depth (T := refTables)
              ref_timeout_clock 19 (HexukiBitboard_new (T := refTables))
              ref_timeout_config (mkMove 4 1) (mkMove 4 2) (drop 2 ref_initial_moves)
              ref_walks_end)
    as (r & b' & Hres & Hprop).
  - vm_compute. split; [discriminate|reflexivity].
  - lia.
  - reflexivity.
  - exact Hmoves.
  - exists r, b'. split; [exact Hres|].
    destruct (Hprop 2 ref_after_depth1) as (Ht & Hd & _).
    + vm_compute. split; discriminate.
    + eapply idReaches_next; [vm_compute; reflexivity|constructor].
    + eexists. eexists. eexists. vm_compute. reflexivity.
    + split; assumption.
Defined.

(** * Further properties of the engine *)

Section Coverage.
Context `{T : Tables}.

(** ** The transposition table *)

Lemma TT_store_probe (t : TranspositionTable) (hash : Z) (entry : TTEntry) :
  (exists found,
     (TT_probe (TT_store t hash entry) hash).1 = Some found
     /\ tt_depth entry <= tt_depth found
     /\ (found = entry \/ table t !! hash = Some found)
     /\ (forall old, table t !! hash = Some old ->
                     tt_depth old <= tt_depth found
                     /\ (tt_depth old <= tt_depth entry -> found = entry)))
  /\ (forall other, other <> hash ->
        (TT_probe (TT_store t hash entry) other).1 = (TT_probe t other).1)
  /\ hits (TT_store t hash entry) = hits t
  /\ misses (TT_store t hash entry) = misses t.
Proof.
  unfold TT_store, TT_probe.
  destruct (table t !! hash) as [old|] eqn:Hold.
  - destruct (Z.geb_spec (tt_depth entry) (tt_depth old)) as [Hge|Hlt]; cbn [table].
    + rewrite lookup_insert_eq. cbn [fst]. split; [|split; [|done]].
      * exists entry. split; [done|]. split; [lia|]. split; [by left|].
        intros old' [= <-]. split; [lia|done].
      * intros other Hne. rewrite lookup_insert_ne by done.
        by destruct (table t !! other).
    + rewrite Hold. cbn [fst]. split; [|split; [|done]].
      * exists old. split; [done|]. split; [lia|]. split; [by right|].
        intros old' [= <-]. split; [lia|]. intros Hle. lia.
      * done.
  - cbn [table]. rewrite lookup_insert_eq. cbn [fst]. split; [|split; [|done]].
    + exists entry. split; [done|]. split; [lia|]. split; [by left|]. intros old [=].
    + intros other Hne. rewrite lookup_insert_ne by done.
      by destruct (table t !! other).
Qed.

(** X1.  After [store(hash, entry)] a probe of [hash] finds an entry: the
    new one, unless the table held a strictly deeper one for that hash,
    which is kept; so the depth stored under a hash never goes down.  Other
    hashes are not touched, and [store] leaves the hit and miss counters
    alone.  After [clear] the counters are 0 and no older entry stands in the
    way: what is stored is what a probe finds. *)
Theorem TT_store_then_probe (t : TranspositionTable) (hash : Z) (entry : TTEntry) :
  (exists found,
     (TT_probe (TT_store t hash entry) hash).1 = Some found
     /\ tt_depth entry <= tt_depth found
     /\ (found = entry \/ table t !! hash = Some found)
     /\ (forall old, table t !! hash = Some old ->
                     tt_depth old <= tt_depth found
                     /\ (tt_depth old <= tt_depth entry -> found = entry)))
  /\ (forall other, other <> hash ->
        (TT_probe (TT_store t hash entry) other).1 = (TT_probe t other).1)
  /\ hits (TT_store t hash entry) = hits t
  /\ misses (TT_store t hash entry) = misses t
  /\ (TT_probe (TT_store (TT_clear t) hash entry) hash).1 = Some entry
  /\ hits (TT_clear t) = 0
  /\ misses (TT_clear t) = 0.
Proof.
  destruct (TT_store_probe t hash entry) as (H1 & H2 & H3 & H4).
  split; [exact H1|]. split; [exact H2|]. split; [exact H3|]. split; [exact H4|].
  split; [|by split]. unfold TT_clear, TT_store, TT_probe. cbn [table].
  rewrite lookup_empty. cbn [table]. by rewrite lookup_insert_eq.
Qed.

(** ** Move ordering *)

Lemma insertByScore_sorted (p : Z * nat) (l : list (Z * nat)) :
  StronglySorted (fun a b : Z * nat => b.1 <= a.1) l ->
  StronglySorted (fun a b : Z * nat => b.1 <= a.1) (insertByScore p l).
Proof.
  induction l as [|q l IH]; intros Hs; cbn [insertByScore].
  - by repeat constructor.
  - apply StronglySorted_inv in Hs as [Hl Hq].
    destruct (Z.geb_spec p.1 q.1) as [Hge|Hlt].
    + constructor; [by constructor|]. constructor; [lia|].
      eapply Forall_impl; [exact Hq|]. intros b Hb. cbn beta in *. lia.
    + constructor; [by apply IH|]. rewrite insertByScore_perm.
      constructor; [lia|exact Hq].
Qed.

Lemma sortByScore_sorted (l : list (Z * nat)) :
  StronglySorted (fun a b : Z * nat => b.1 <= a.1) (sortByScore l).
Proof.
  induction l as [|p l IH]; [constructor|]. by apply insertByScore_sorted.
Qed.

Lemma StronglySorted_fst (l : list (Z * nat)) :
  StronglySorted (fun a b : Z * nat => b.1 <= a.1) l ->
  StronglySorted (fun a b : Z => b <= a) l.*1.
Proof.
  induction 1 as [|p l Hl IH Hp]; [constructor|]. cbn [fmap list_fmap].
  constructor; [exact IH|]. by apply Forall_fmap.
Qed.

(** [orderMoves] sorts: the heuristic scores of the moves it returns never
    go up along the list. *)
Lemma orderMoves_scored (moves : list Move) (tt : option TTEntry) (k : KillerMoves)
  (h : HistoryTable) (ply : Z) :
  KillerMoves_sized k -> HistoryTable_sized h ->
  exists ordered priorities,
    orderMoves moves tt k h ply = Some ordered
    /\ Forall2 (fun m s => orderingScore tt k h ply m = Some s) ordered priorities
    /\ StronglySorted (fun a b : Z => b <= a) priorities.
Proof.
  intros Hk Hh. unfold orderMoves.
  set (F := fun '(i, move) => orderingScore tt k h ply move ≫= fun s => Some (s, i)).
  destruct (mapM F (imap (fun i move => (i, move)) moves)) as [moveScores|] eqn:Hscores.
  2:{ apply mapM_None in Hscores. apply Exists_exists in Hscores as ([i m] & _ & Hnone).
      unfold F in Hnone.
      destruct (orderingScore_total tt k h ply m Hk Hh) as [v Hv].
      rewrite Hv in Hnone. discriminate. }
  cbn [mbind option_bind].
  apply mapM_Some in Hscores.
  set (g := fun p : Z * nat => default (mkMove 0 0) (moves !! p.2)).
  assert (Forall (fun p : Z * nat =>
                    moves !! p.2 = Some (g p)
                    /\ orderingScore tt k h ply (g p) = Some p.1) moveScores) as Hfacts.
  { apply Forall_forall. intros p Hp. apply list_elem_of_lookup in Hp as [i Hp].
    destruct (Forall2_lookup_r _ _ _ _ _ Hscores Hp) as ([j m] & Hjm & HF).
    rewrite list_lookup_imap in Hjm.
    destruct (moves !! i) as [m'|] eqn:Hm'; [|discriminate].
    cbn in Hjm. assert (j = i /\ m = m') as [-> ->] by (split; congruence).
    unfold F in HF.
    destruct (orderingScore tt k h ply m') as [sc|] eqn:Hsc; [|discriminate].
    cbn in HF. assert (p = (sc, i)) as -> by congruence.
    unfold g. cbn [fst snd]. rewrite Hm'. by split. }
  rewrite <- (sortByScore_perm moveScores) in Hfacts.
  exists (g <$> sortByScore moveScores), (sortByScore moveScores).*1.
  split; [|split].
  - apply mapM_fmap_total. eapply Forall_impl; [exact Hfacts|]. by intros p [? _].
  - apply Forall2_fmap, Forall_Forall2_diag.
    eapply Forall_impl; [exact Hfacts|]. by intros p [_ ?].
  - apply StronglySorted_fst, sortByScore_sorted.
Qed.

(** X2.  With heuristic arrays of the declared sizes [orderMoves] returns,
    and the list it leaves is a rearrangement of the list it was given (no
    move is added, dropped or repeated) in which the heuristic scores never
    go up from one move to the next, whatever the table hint, the killers,
    the history and the ply. *)
Theorem orderMoves_rearranges (moves : list Move) (hint : option TTEntry)
  (k : KillerMoves) (h : HistoryTable) (ply : Z) :
  KillerMoves_sized k -> HistoryTable_sized h ->
  exists ordered priorities,
    orderMoves moves hint k h ply = Some ordered
    /\ ordered ≡ₚ moves
    /\ length ordered = length moves
    /\ Forall2 (fun m s => orderingScore hint k h ply m = Some s) ordered priorities
    /\ StronglySorted (fun a b : Z => b <= a) priorities.
Proof.
  intros Hk Hh. destruct (orderMoves_perm moves hint k h ply Hk Hh) as (o & Ho & Hp).
  destruct (orderMoves_scored moves hint k h ply Hk Hh) as (o' & ps & Ho' & Hsc & Hso).
  assert (o' = o) as -> by congruence.
  exists o, ps. split; [exact Ho|]. split; [exact Hp|]. split; [by rewrite Hp|].
  by split.
Qed.

(** ** Evaluation *)

Lemma wrap_i32_neg (x : Z) : wrap_i32 (- wrap_i32 x) = wrap_i32 (- x).
Proof.
  unfold wrap_i32. f_equal.
  rewrite (Z.mod_eq (x + 2 ^ 31) (2 ^ 32)) by lia.
  replace (- (x + 2 ^ 31 - 2 ^ 32 * ((x + 2 ^ 31) / 2 ^ 32) - 2 ^ 31) + 2 ^ 31)
    with (- x + 2 ^ 31 + ((x + 2 ^ 31) / 2 ^ 32) * 2 ^ 32) by lia.
  apply Z_mod_plus_full.
Qed.

Lemma chainProduct_ext (b1 b2 : HexukiBitboard) (chain : Z -> Z) (idx : list Z)
  (product : Z) :
  hexOccupied b1 = hexOccupied b2 -> hexValues b1 = hexValues b2 ->
  chainProduct b1 chain idx product = chainProduct b2 chain idx product.
Proof.
  intros Ho Hv. revert product.
  induction idx as [|i rest IH]; intros product; cbn [chainProduct]; [done|].
  unfold isHexOccupied, getTileValue. rewrite Ho, Hv.
  destruct (chain i <? 0); [done|]. apply IH.
Qed.

Lemma getScore_ext (b1 b2 : HexukiBitboard) (p : Z) :
  hexOccupied b1 = hexOccupied b2 -> hexValues b1 = hexValues b2 ->
  getScore b1 p = getScore b2 p.
Proof.
  intros Ho Hv. unfold getScore, calculatePlayerScore, calculateChainScore.
  assert (Hfold : forall (chains : Z -> Z -> Z) (lens : Z -> Z) (l : list Z) (z : Z),
    fold_left (fun total i => int_add total (chainProduct b1 (chains i) (seqZ 0 (lens i)) 1)) l z
    = fold_left (fun total i => int_add total (chainProduct b2 (chains i) (seqZ 0 (lens i)) 1)) l z).
  { intros chains lens l. induction l as [|i l IH]; intros z; [done|].
    cbn [fold_left]. rewrite (chainProduct_ext b1 b2) by done. apply IH. }
  destruct (p =? PLAYER_1); apply Hfold.
Qed.

Lemma getScore_side (b : HexukiBitboard) (p side : Z) :
  getScore (set_currentPlayer b side) p = getScore b p.
Proof. by apply getScore_ext. Qed.

(** X3.  [evaluate] is antisymmetric in the side to move: giving the move to
    the other player negates the score (in [int] arithmetic), as negamax
    needs of its leaves. *)
Theorem evaluate_other_side (b : HexukiBitboard) :
  currentPlayer b = PLAYER_1 \/ currentPlayer b = PLAYER_2 ->
  evaluate (set_currentPlayer b (otherPlayer (currentPlayer b)))
  = int_neg (evaluate b).
Proof.
  intros Hcp. unfold evaluate. rewrite !getScore_side.
  cbn [currentPlayer set_currentPlayer].
  unfold int_neg, int_sub.
  destruct Hcp as [-> | ->]; cbn [otherPlayer Z.eqb Pos.eqb PLAYER_1 PLAYER_2];
    rewrite wrap_i32_neg; f_equal; lia.
Qed.

(** ** Lines of play *)

Lemma sameUpToBagOrder_refl (b : HexukiBitboard) : sameUpToBagOrder b b.
Proof. by repeat split. Qed.

Lemma sameUpToBagOrder_trans (b1 b2 b3 : HexukiBitboard) :
  sameUpToBagOrder b1 b2 -> sameUpToBagOrder b2 b3 -> sameUpToBagOrder b1 b3.
Proof.
  intros (A1 & A2 & A3 & A4 & A5 & A6 & A7 & A8) (B1 & B2 & B3 & B4 & B5 & B6 & B7 & B8).
  repeat split; etransitivity; eassumption.
Qed.

Lemma sameUpToBagOrder_wf (b1 b2 : HexukiBitboard) :
  sameUpToBagOrder b1 b2 -> Position_wf b2 -> Position_wf b1.
Proof.
  intros (Ho & Hv & Hc & _) (Hocc & Hcp & Hz).
  unfold Position_wf, isHexOccupied, getTileValue in *. rewrite Ho, Hv, Hc. done.
Qed.

Lemma moverTiles_same (b1 b2 : HexukiBitboard) :
  sameUpToBagOrder b1 b2 -> moverTiles b1 ≡ₚ moverTiles b2.
Proof.
  intros (_ & _ & Hc & _ & H1 & H2 & _). unfold moverTiles. rewrite Hc.
  by destruct (currentPlayer b2 =? PLAYER_1).
Qed.

Lemma playableOn_same (b1 b2 : HexukiBitboard) (m : Move) :
  sameUpToBagOrder b1 b2 -> playableOn b2 m -> playableOn b1 m.
Proof.
  intros Hs [Ho Hv]. split.
  - rewrite (proj1 Hs). exact Ho.
  - rewrite (moverTiles_same _ _ Hs). exact Hv.
Qed.

(** [unmakeMove] does not look at the order of the bags. *)
Lemma unmakeMove_same (b1 b2 : HexukiBitboard) (m : Move) :
  sameUpToBagOrder b1 b2 ->
  sameUpToBagOrder (unmakeMove b1 m) (unmakeMove b2 m).
Proof.
  destruct b1 as [occ1 vals1 p11 p21 cp1 sy1 ti1 zh1].
  destruct b2 as [occ2 vals2 p12 p22 cp2 sy2 ti2 zh2].
  unfold sameUpToBagOrder.
  cbn [hexOccupied hexValues p1AvailableTiles p2AvailableTiles currentPlayer
       symmetryStillPossible tilesAreIdentical zobristHash].
  intros (-> & -> & -> & -> & H1 & H2 & -> & ->).
  unfold unmakeMove, updateZobristHash, set_moverTiles, moverTiles.
  cbn [hexOccupied hexValues p1AvailableTiles p2AvailableTiles currentPlayer
       symmetryStillPossible tilesAreIdentical zobristHash
       set_hexOccupied set_hexValues set_p1AvailableTiles set_p2AvailableTiles
       set_currentPlayer set_zobristHash].
  destruct (otherPlayer cp2 =? PLAYER_1);
    cbn [hexOccupied hexValues p1AvailableTiles p2AvailableTiles currentPlayer
         symmetryStillPossible tilesAreIdentical zobristHash
         set_hexOccupied set_hexValues set_p1AvailableTiles set_p2AvailableTiles
         set_currentPlayer set_zobristHash];
    repeat split; try done; by apply Permutation_app.
Qed.

Lemma unmake_make_same (b : HexukiBitboard) (m : Move) :
  Position_wf b -> playableOn b m ->
  sameUpToBagOrder (unmakeMove (makeMove b m) m) b.
Proof.
  intros Hwf [[Hh He] Hv]. unfold sameUpToBagOrder. by apply unmake_make.
Qed.

(** X4.  A line of play made move by move and then unmade in reverse order
    gives the position back: mask, hex values, side to move, Zobrist hash
    and the two flags are the ones before, and the bags hold the same tiles,
    possibly in another order. *)
Theorem unmakeMoves_makeMoves_restores (b : HexukiBitboard) (ms : list Move) :
  Position_wf b -> playable b ms ->
  sameUpToBagOrder (unmakeMoves (makeMoves b ms) (rev ms)) b.
Proof.
  revert b. induction ms as [|m rest IH]; intros b Hwf Hp.
  - apply sameUpToBagOrder_refl.
  - destruct Hp as [Hm Hrest]. cbn [rev]. unfold unmakeMoves, makeMoves.
    cbn [fold_left]. rewrite fold_left_app. cbn [fold_left].
    apply (sameUpToBagOrder_trans _ (unmakeMove (makeMove b m) m));
      [|by apply unmake_make_same].
    apply unmakeMove_same. apply IH; [|exact Hrest].
    apply Position_wf_makeMove; [exact Hwf|apply Hm].
Qed.

(** ** The search leaves the position as it found it *)

Lemma make_search_unmake_same (s s2 : Search) (m : Move) :
  Position_wf (s_board s) -> playableOn (s_board s) m ->
  SearchInv s2 -> sameUpToBagOrder (s_board s2) (makeMove (s_board s) m) ->
  SearchInv (with_board s2 (unmakeMove (s_board s2) m))
  /\ sameUpToBagOrder (unmakeMove (s_board s2) m) (s_board s).
Proof.
  intros Hwf Hm (_ & Hk & Hh) Hsame.
  assert (sameUpToBagOrder (unmakeMove (s_board s2) m) (s_board s)) as Hback.
  { eapply sameUpToBagOrder_trans; [apply unmakeMove_same, Hsame|].
    by apply unmake_make_same. }
  split; [|exact Hback]. split; [|split; assumption].
  cbn [s_board with_board]. rewrite (proj1 Hback). apply Hwf.
Qed.

Lemma getValidMoves_playable (b : HexukiBitboard) (moves : list Move) :
  getValidMoves b = Some moves -> Forall (playableOn b) moves.
Proof.
  intros Hmoves. apply Forall_forall. intros m Hm.
  destruct (getValidMoves_sound b moves m Hmoves Hm) as [(Hh & Hempty & _) Hv].
  split; [split; assumption|exact Hv].
Qed.

Lemma playableOn_Forall_same (b1 b2 : HexukiBitboard) (moves : list Move) :
  sameUpToBagOrder b1 b2 -> Forall (playableOn b2) moves ->
  Forall (playableOn b1) moves.
Proof.
  intros Hs Hall. eapply Forall_impl; [exact Hall|].
  intros m. by apply playableOn_same.
Qed.

Lemma searchMoves_same
  (rec : Z -> Z -> Z -> Z -> Search -> option (Z * Search)) (n : nat)
  (d beta ply : Z) :
  (forall d' a b' p s, SearchInv s -> Position_wf (s_board s) ->
                       (emptyCount (s_board s) < n)%nat ->
                       returnsSame (rec d' a b' p s) s) ->
  forall moves acc s,
    SearchInv s -> Position_wf (s_board s) -> (emptyCount (s_board s) <= n)%nat ->
    Forall (playableOn (s_board s)) moves ->
    returnsSame (searchMoves rec d beta ply moves acc s) s.
Proof.
  intros Hrec moves.
  induction moves as [|m rest IH]; intros acc s Hinv Hwf Hcount Hmoves.
  - exists acc, s. split; [done|]. split; [done|apply sameUpToBagOrder_refl].
  - apply Forall_cons in Hmoves as [Hm Hrest]. cbn [searchMoves].
    pose proof (SearchInv_makeMove s m Hinv) as Hinv1.
    destruct (Hrec (int_sub d 1) (int_neg beta) (int_neg (n_alpha acc)) (int_add ply 1)
                   (with_board s (makeMove (s_board s) m)) Hinv1)
      as (r & s2 & Hcall & Hinv2 & Hsame2).
    { cbn [s_board with_board]. apply Position_wf_makeMove; [exact Hwf|apply Hm]. }
    { cbn [s_board with_board].
      pose proof (emptyCount_makeMove (s_board s) m (proj1 Hinv) (proj1 Hm)). lia. }
    rewrite Hcall. cbn [mbind option_bind].
    destruct (make_search_unmake_same s s2 m Hwf Hm Hinv2 Hsame2) as [Hinv3 Hsame3].
    set (s3 := with_board s2 (unmakeMove (s_board s2) m)) in *.
    set (acc1 := if int_neg r >? n_bestScore acc then _ else acc).
    destruct (n_alpha acc1 >=? beta).
    + destruct Hinv3 as (Ho3 & Hk3 & Hh3).
      destruct (KillerMoves_update_total (s_killers s3) ply (n_bestMove acc1) Hk3)
        as [k' Hk'].
      destruct (HistoryTable_update_total (s_history s3) (n_bestMove acc1) d Hh3)
        as [h' Hh'].
      rewrite Hk'. cbn [mbind option_bind]. rewrite Hh'. cbn [mbind option_bind].
      eexists. eexists. split; [reflexivity|]. split.
      * split; [exact Ho3|]. split.
        -- eapply KillerMoves_update_sized; eassumption.
        -- eapply HistoryTable_update_sized; eassumption.
      * exact Hsame3.
    + destruct (IH acc1 s3 Hinv3) as (a & s' & Hr & Hinv' & Hsame').
      * eapply sameUpToBagOrder_wf; [exact Hsame3|exact Hwf].
      * rewrite (emptyCount_ext (s_board s3) (s_board s)); [exact Hcount|apply Hsame3].
      * eapply playableOn_Forall_same; [exact Hsame3|exact Hrest].
      * exists a, s'. split; [exact Hr|]. split; [exact Hinv'|].
        eapply sameUpToBagOrder_trans; eassumption.
Qed.

Lemma alphaBeta_same (clk : nat -> Z) (fuel : nat) :
  walks_end ->
  forall limit d alpha beta ply s,
    SearchInv s -> Position_wf (s_board s) -> (emptyCount (s_board s) < fuel)%nat ->
    returnsSame (alphaBeta clk fuel limit d alpha beta ply s) s.
Proof.
  intros Hw.
  induction fuel as [|fuel IH]; intros limit d alpha beta ply s Hinv Hwf Hcount; [lia|].
  cbn [alphaBeta].
  set (s1 := with_nodes s (int_add (s_nodes s) 1)).
  destruct (pollDeadline_frame clk limit s1) as (Hb2 & Hk2 & Hh2).
  destruct (pollDeadline clk limit s1) as [timedOut s2]. cbn [snd] in Hb2, Hk2, Hh2.
  change (s_board s1) with (s_board s) in Hb2.
  assert (SearchInv s2) as Hinv2.
  { unfold SearchInv. rewrite Hb2, Hk2, Hh2. exact Hinv. }
  assert (sameUpToBagOrder (s_board s2) (s_board s)) as Hsame2.
  { rewrite Hb2. apply sameUpToBagOrder_refl. }
  destruct timedOut; [by exists 0, s2|].
  destruct ((d =? 0) || isGameOver (s_board s2)); [by eexists; exists s2|].
  destruct (TT_probe (s_tt s2) (zobristHash (s_board s2))) as [found tt'].
  set (s3 := with_tt s2 tt').
  assert (SearchInv s3 /\ sameUpToBagOrder (s_board s3) (s_board s))
    as [Hinv3 Hsame3] by (split; assumption).
  assert (s_board s3 = s_board s) as Hb3 by exact Hb2.
  destruct (ttLookup found d alpha beta) as [v|[[alpha1 beta1] ttValid]];
    [by exists v, s3|].
  destruct (getValidMoves (s_board s3)) as [moves|] eqn:Hmoves.
  2:{ rewrite (getValidMoves_eq _ Hw) in Hmoves. discriminate. }
  cbn [mbind option_bind].
  destruct moves as [|m0 moves']; [by eexists; exists s3|].
  destruct (orderMoves_perm (m0 :: moves') (if ttValid then found else None)
              (s_killers s3) (s_history s3) ply)
    as (ordered & Hord & Hperm); [apply Hinv3..|].
  rewrite Hord. cbn [mbind option_bind].
  destruct ordered as [|first ordered'].
  { by apply Permutation_nil_cons in Hperm. }
  cbn [head mbind option_bind].
  destruct (searchMoves_same (alphaBeta clk fuel limit) fuel d beta1 ply
              (fun d' a b' p s' => IH limit d' a b' p s')
              (first :: ordered') (mkNodeAcc (- INF) first alpha1 UPPER_BOUND) s3 Hinv3)
    as (acc & s4 & Hloop & Hinv4 & Hsame4).
  { rewrite Hb3. exact Hwf. }
  { rewrite Hb3. lia. }
  { rewrite Hperm. by apply getValidMoves_playable. }
  rewrite Hloop. cbn [mbind option_bind].
  eexists. eexists. split; [reflexivity|]. split; [exact Hinv4|].
  cbn [s_board with_tt]. eapply sameUpToBagOrder_trans; eassumption.
Qed.

Lemma searchRootID_same (clk : nat -> Z) (fuel : nat) (limit d : Z) :
  walks_end ->
  forall moves acc s,
    SearchInv s -> Position_wf (s_board s) -> (emptyCount (s_board s) <= fuel)%nat ->
    Forall (playableOn (s_board s)) moves ->
    returnsSame (searchRootID clk fuel limit d moves acc s) s.
Proof.
  intros Hw moves.
  induction moves as [|m rest IH]; intros acc s Hinv Hwf Hcount Hmoves.
  - exists (false, acc), s. split; [done|]. split; [done|apply sameUpToBagOrder_refl].
  - apply Forall_cons in Hmoves as [Hm Hrest]. cbn [searchRootID].
    pose proof (SearchInv_makeMove s m Hinv) as Hinv1.
    destruct (alphaBeta_same clk fuel Hw limit (int_sub d 1) (int_neg INF)
                (int_neg (r_alpha acc)) 1 (with_board s (makeMove (s_board s) m)) Hinv1)
      as (r & s2 & Hcall & Hinv2 & Hsame2).
    { cbn [s_board with_board]. apply Position_wf_makeMove; [exact Hwf|apply Hm]. }
    { cbn [s_board with_board].
      pose proof (emptyCount_makeMove (s_board s) m (proj1 Hinv) (proj1 Hm)). lia. }
    rewrite Hcall. cbn [mbind option_bind].
    destruct (make_search_unmake_same s s2 m Hwf Hm Hinv2 Hsame2) as [Hinv3 Hsame3].
    set (s3 := with_board s2 (unmakeMove (s_board s2) m)) in *.
    unfold readClock.
    set (s4 := with_ticks s3 (S (s_ticks s3))).
    assert (SearchInv s4) as Hinv4 by exact Hinv3.
    assert (sameUpToBagOrder (s_board s4) (s_board s)) as Hsame4 by exact Hsame3.
    destruct (clk (s_ticks s3) >=? limit).
    + eexists. exists s4. split; [reflexivity|]. split; [exact Hinv4|exact Hsame4].
    + set (acc1 := if int_neg r >? r_bestScore acc then _ else acc).
      destruct (IH acc1 s4 Hinv4) as (a & s' & Hr & Hinv' & Hsame').
      * eapply sameUpToBagOrder_wf; [exact Hsame4|exact Hwf].
      * rewrite (emptyCount_ext (s_board s4) (s_board s)); [exact Hcount|apply Hsame4].
      * eapply playableOn_Forall_same; [exact Hsame4|exact Hrest].
      * exists a, s'. split; [exact Hr|]. split; [exact Hinv'|].
        eapply sameUpToBagOrder_trans; eassumption.
Qed.

Lemma searchRootSingle_same (clk : nat -> Z) (fuel : nat) (limit d : Z) :
  walks_end ->
  forall moves acc s,
    SearchInv s -> Position_wf (s_board s) -> (emptyCount (s_board s) <= fuel)%nat ->
    Forall (playableOn (s_board s)) moves ->
    returnsSame (searchRootSingle clk fuel limit d moves acc s) s.
Proof.
  intros Hw moves.
  induction moves as [|m rest IH]; intros acc s Hinv Hwf Hcount Hmoves.
  - exists acc, s. split; [done|]. split; [done|apply sameUpToBagOrder_refl].
  - apply Forall_cons in Hmoves as [Hm Hrest]. cbn [searchRootSingle].
    pose proof (SearchInv_makeMove s m Hinv) as Hinv1.
    destruct (alphaBeta_same clk fuel Hw limit (int_sub d 1) (int_neg INF)
                (int_neg (r_alpha acc)) 1 (with_board s (makeMove (s_board s) m)) Hinv1)
      as (r & s2 & Hcall & Hinv2 & Hsame2).
    { cbn [s_board with_board]. apply Position_wf_makeMove; [exact Hwf|apply Hm]. }
    { cbn [s_board with_board].
      pose proof (emptyCount_makeMove (s_board s) m (proj1 Hinv) (proj1 Hm)). lia. }
    rewrite Hcall. cbn [mbind option_bind].
    destruct (make_search_unmake_same s s2 m Hwf Hm Hinv2 Hsame2) as [Hinv3 Hsame3].
    set (s3 := with_board s2 (unmakeMove (s_board s2) m)) in *.
    set (acc1 := if int_neg r >? r_bestScore acc then _ else acc).
    destruct (IH acc1 s3 Hinv3) as (a & s' & Hr & Hinv' & Hsame').
    + eapply sameUpToBagOrder_wf; [exact Hsame3|exact Hwf].
    + rewrite (emptyCount_ext (s_board s3) (s_board s)); [exact Hcount|apply Hsame3].
    + eapply playableOn_Forall_same; [exact Hsame3|exact Hrest].
    + exists a, s'. split; [exact Hr|]. split; [exact Hinv'|].
      eapply sameUpToBagOrder_trans; eassumption.
Qed.

Lemma idDepth_same (clk : nat -> Z) (fuel : nat) (config : SearchConfig)
  (b : HexukiBitboard) (d : Z) (st : Driver) :
  walks_end -> (19 <= fuel)%nat -> Position_wf b -> DriverSame b st ->
  exists continue st',
    idDepth clk fuel config d st = Some (continue, st') /\ DriverSame b st'.
Proof.
  intros Hw Hfuel Hwf (Hinv & Hsame & Hmoves). unfold idDepth, idRootSearch.
  set (s0 := with_nodes (d_search st) 0).
  assert (SearchInv s0) as Hinv0 by exact Hinv.
  assert (sameUpToBagOrder (s_board s0) b) as Hsame0 by exact Hsame.
  assert (exists moves,
            (if d >? 1
             then orderMoves (d_moves st) None (s_killers s0) (s_history s0) 0
             else Some (d_moves st)) = Some moves
            /\ Forall (playableOn b) moves) as (moves & -> & Hmoves').
  { destruct (d >? 1); [|eauto].
    destruct (orderMoves_perm (d_moves st) None (s_killers s0) (s_history s0) 0)
      as (ordered & -> & Hperm); [apply Hinv0..|].
    exists ordered. split; [reflexivity|]. by rewrite Hperm. }
  cbn [mbind option_bind].
  destruct (searchRootID_same clk fuel (timeLimitMs config) d Hw moves
              (mkRootAcc Move_default (- INF) (- INF)) s0 Hinv0)
    as ([timedOut acc] & s1 & -> & Hinv1 & Hsame1).
  { eapply sameUpToBagOrder_wf; [exact Hsame0|exact Hwf]. }
  { pose proof (emptyCount_bound (s_board s0)). lia. }
  { eapply playableOn_Forall_same; [exact Hsame0|exact Hmoves']. }
  cbn [mbind option_bind].
  assert (sameUpToBagOrder (s_board s1) b) as Hsame1'
    by (eapply sameUpToBagOrder_trans; eassumption).
  destruct timedOut; eexists; eexists; (split; [reflexivity|]);
    (split; [exact Hinv1|]); (split; [exact Hsame1'|exact Hmoves']).
Qed.

Lemma idLoop_same (clk : nat -> Z) (fuel : nat) (config : SearchConfig)
  (b : HexukiBitboard) (n : nat) :
  walks_end -> (19 <= fuel)%nat -> Position_wf b ->
  forall d st, DriverSame b st ->
  exists st', idLoop clk fuel config n d st = Some st' /\ DriverSame b st'.
Proof.
  intros Hw Hfuel Hwf. induction n as [|n IH]; intros d st Hst; [by exists st|].
  cbn [idLoop].
  destruct (idDepth_same clk fuel config b d st Hw Hfuel Hwf Hst)
    as (continue & st1 & -> & Hst1).
  cbn [mbind option_bind]. destruct continue; [by apply IH|by exists st1].
Qed.

Lemma findBestMove_same (clk : nat -> Z) (fuel : nat)
  (b : HexukiBitboard) (config : SearchConfig) :
  walks_end -> Position_wf b -> (19 <= fuel)%nat ->
  exists r b',
    findBestMove clk fuel b config = Some (r, b') /\ sameUpToBagOrder b' b.
Proof.
  intros Hw Hwf Hfuel. unfold findBestMove.
  assert (exists st, findBestMoveDriver clk fuel b config = Some st
                     /\ sameUpToBagOrder (s_board (d_search st)) b)
    as (st & -> & Hst); [|by eexists; eexists].
  unfold findBestMoveDriver.
  pose proof (searchStart_inv b config (proj1 Hwf)) as Hinv0.
  destruct (getValidMoves b) as [moves|] eqn:Hmoves.
  2:{ rewrite (getValidMoves_eq _ Hw) in Hmoves. discriminate. }
  pose proof (getValidMoves_playable b moves Hmoves) as Hplay.
  cbn [mbind option_bind].
  destruct moves as [|first [|second rest]].
  - eexists. split; [reflexivity|]. apply sameUpToBagOrder_refl.
  - apply Forall_cons in Hplay as [Hm _].
    pose proof (SearchInv_makeMove (searchStart b config) first Hinv0) as Hinv1.
    destruct (alphaBeta_same clk fuel Hw (timeLimitMs config)
                (int_sub (maxDepth config) 1) (- INF) INF 0
                (with_board (searchStart b config) (makeMove b first)) Hinv1)
      as (r & s2 & -> & Hinv2 & Hsame2).
    { cbn [s_board with_board]. apply Position_wf_makeMove; [exact Hwf|apply Hm]. }
    { cbn [s_board with_board].
      pose proof (emptyCount_makeMove b first (proj1 Hwf) (proj1 Hm)).
      pose proof (emptyCount_bound b). lia. }
    cbn [mbind option_bind].
    destruct (make_search_unmake_same (searchStart b config) s2 first Hwf Hm Hinv2 Hsame2)
      as [_ Hsame3].
    eexists. split; [reflexivity|]. exact Hsame3.
  - assert (DriverSame b (driverStart b config (first :: second :: rest) first)) as Hst0.
    { split; [exact Hinv0|]. split; [apply sameUpToBagOrder_refl|exact Hplay]. }
    destruct (useIterativeDeepening config).
    + destruct (idLoop_same clk fuel config b (Z.to_nat (maxDepth config)) Hw Hfuel Hwf
                  1 _ Hst0) as (st & -> & _ & Hsame & _).
      cbn [mbind option_bind]. eexists. split; [reflexivity|]. exact Hsame.
    + assert (exists ordered,
                (if useMoveOrdering config
                 then orderMoves (first :: second :: rest) None
                        (s_killers (searchStart b config))
                        (s_history (searchStart b config)) 0
                 else Some (first :: second :: rest)) = Some ordered
                /\ Forall (playableOn b) ordered)
        as (ordered & -> & Hordered).
      { destruct (useMoveOrdering config); [|eauto].
        destruct (orderMoves_perm (first :: second :: rest) None
                    (s_killers (searchStart b config))
                    (s_history (searchStart b config)) 0)
          as (ordered & -> & Hperm); [apply Hinv0..|].
        exists ordered. split; [reflexivity|]. by rewrite Hperm. }
      cbn [mbind option_bind].
      destruct (searchRootSingle_same clk fuel (timeLimitMs config) (maxDepth config)
                  Hw ordered (mkRootAcc first (- INF) (- INF)) (searchStart b config)
                  Hinv0) as (acc & s1 & -> & _ & Hsame1).
      { exact Hwf. }
      { pose proof (emptyCount_bound b). cbn [s_board searchStart]. lia. }
      { exact Hordered. }
      cbn [mbind option_bind]. eexists. split; [reflexivity|]. exact Hsame1.
Qed.

(** X5.  [findBestMove] works on the caller's board, making and unmaking
    moves on it.  For a position that satisfies its representation
    invariant it returns, and the board it leaves behind is the one it was
    given up to the order of the tiles in the bags, for every
    configuration and clock, timeouts included; the same holds of the
    simple interface [findBestMove(board, depth, timeLimitMs)], for every
    depth and time limit. *)
Theorem findBestMove_restores_position (clk : nat -> Z) (fuel : nat)
  (b : HexukiBitboard) (config : SearchConfig) (d timeLimit : Z) :
  walks_end -> Position_wf b -> (19 <= fuel)%nat ->
  (exists r b',
     findBestMove clk fuel b config = Some (r, b') /\ sameUpToBagOrder b' b)
  /\ (exists r b',
        findBestMoveDepth clk fuel b d timeLimit = Some (r, b')
        /\ sameUpToBagOrder b' b).
Proof.
  intros Hw Hwf Hfuel. split; [by apply findBestMove_same|].
  unfold findBestMoveDepth. by apply findBestMove_same.
Qed.

(** ** Chains of the board *)

Lemma chainLengthsWalk_runs (fuel : nat) (b : HexukiBitboard) (d : Direction) :
  forall (start : Z) (cur : list Z) (ls : list Z) (line : list Z),
    chainLine fuel d start = Some line ->
    exists len' ls',
      chainLengthsWalk fuel b d start (Z.of_nat (length cur)) ls = Some (len', ls')
      /\ (if len' >? 0 then ls' ++ [len'] else ls')
         = ls ++ ((fun r => Z.of_nat (length r)) <$> spec_runs (isHexOccupied b) line cur).
Proof.
  induction fuel as [|fuel IH]; intros start cur ls line;
    cbn [chainLine chainLengthsWalk]; [discriminate|].
  destruct (start >=? 0).
  - destruct (chainLine fuel d (nextHex start d)) as [rest|] eqn:Hrest; [|discriminate].
    cbn [fmap option_fmap option_map]. intros Heq. apply (inj Some) in Heq. subst line.
    cbn [spec_runs]. destruct (isHexOccupied b start).
    + replace (Z.of_nat (length cur) + 1) with (Z.of_nat (length (cur ++ [start])))
        by (rewrite length_app; simpl; lia).
      apply IH. exact Hrest.
    + destruct cur as [|c cur].
      * change (Z.of_nat (length []) >? 0) with false. cbn iota.
        apply (IH _ [] ls rest Hrest).
      * assert ((Z.of_nat (length (c :: cur)) >? 0) = true) as ->
          by (apply Z.gtb_lt; simpl length; lia).
        destruct (IH (nextHex start d) [] (ls ++ [Z.of_nat (length (c :: cur))]) rest
                     Hrest) as (len' & ls' & Hw & Heq).
        exists len', ls'. split; [exact Hw|]. rewrite Heq, <- app_assoc. reflexivity.
  - intros Heq. apply (inj Some) in Heq. subst line.
    eexists. eexists. split; [reflexivity|]. cbn [spec_runs].
    destruct cur as [|c cur].
    + change (Z.of_nat (length []) >? 0) with false. by rewrite app_nil_r.
    + assert ((Z.of_nat (length (c :: cur)) >? 0) = true) as ->
        by (apply Z.gtb_lt; simpl length; lia).
      reflexivity.
Qed.

Lemma getChainLengthsFromStart_runs (b : HexukiBitboard) (i : Z) (line : list Z) :
  starterLine i = Some line ->
  getChainLengthsFromStart b (startHex (CHAIN_STARTERS i)) (dir (CHAIN_STARTERS i))
  = Some ((fun r => Z.of_nat (length r)) <$> spec_runs (isHexOccupied b) line []).
Proof.
  intros Hline. unfold getChainLengthsFromStart.
  destruct (chainLengthsWalk_runs WALK_FUEL b (dir (CHAIN_STARTERS i))
              (startHex (CHAIN_STARTERS i)) [] [] line Hline)
    as (len' & ls' & Hw & Heq).
  change (Z.of_nat (length [])) with 0 in Hw. rewrite Hw.
  cbn [mbind option_bind]. by rewrite Heq.
Qed.

Lemma getAllChainLengths_fold (b : HexukiBitboard) (idxs : list Z) (acc : list Z) :
  (forall i, i ∈ idxs -> is_Some (starterLine i)) ->
  fold_left
    (fun acc i =>
       chainLengths ← acc;
       lengths ← getChainLengthsFromStart b (startHex (CHAIN_STARTERS i))
                                          (dir (CHAIN_STARTERS i));
       Some (chainLengths ++ lengths))
    idxs (Some acc)
  = Some (acc ++ ((fun r => Z.of_nat (length r))
                    <$> (omap starterLine idxs
                           ≫= fun line => spec_runs (isHexOccupied b) line []))).
Proof.
  revert acc. induction idxs as [|i idxs IH]; intros acc His.
  - cbn. by rewrite app_nil_r.
  - destruct (His i) as [line Hline]; [by left|].
    cbn [fold_left mbind option_bind omap list_omap].
    rewrite (getChainLengthsFromStart_runs b i line Hline), Hline.
    cbn [mbind option_bind]. rewrite IH by (intros j Hj; apply His; by right).
    cbn [mbind list_bind]. by rewrite fmap_app, app_assoc.
Qed.

Lemma walks_end_seq : walks_end -> forall i, i ∈ seqZ 0 15 -> is_Some (starterLine i).
Proof. intros Hw i Hi. apply Hw. apply elem_of_seqZ in Hi. lia. Qed.

Lemma getAllChainLengths_eq (b : HexukiBitboard) :
  walks_end ->
  getAllChainLengths b = Some ((fun r => Z.of_nat (length r)) <$> boardRuns b).
Proof.
  intros Hw. unfold getAllChainLengths.
  rewrite (getAllChainLengths_fold b (seqZ 0 15) [] (walks_end_seq Hw)).
  reflexivity.
Qed.

Lemma boardRuns_maximal (b : HexukiBitboard) (r : list Z) :
  r ∈ boardRuns b ->
  exists line, line ∈ boardLines /\ isMaximalRun (isHexOccupied b) line r.
Proof.
  unfold boardRuns. intros Hr. apply list_elem_of_bind in Hr as (line & Hr & Hline).
  exists line. split; [exact Hline|]. by apply spec_runs_maximal.
Qed.

(** X6.  [getAllChainLengths] returns the lengths of the maximal runs of
    occupied hexes along the 15 lines of the board, line by line and in the
    order of each walk; every length it returns is at least 1, and each
    belongs to a stretch of a line that is occupied throughout and cannot be
    extended on either side. *)
Theorem getAllChainLengths_runs (b : HexukiBitboard) :
  walks_end ->
  exists lengths,
    getAllChainLengths b = Some lengths
    /\ lengths = (fun r => Z.of_nat (length r)) <$> boardRuns b
    /\ Forall (fun len => 1 <= len) lengths
    /\ forall r, r ∈ boardRuns b ->
         exists line, line ∈ boardLines /\ isMaximalRun (isHexOccupied b) line r.
Proof.
  intros Hw. eexists. split; [by apply getAllChainLengths_eq|].
  split; [reflexivity|]. split; [|apply boardRuns_maximal].
  apply Forall_fmap, Forall_forall. intros r Hr.
  destruct (boardRuns_maximal b r Hr) as (line & _ & Hne & _).
  destruct r; [done|]. cbn. lia.
Qed.

(** *** The two longest chains *)

Lemma firstAndSecond_fold (lens seen : list Z) (a : ChainMax) :
  Forall (fun x => 0 < x) seen -> Forall (fun x => 0 < x) lens ->
  top2 a seen ->
  fold_left
    (fun '(first, second) length =>
       if length >? first then (length, first)
       else if length >? second then (first, length)
       else (first, second))
    lens (maxLength a, secondMaxLength a)
  = (list_max_Z (seen ++ lens), spec_secondLargest (seen ++ lens)).
Proof.
  revert seen a. induction lens as [|len lens IH]; intros seen a Hseen Hlens Ht.
  - cbn [fold_left]. rewrite app_nil_r. destruct Ht as [-> ->]. reflexivity.
  - apply Forall_cons in Hlens as [Hlen Hlens]. cbn [fold_left].
    pose proof (chainEnded_top2 a seen len false Hseen Hlen Ht) as Ht'.
    replace (seen ++ len :: lens) with ((seen ++ [len]) ++ lens)
      by (by rewrite <- app_assoc).
    rewrite <- (IH (seen ++ [len]) (chainEnded a len false)); [| |exact Hlens|exact Ht'].
    + f_equal. unfold chainEnded. cbn [andb].
      destruct (len >? maxLength a); [reflexivity|].
      by destruct (len >? secondMaxLength a).
    + apply Forall_app. split; [exact Hseen|by repeat constructor].
Qed.

Lemma firstAndSecond_spec (lens : list Z) :
  Forall (fun x => 0 < x) lens ->
  firstAndSecond lens = (list_max_Z lens, spec_secondLargest lens).
Proof.
  intros Hlens. unfold firstAndSecond.
  apply (firstAndSecond_fold lens [] (mkChainMax 0 0 0)); [constructor|exact Hlens|].
  split; reflexivity.
Qed.

Lemma spec_secondLargest_le (lens : list Z) :
  0 <= spec_secondLargest lens <= list_max_Z lens.
Proof.
  unfold spec_secondLargest. split; [apply list_max_Z_nonneg|].
  generalize (list_max_Z lens) at 1. intros v.
  induction lens as [|x lens IH]; cbn [eraseFirst list_max_Z foldr]; [done|].
  destruct (x =? v).
  - fold (list_max_Z lens). lia.
  - cbn [list_max_Z foldr]. fold (list_max_Z (eraseFirst v lens)) (list_max_Z lens).
    unfold list_max_Z in IH. unfold list_max_Z. lia.
Qed.

(** X7.  [getFirstAndSecondChainLengths] yields the length of a longest
    chain of the board and the length of a longest chain among the others:
    [first] is the largest of the lengths of [getAllChainLengths] and
    [second] the largest once one occurrence of [first] is set aside, so two
    chains that tie for the longest give [second = first]; both are 0 on a
    board without tiles, and [second] never exceeds [first]. *)
Theorem getFirstAndSecondChainLengths_spec (b : HexukiBitboard) :
  walks_end ->
  exists lengths first second,
    getAllChainLengths b = Some lengths
    /\ getFirstAndSecondChainLengths b = Some (first, second)
    /\ first = list_max_Z lengths
    /\ second = list_max_Z (eraseFirst first lengths)
    /\ 0 <= second <= first
    /\ (forall len, len ∈ lengths -> len <= first)
    /\ (lengths <> [] -> first ∈ lengths).
Proof.
  intros Hw. pose proof (getAllChainLengths_eq b Hw) as Hall.
  set (lengths := (fun r => Z.of_nat (length r)) <$> boardRuns b) in *.
  assert (Forall (fun x => 0 < x) lengths) as Hpos.
  { apply Forall_fmap, Forall_forall. intros r Hr.
    destruct (boardRuns_maximal b r Hr) as (line & _ & Hne & _).
    destruct r; [done|]. cbn. lia. }
  exists lengths, (list_max_Z lengths), (spec_secondLargest lengths).
  split; [exact Hall|]. split.
  - unfold getFirstAndSecondChainLengths. rewrite Hall. cbn [mbind option_bind].
    by rewrite firstAndSecond_spec.
  - split; [reflexivity|]. split; [reflexivity|].
    split; [apply spec_secondLargest_le|]. split.
    + intros len. apply list_max_Z_ge.
    + intros Hne. by apply list_max_Z_elem.
Qed.

(** *** Chains with their members *)

Lemma chainsWalk_runs (fuel : nat) (b : HexukiBitboard) (d : Direction) :
  forall (start : Z) (cur : list Z) (cs : list ChainInfo) (line : list Z),
    chainLine fuel d start = Some line ->
    exists cur' cs',
      chainsWalk fuel b d start cur cs = Some (cur', cs')
      /\ match cur' with
         | [] => cs'
         | _ => cs' ++ [mkChainInfo (Z.of_nat (length cur')) cur']
         end
         = cs ++ (chainInfoOf <$> spec_runs (isHexOccupied b) line cur).
Proof.
  induction fuel as [|fuel IH]; intros start cur cs line;
    cbn [chainLine chainsWalk]; [discriminate|].
  destruct (start >=? 0).
  - destruct (chainLine fuel d (nextHex start d)) as [rest|] eqn:Hrest; [|discriminate].
    cbn [fmap option_fmap option_map]. intros Heq. apply (inj Some) in Heq. subst line.
    cbn [spec_runs]. destruct (isHexOccupied b start).
    + apply IH. exact Hrest.
    + destruct cur as [|c cur].
      * apply (IH _ [] cs rest Hrest).
      * destruct (IH (nextHex start d) []
                     (cs ++ [mkChainInfo (Z.of_nat (length (c :: cur))) (c :: cur)]) rest
                     Hrest) as (cur' & cs' & Hw & Heq).
        exists cur', cs'. split; [exact Hw|]. rewrite Heq, <- app_assoc. reflexivity.
  - intros Heq. apply (inj Some) in Heq. subst line.
    eexists. eexists. split; [reflexivity|]. cbn [spec_runs].
    destruct cur as [|c cur]; [by rewrite app_nil_r|reflexivity].
Qed.

Lemma chainsOfStarter_runs (b : HexukiBitboard) (cs : list ChainInfo) (i : Z)
  (line : list Z) :
  starterLine i = Some line ->
  chainsOfStarter b cs i
  = Some (cs ++ (chainInfoOf <$> spec_runs (isHexOccupied b) line [])).
Proof.
  intros Hline. unfold chainsOfStarter.
  destruct (chainsWalk_runs WALK_FUEL b (dir (CHAIN_STARTERS i))
              (startHex (CHAIN_STARTERS i)) [] cs line Hline)
    as (cur' & cs' & Hw & Heq).
  rewrite Hw. cbn [mbind option_bind]. by rewrite Heq.
Qed.

Lemma chainsOfStarters_runs (b : HexukiBitboard) (idxs : list Z) (cs : list ChainInfo) :
  (forall i, i ∈ idxs -> is_Some (starterLine i)) ->
  fold_left (fun acc i => cs ← acc; chainsOfStarter b cs i) idxs (Some cs)
  = Some (cs ++ (chainInfoOf
                   <$> (omap starterLine idxs
                          ≫= fun line => spec_runs (isHexOccupied b) line []))).
Proof.
  revert cs. induction idxs as [|i idxs IH]; intros cs His.
  - cbn. by rewrite app_nil_r.
  - destruct (His i) as [line Hline]; [left|].
    cbn [fold_left mbind option_bind omap list_omap].
    rewrite (chainsOfStarter_runs b cs i line Hline), Hline.
    rewrite IH by (intros j Hj; apply His; by right).
    cbn [mbind list_bind]. by rewrite fmap_app, app_assoc.
Qed.

Lemma addIsolated_eq (b : HexukiBitboard) (hexesInChains : gset Z)
  (hs : list Z) (chains : list ChainInfo) :
  fold_left
    (fun cs h =>
       if isHexOccupied b h && bool_decide (h ∉ hexesInChains)
       then cs ++ [mkChainInfo 1 [h]] else cs)
    hs chains
  = chains ++ ((fun h => mkChainInfo 1 [h])
                 <$> filter (fun h => isHexOccupied b h = true /\ h ∉ hexesInChains) hs).
Proof.
  revert chains. induction hs as [|h hs IH]; intros chains.
  - cbn. by rewrite app_nil_r.
  - cbn [fold_left]. rewrite IH, filter_cons.
    destruct (isHexOccupied b h) eqn:Hocc; cbn [andb].
    + destruct (decide (h ∉ hexesInChains)) as [Hnot|Hin].
      * rewrite bool_decide_eq_true_2 by exact Hnot.
        rewrite decide_True by done. by rewrite fmap_cons, <- app_assoc.
      * rewrite bool_decide_eq_false_2 by exact Hin.
        rewrite decide_False by tauto. reflexivity.
    + rewrite decide_False by (intros [? _]; done). reflexivity.
Qed.

Lemma chainInfoOf_members (runs : list (list Z)) :
  (chainInfoOf <$> runs) ≫= ci_hexIds = mjoin runs.
Proof. rewrite list_fmap_bind, list_join_bind. reflexivity. Qed.

Lemma getAllChainsWithMembers_eq (b : HexukiBitboard) :
  walks_end ->
  getAllChainsWithMembers b
  = Some ((chainInfoOf <$> boardRuns b)
          ++ ((fun h => mkChainInfo 1 [h]) <$> isolatedHexes b)).
Proof.
  intros Hw. unfold getAllChainsWithMembers.
  rewrite (chainsOfStarters_runs b (seqZ 0 15) [] (walks_end_seq Hw)).
  cbn [mbind option_bind app]. fold boardLines. fold (boardRuns b).
  unfold addIsolated. rewrite addIsolated_eq. do 3 f_equal.
  unfold isolatedHexes. apply list_filter_iff. intros h.
  rewrite elem_of_list_to_set, chainInfoOf_members. reflexivity.
Qed.

(** X8.  [getAllChainsWithMembers] returns first the maximal runs of
    occupied hexes along the 15 lines, then one chain of length 1 for every
    occupied hex that lies on no run.  So each chain it returns is made of
    occupied hexes and its [length] field is the number of its members, at
    least 1; and every occupied hex of the board is a member of some chain
    returned. *)
Theorem getAllChainsWithMembers_spec (b : HexukiBitboard) :
  walks_end ->
  exists chains,
    getAllChainsWithMembers b = Some chains
    /\ chains = (chainInfoOf <$> boardRuns b)
                ++ ((fun h => mkChainInfo 1 [h]) <$> isolatedHexes b)
    /\ (forall c, c ∈ chains ->
          ci_length c = Z.of_nat (length (ci_hexIds c))
          /\ 1 <= ci_length c
          /\ Forall (fun h => isHexOccupied b h = true) (ci_hexIds c))
    /\ (forall h, 0 <= h < NUM_HEXES -> isHexOccupied b h = true ->
          exists c, c ∈ chains /\ h ∈ ci_hexIds c).
Proof.
  intros Hw. eexists. split; [by apply getAllChainsWithMembers_eq|].
  split; [reflexivity|]. split.
  - intros c Hc. apply elem_of_app in Hc as [Hc|Hc].
    + apply list_elem_of_fmap in Hc as (r & -> & Hr).
      destruct (boardRuns_maximal b r Hr) as (line & _ & Hne & Hocc & _).
      cbn [chainInfoOf ci_length ci_hexIds]. split; [reflexivity|].
      split; [|exact Hocc]. destruct r; [done|]. cbn. lia.
    + apply list_elem_of_fmap in Hc as (h & -> & Hh).
      apply list_elem_of_filter in Hh as [[Hocc _] _].
      cbn [ci_length ci_hexIds]. split; [reflexivity|]. split; [lia|].
      by repeat constructor.
  - intros h Hh Hocc. destruct (decide (h ∈ mjoin (boardRuns b))) as [Hin|Hnot].
    + apply list_elem_of_join in Hin as (r & Hhr & Hr).
      exists (chainInfoOf r). split; [|exact Hhr].
      apply elem_of_app. left. by apply list_elem_of_fmap_2.
    + exists (mkChainInfo 1 [h]). split; [|by left].
      apply elem_of_app. right.
      apply (list_elem_of_fmap_2 (fun h => mkChainInfo 1 [h])).
      apply list_elem_of_filter. split; [by split|]. apply elem_of_seqZ. lia.
Qed.

(** ** The mirror test *)

Lemma centerTest_spec (h : Z) :
  existsb (fun i => h =? CENTER_COLUMN_HEXES i) (seqZ 0 5) = true <-> isCenterHex h.
Proof.
  rewrite existsb_exists. unfold isCenterHex. split.
  - intros (i & Hi & Heq). exists i. apply list_elem_of_In, elem_of_seqZ in Hi.
    split; [lia|]. by apply Z.eqb_eq.
  - intros (i & Hi & ->). exists i. split; [|apply Z.eqb_refl].
    apply list_elem_of_In, elem_of_seqZ. lia.
Qed.

Lemma mirroredOn_spec (b : HexukiBitboard) (hs : list Z) :
  mirroredOn b hs = true
  <-> forall h, h ∈ hs -> ~ isCenterHex h ->
                getTileValue b h = getTileValue b (VERTICAL_MIRROR_PAIRS h).
Proof.
  induction hs as [|x hs IH]; cbn [mirroredOn].
  - split; [|done]. intros _ h Hh. by apply elem_of_nil in Hh.
  - destruct (existsb (fun i => x =? CENTER_COLUMN_HEXES i) (seqZ 0 5)) eqn:Hc.
    + apply centerTest_spec in Hc. rewrite IH. split.
      * intros Hall h [->|Hh]%elem_of_cons Hn; [done|by apply Hall].
      * intros Hall h Hh. apply Hall. by right.
    + assert (~ isCenterHex x) as Hnc.
      { intros Hx%centerTest_spec. congruence. }
      destruct (Z.eqb_spec (getTileValue b x) 0) as [E1|E1],
               (Z.eqb_spec (getTileValue b (VERTICAL_MIRROR_PAIRS x)) 0) as [E2|E2],
               (Z.eqb_spec (getTileValue b x) (getTileValue b (VERTICAL_MIRROR_PAIRS x)))
                 as [E|E];
        cbn [negb Bool.eqb andb]; try (exfalso; lia).
      all: try (split; [discriminate|];
                intros Hall; exfalso; apply E; apply Hall; [by left|exact Hnc]).
      all: rewrite IH; split;
        [intros Hall h [->|Hh]%elem_of_cons Hn; [exact E|by apply Hall]
        |intros Hall h Hh; apply Hall; by right].
Qed.

Lemma isBoardMirrored_flag (b : HexukiBitboard) :
  isBoardMirrored b = true
  <-> symmetryStillPossible b = true /\ mirrorSymmetric b.
Proof.
  unfold isBoardMirrored, mirrorSymmetric.
  destruct (symmetryStillPossible b); cbn [negb].
  - rewrite mirroredOn_spec. split.
    + intros Hall. split; [reflexivity|]. intros h Hh. apply Hall, elem_of_seqZ. lia.
    + intros [_ Hall] h Hh%elem_of_seqZ. apply Hall. lia.
  - split; [discriminate|]. by intros [? _].
Qed.

(** ** The end of the game *)

Lemma occupiedCount_filter (b : HexukiBitboard) (l : list Z) (n : Z) :
  fold_left (fun n i => if isHexOccupied b i then n + 1 else n) l n
  = n + Z.of_nat (length (filter (fun h => isHexOccupied b h = true) l)).
Proof.
  revert n. induction l as [|x l IH]; intros n; cbn [fold_left].
  - cbn. lia.
  - rewrite IH, filter_cons. destruct (isHexOccupied b x).
    + rewrite decide_True by done. cbn [length]. lia.
    + rewrite decide_False by done. reflexivity.
Qed.

Lemma occupied_plus_empty (b : HexukiBitboard) :
  (length (filter (fun h => isHexOccupied b h = true) (seqZ 0 NUM_HEXES))
   + emptyCount b = 19)%nat.
Proof.
  unfold emptyCount.
  rewrite <- (list_filter_iff (fun h => ~ isHexOccupied b h = true)
                              (fun h => isHexOccupied b h = false))
    by (intros h; destruct (isHexOccupied b h); split; congruence).
  rewrite <- length_app, filter_app_complement. reflexivity.
Qed.

Lemma isGameOver_emptyCount (b : HexukiBitboard) :
  isGameOver b = true <-> emptyCount b = 0%nat.
Proof.
  unfold isGameOver. rewrite occupiedCount_filter.
  pose proof (occupied_plus_empty b) as Hsum. unfold NUM_HEXES at 2.
  destruct (Z.geb_spec
              (0 + Z.of_nat (length (filter (fun h => isHexOccupied b h = true)
                                            (seqZ 0 NUM_HEXES)))) 19);
    split; intros; (done || lia).
Qed.

Lemma emptyCount_zero (b : HexukiBitboard) :
  emptyCount b = 0%nat
  <-> forall h, 0 <= h < NUM_HEXES -> isHexOccupied b h = true.
Proof.
  unfold emptyCount. split.
  - intros Hlen h Hh. apply length_zero_iff_nil in Hlen.
    destruct (isHexOccupied b h) eqn:Hocc; [reflexivity|]. exfalso.
    assert (h ∈ filter (fun h => isHexOccupied b h = false) (seqZ 0 NUM_HEXES)) as Hin.
    { apply list_elem_of_filter. split; [exact Hocc|]. apply elem_of_seqZ. lia. }
    rewrite Hlen in Hin. by apply elem_of_nil in Hin.
  - intros Hall.
    destruct (filter (fun h => isHexOccupied b h = false) (seqZ 0 NUM_HEXES))
      as [|x l] eqn:Hf; [reflexivity|]. exfalso.
    assert (x ∈ filter (fun h => isHexOccupied b h = false) (seqZ 0 NUM_HEXES)) as Hin
      by (rewrite Hf; left).
    apply list_elem_of_filter in Hin as [Hocc Hx%elem_of_seqZ].
    rewrite Hall in Hocc; [done|lia].
Qed.

Lemma getValidMoves_full (b : HexukiBitboard) (hs : list Z) (moves : list Move) :
  (forall h, h ∈ hs -> isHexOccupied b h = true) ->
  fold_left
    (fun acc h =>
       match acc with
       | None => None
       | Some moves =>
           if isHexOccupied b h then Some moves
           else match isMoveLegal b h with
                | None => None
                | Some true =>
                    Some (moves ++ (mkMove h <$> uniqueTileValues (moverTiles b)))
                | Some false => Some moves
                end
       end)
    hs (Some moves)
  = Some moves.
Proof.
  induction hs as [|x hs IH]; intros Hall; cbn [fold_left]; [reflexivity|].
  rewrite (Hall x) by (by left). apply IH. intros h Hh. apply Hall. by right.
Qed.

(** X9.  [isGameOver] answers true exactly when each of the 19 hexes is
    occupied, whatever bits the mask has beyond them; on such a board
    [getValidMoves] returns the empty list without consulting the placement
    rules. *)
Theorem isGameOver_full_board (b : HexukiBitboard) :
  (isGameOver b = true
   <-> forall h, 0 <= h < NUM_HEXES -> isHexOccupied b h = true)
  /\ (isGameOver b = true <-> emptyCount b = 0%nat)
  /\ (isGameOver b = true -> getValidMoves b = Some []).
Proof.
  split; [|split].
  - rewrite isGameOver_emptyCount. apply emptyCount_zero.
  - apply isGameOver_emptyCount.
  - intros Hover%isGameOver_emptyCount. unfold getValidMoves.
    apply getValidMoves_full. intros h Hh%elem_of_seqZ.
    apply emptyCount_zero; [exact Hover|lia].
Qed.

Lemma filter_ext_elem {A : Type} (P Q : A -> Prop) `{!forall x, Decision (P x)}
  `{!forall x, Decision (Q x)} (l : list A) :
  (forall x, x ∈ l -> P x <-> Q x) -> filter P l = filter Q l.
Proof.
  induction l as [|x l IH]; intros Hext; [reflexivity|].
  rewrite !filter_cons, IH by (intros y Hy; apply Hext; by right).
  destruct (decide (P x)) as [Hp|Hp].
  - rewrite decide_True; [reflexivity|]. apply Hext; [by left|exact Hp].
  - rewrite decide_False; [reflexivity|]. intros Hq. apply Hp, Hext; [by left|exact Hq].
Qed.

Lemma length_filter_remove {A : Type} (P Q : A -> Prop)
  `{!forall x, Decision (P x)} `{!forall x, Decision (Q x)} (l : list A) (h : A) :
  NoDup l -> h ∈ l -> P h -> (forall x, Q x <-> P x /\ x <> h) ->
  length (filter P l) = S (length (filter Q l)).
Proof.
  intros Hnd Hin Hp Hq. induction Hnd as [|x l Hx Hnd IH]; [by apply elem_of_nil in Hin|].
  rewrite !filter_cons. apply elem_of_cons in Hin as [<-|Hin].
  - rewrite decide_True by exact Hp.
    rewrite decide_False by (intros [_ Hne]%Hq; done).
    cbn [length]. f_equal. f_equal. apply filter_ext_elem.
    intros y Hy. rewrite Hq. split; [|tauto]. intros Hpy. split; [exact Hpy|].
    intros ->. done.
  - assert (x <> h) as Hne by (intros ->; done).
    destruct (decide (P x)) as [Hpx|Hpx].
    + rewrite decide_True by (apply Hq; done). cbn [length]. f_equal. by apply IH.
    + rewrite decide_False by (intros [? _]%Hq; done). by apply IH.
Qed.

Lemma emptyCount_makeMove_exact (b : HexukiBitboard) (m : Move) :
  0 <= hexOccupied b < 2 ^ 32 -> ontoEmptyHex (hexOccupied b) m ->
  emptyCount b = S (emptyCount (makeMove b m)).
Proof.
  intros Hocc [Hh Hempty]. unfold emptyCount.
  apply (length_filter_remove _ _ _ (hexId m)).
  - apply NoDup_seqZ.
  - apply elem_of_seqZ. lia.
  - exact Hempty.
  - intros x. unfold isHexOccupied. rewrite hexOccupied_makeMove.
    rewrite placed_testbit by (unfold NUM_HEXES in Hh; lia).
    rewrite orb_false_iff, Z.eqb_neq. tauto.
Qed.

(** X10.  Along a line of play every move fills one empty hex: a line of
    [n] moves leaves [n] fewer empty hexes, so no line is longer than the
    number of empty hexes (19 at most), and the game is over after it
    exactly when the line has as many moves as there were empty hexes. *)
Theorem playable_line_length (b : HexukiBitboard) (ms : list Move) :
  0 <= hexOccupied b < 2 ^ 32 -> playable b ms ->
  (length ms + emptyCount (makeMoves b ms) = emptyCount b)%nat
  /\ (length ms <= 19)%nat
  /\ (isGameOver (makeMoves b ms) = true <-> length ms = emptyCount b).
Proof.
  intros Hocc Hplay.
  assert (length ms + emptyCount (makeMoves b ms) = emptyCount b)%nat as Hsum.
  { revert b Hocc Hplay. induction ms as [|m rest IH]; intros b Hocc Hplay;
      [reflexivity|].
    destruct Hplay as [Hm Hrest]. unfold makeMoves. cbn [fold_left length]. fold (makeMoves (makeMove b m) rest).
    rewrite (emptyCount_makeMove_exact b m Hocc (proj1 Hm)).
    rewrite <- (IH (makeMove b m)); [lia| |exact Hrest].
    rewrite hexOccupied_makeMove. apply wrap_u32_range. }
  split; [exact Hsum|]. pose proof (emptyCount_bound b). split; [lia|].
  rewrite isGameOver_emptyCount. lia.
Qed.

(** ** Killer moves and history scores *)

Lemma Move_eqb_refl (m : Move) : Move_eqb m m = true.
Proof. unfold Move_eqb. by rewrite !Z.eqb_refl. Qed.

Lemma arr_get_insert_eq {A : Type} (a : list A) (i : Z) (x : A) :
  0 <= i < Z.of_nat (length a) -> arr_get (<[Z.to_nat i := x]> a) i = Some x.
Proof.
  intros Hi. unfold arr_get. destruct (Z.ltb_spec i 0); [lia|].
  apply list_lookup_insert_eq. lia.
Qed.

Lemma arr_get_insert_ne {A : Type} (a : list A) (i j : Z) (x : A) :
  0 <= i -> i <> j -> arr_get (<[Z.to_nat i := x]> a) j = arr_get a j.
Proof.
  intros Hi Hne. unfold arr_get. destruct (Z.ltb_spec j 0); [reflexivity|].
  apply list_lookup_insert_ne. lia.
Qed.

(** X11.  [KillerMoves::update] at a ply within the table makes the move a
    killer of that ply and keeps the former first killer as one (it moves to
    the second slot, whose former content is dropped); the killers of every
    other ply are as before. *)
Theorem KillerMoves_update_isKiller (k : KillerMoves) (ply : Z) (m : Move) :
  KillerMoves_sized k -> 0 <= ply < KILLER_MAX_DEPTH ->
  exists k',
    KillerMoves_update k ply m = Some k'
    /\ KillerMoves_isKiller k' ply m = Some true
    /\ (forall m0, arr_get (killer1 k) ply = Some m0 ->
                   KillerMoves_isKiller k' ply m0 = Some true)
    /\ (forall ply' m', ply' <> ply ->
          KillerMoves_isKiller k' ply' m' = KillerMoves_isKiller k ply' m').
Proof.
  intros [H1 H2] Hply. unfold KillerMoves_update.
  assert ((ply <? 0) || (ply >=? KILLER_MAX_DEPTH) = false) as Hg.
  { apply orb_false_iff. split; [apply Z.ltb_ge; lia|].
    rewrite Z.geb_leb. apply Z.leb_gt. lia. }
  rewrite Hg.
  destruct (arr_get_is_Some (killer1 k) ply) as [k1 Hk1]; [lia|].
  rewrite Hk1. cbn [mbind option_bind].
  destruct (Move_eqb m k1) eqn:Hm; cbn [negb].
  - exists k. split; [reflexivity|]. split; [|split; [|done]].
    + unfold KillerMoves_isKiller. rewrite Hg, Hk1. cbn [mbind option_bind].
      by rewrite Hm.
    + intros m0 Hm0. assert (m0 = k1) as -> by congruence.
      unfold KillerMoves_isKiller. rewrite Hg, Hk1. cbn [mbind option_bind].
      by rewrite Move_eqb_refl.
  - rewrite (arr_set_is_Some (killer2 k)) by lia. cbn [mbind option_bind].
    rewrite (arr_set_is_Some (killer1 k)) by lia. cbn [mbind option_bind].
    eexists. split; [reflexivity|]. split; [|split].
    + unfold KillerMoves_isKiller. rewrite Hg. cbn [killer1 killer2].
      rewrite !arr_get_insert_eq by lia. cbn [mbind option_bind].
      by rewrite Move_eqb_refl.
    + intros m0 Hm0. assert (m0 = k1) as -> by congruence.
      unfold KillerMoves_isKiller. rewrite Hg. cbn [killer1 killer2].
      rewrite !arr_get_insert_eq by lia. cbn [mbind option_bind].
      destruct (Move_eqb k1 m); [reflexivity|]. cbn [mbind option_bind].
      by rewrite Move_eqb_refl.
    + intros ply' m' Hne. unfold KillerMoves_isKiller. cbn [killer1 killer2].
      destruct ((ply' <? 0) || (ply' >=? KILLER_MAX_DEPTH)); [reflexivity|].
      rewrite !arr_get_insert_ne by lia. reflexivity.
Qed.

(** X12.  [HistoryTable::update] with a move inside the table adds
    [depth * depth] (in [int] arithmetic) to the score that [getScore] reports
    for it and leaves the score of every other (hex, tile) pair as it was;
    with a move outside the table it changes nothing, and [getScore] reports
    0 for such a move. *)
Theorem HistoryTable_update_getScore (t : HistoryTable) (m : Move) (d : Z) :
  HistoryTable_sized t ->
  exists t',
    HistoryTable_update t m d = Some t'
    /\ (HistoryTable_inRange m = true ->
        exists old,
          HistoryTable_getScore t m = Some old
          /\ HistoryTable_getScore t' m = Some (int_add old (int_mul d d)))
    /\ (HistoryTable_inRange m = false ->
        t' = t /\ HistoryTable_getScore t m = Some 0)
    /\ (forall m', hexId m' <> hexId m \/ tileValue m' <> tileValue m ->
          HistoryTable_getScore t' m' = HistoryTable_getScore t m').
Proof.
  intros Hs. unfold HistoryTable_update.
  destruct (HistoryTable_inRange m) eqn:Hr.
  2:{ exists t. split; [reflexivity|]. split; [discriminate|]. split; [|done].
      intros _. split; [reflexivity|]. unfold HistoryTable_getScore. by rewrite Hr. }
  destruct (HistoryTable_row t m Hs Hr) as (r & Hrow & Hlen).
  pose proof Hr as Hr'. apply HistoryTable_inRange_spec in Hr' as [Hh Ht].
  destruct Hs as [Hs1 Hs2].
  destruct (arr_get_is_Some r (tileValue m)) as [old Hold]; [lia|].
  rewrite Hrow. cbn [mbind option_bind]. rewrite Hold. cbn [mbind option_bind].
  rewrite (arr_set_is_Some r) by lia. cbn [mbind option_bind].
  rewrite (arr_set_is_Some (scores t)) by lia. cbn [mbind option_bind].
  eexists. split; [reflexivity|]. split; [|split; [discriminate|]].
  - intros _. exists old. unfold HistoryTable_getScore. rewrite Hr, Hrow.
    cbn [mbind option_bind scores]. split; [exact Hold|].
    rewrite arr_get_insert_eq by lia. cbn [mbind option_bind].
    apply arr_get_insert_eq. lia.
  - intros m' Hne. unfold HistoryTable_getScore. cbn [scores].
    destruct (HistoryTable_inRange m') eqn:Hr'; [|reflexivity].
    destruct (Z.eq_dec (hexId m') (hexId m)) as [Heq|Hneq].
    + rewrite Heq, Hrow. rewrite arr_get_insert_eq by lia. cbn [mbind option_bind].
      apply arr_get_insert_ne; [lia|]. destruct Hne as [Hne|Hne]; [done|].
      intros Heq'. by apply Hne.
    + rewrite arr_get_insert_ne by (lia || (intros Heq; by apply Hneq)). reflexivity.
Qed.

(** ** Scores *)

Lemma wrap_i32_mod (x : Z) : wrap_i32 (x mod 2 ^ 32) = wrap_i32 x.
Proof. unfold wrap_i32. f_equal. by rewrite Zplus_mod_idemp_l. Qed.

Lemma wrap_i32_congr (a b : Z) :
  a mod 2 ^ 32 = b mod 2 ^ 32 -> wrap_i32 a = wrap_i32 b.
Proof. intros Heq. rewrite <- (wrap_i32_mod a), Heq. apply wrap_i32_mod. Qed.

Lemma wrap_i32_mod_eq (x : Z) : wrap_i32 x mod 2 ^ 32 = x mod 2 ^ 32.
Proof.
  unfold wrap_i32. rewrite Zminus_mod_idemp_l. f_equal. lia.
Qed.

Lemma wrap_i32_range (x : Z) : - 2 ^ 31 <= wrap_i32 x < 2 ^ 31.
Proof.
  unfold wrap_i32. pose proof (Z.mod_pos_bound (x + 2 ^ 31) (2 ^ 32)). lia.
Qed.

Lemma wrap_i32_small (x : Z) : - 2 ^ 31 <= x < 2 ^ 31 -> wrap_i32 x = x.
Proof. intros Hx. unfold wrap_i32. rewrite Z.mod_small; lia. Qed.

Lemma wrap_i32_mul_l (a b : Z) : wrap_i32 (wrap_i32 a * b) = wrap_i32 (a * b).
Proof.
  apply wrap_i32_congr. rewrite Z.mul_mod, wrap_i32_mod_eq, <- Z.mul_mod by lia.
  reflexivity.
Qed.

Lemma wrap_i32_add_l (a b : Z) : wrap_i32 (wrap_i32 a + b) = wrap_i32 (a + b).
Proof.
  apply wrap_i32_congr. rewrite Z.add_mod, wrap_i32_mod_eq, <- Z.add_mod by lia.
  reflexivity.
Qed.

Lemma wrap_i32_add_r (a b : Z) : wrap_i32 (a + wrap_i32 b) = wrap_i32 (a + b).
Proof. rewrite (Z.add_comm a), wrap_i32_add_l. f_equal. lia. Qed.

Lemma chainProduct_exact (b : HexukiBitboard) (chain : Z -> Z) (idx : list Z) (p : Z) :
  wrap_i32 (chainProduct b chain idx p)
  = wrap_i32 (p * foldr Z.mul 1
                    (getTileValue b <$> filter (fun h => isHexOccupied b h = true)
                                               (untilPadding (chain <$> idx)))).
Proof.
  revert p. induction idx as [|i rest IH]; intros p;
    cbn [chainProduct fmap list_fmap untilPadding].
  - cbn. f_equal. lia.
  - destruct (chain i <? 0); [cbn; f_equal; lia|].
    rewrite filter_cons, IH. destruct (isHexOccupied b (chain i)).
    + rewrite decide_True by done. cbn [fmap list_fmap foldr].
      unfold int_mul. rewrite wrap_i32_mul_l. f_equal. lia.
    + rewrite decide_False by done. reflexivity.
Qed.

Lemma chainProduct_range (b : HexukiBitboard) (chain : Z -> Z) (idx : list Z) (p : Z) :
  - 2 ^ 31 <= p < 2 ^ 31 -> - 2 ^ 31 <= chainProduct b chain idx p < 2 ^ 31.
Proof.
  revert p. induction idx as [|i rest IH]; intros p Hp; cbn [chainProduct]; [exact Hp|].
  destruct (chain i <? 0); [exact Hp|]. apply IH.
  destruct (isHexOccupied b (chain i)); [apply wrap_i32_range|exact Hp].
Qed.

Lemma calculateChainScore_exact (b : HexukiBitboard) (chain : Z -> Z) (n : Z) :
  calculateChainScore b chain n = wrap_i32 (spec_chainScore b chain n).
Proof.
  unfold calculateChainScore, spec_chainScore.
  rewrite <- (wrap_i32_small (chainProduct b chain (seqZ 0 n) 1))
    by (apply chainProduct_range; lia).
  rewrite chainProduct_exact. f_equal. lia.
Qed.

Lemma sumScores_exact (f g : Z -> Z) (l : list Z) (total : Z) :
  (forall i, f i = wrap_i32 (g i)) ->
  wrap_i32 (fold_left (fun total i => int_add total (f i)) l total)
  = wrap_i32 (total + foldr Z.add 0 (g <$> l)).
Proof.
  intros Hf. revert total. induction l as [|i l IH]; intros total;
    cbn [fold_left fmap list_fmap foldr].
  - f_equal. lia.
  - rewrite IH. unfold int_add. rewrite wrap_i32_add_l, Hf.
    set (rest := foldr Z.add 0 (g <$> l)).
    replace (total + wrap_i32 (g i) + rest) with (wrap_i32 (g i) + (total + rest))
      by lia.
    rewrite wrap_i32_add_l. f_equal. lia.
Qed.

Lemma sumScores_range (f : Z -> Z) (l : list Z) (total : Z) :
  - 2 ^ 31 <= total < 2 ^ 31 ->
  - 2 ^ 31 <= fold_left (fun total i => int_add total (f i)) l total < 2 ^ 31.
Proof.
  revert total. induction l as [|i l IH]; intros total Ht; cbn [fold_left]; [exact Ht|].
  apply IH. apply wrap_i32_range.
Qed.

Lemma getScore_wrap (b : HexukiBitboard) (player : Z) :
  getScore b player = wrap_i32 (spec_playerScore b player).
Proof.
  unfold getScore, calculatePlayerScore, spec_playerScore.
  destruct (player =? PLAYER_1).
  - etransitivity; [symmetry; apply wrap_i32_small, sumScores_range; lia|].
    rewrite (sumScores_exact _
               (fun i => spec_chainScore b (P1_CHAINS i) (P1_CHAIN_LENGTHS i)))
      by (intros i; apply calculateChainScore_exact).
    f_equal.
  - etransitivity; [symmetry; apply wrap_i32_small, sumScores_range; lia|].
    rewrite (sumScores_exact _
               (fun i => spec_chainScore b (P2_CHAINS i) (P2_CHAIN_LENGTHS i)))
      by (intros i; apply calculateChainScore_exact).
    f_equal.
Qed.

(** X13.  The score of a player is the sum, over the chains of that player,
    of the product of the tiles that lie on the chain, a chain without tiles
    counting 1; the [int] arithmetic of the loops amounts to reducing this
    exact number to 32 bits once, so the score is exact whenever the exact
    number fits an [int].  [evaluate] is the difference of the two exact
    scores, mover first, reduced in the same way. *)
Theorem getScore_exact (b : HexukiBitboard) (player : Z) :
  getScore b player = wrap_i32 (spec_playerScore b player)
  /\ (- 2 ^ 31 <= spec_playerScore b player < 2 ^ 31 ->
      getScore b player = spec_playerScore b player)
  /\ evaluate b
     = wrap_i32 (if currentPlayer b =? PLAYER_1
                 then spec_playerScore b PLAYER_1 - spec_playerScore b PLAYER_2
                 else spec_playerScore b PLAYER_2 - spec_playerScore b PLAYER_1).
Proof.
  split; [apply getScore_wrap|]. split.
  - intros Hfit. rewrite getScore_wrap. by apply wrap_i32_small.
  - unfold evaluate, int_sub. rewrite !getScore_wrap.
    assert (forall x y, wrap_i32 (wrap_i32 x - wrap_i32 y) = wrap_i32 (x - y)) as Hsub.
    { intros x y. replace (wrap_i32 x - wrap_i32 y) with (wrap_i32 x + - wrap_i32 y)
        by lia.
      rewrite wrap_i32_add_l. replace (x + - wrap_i32 y) with (- (wrap_i32 y - x)) by lia.
      rewrite <- wrap_i32_neg.
      replace (wrap_i32 y - x) with (wrap_i32 y + - x) by lia.
      rewrite wrap_i32_add_l, wrap_i32_neg. f_equal. lia. }
    destruct (currentPlayer b =? PLAYER_1); apply Hsub.
Qed.

(** ** Loading a position *)

Lemma mask_bound (z n : Z) :
  0 <= n -> 0 <= z -> (forall i, n <= i -> Z.testbit z i = false) -> z < 2 ^ n.
Proof.
  intros Hn Hz Hbits.
  assert (z = z mod 2 ^ n) as ->.
  { apply Z.bits_inj'. intros i Hi. destruct (Z.ltb_spec i n).
    - by rewrite Z.mod_pow2_bits_low by lia.
    - rewrite Z.mod_pow2_bits_high by lia. apply Hbits. lia. }
  apply Z.mod_pos_bound. apply Z.pow_pos_nonneg; lia.
Qed.

Lemma mask_bits_high (z n i : Z) :
  0 <= z < 2 ^ n -> 0 <= n <= i -> Z.testbit z i = false.
Proof.
  intros Hz Hi. rewrite <- (Z.mod_small z (2 ^ n)) by lia.
  apply Z.mod_pow2_bits_high. lia.
Qed.

Lemma boardShape_ext (b1 b2 : HexukiBitboard) :
  hexOccupied b1 = hexOccupied b2 -> hexValues b1 = hexValues b2 ->
  boardShape b1 -> boardShape b2.
Proof.
  unfold boardShape, values_sized, isHexOccupied, getTileValue.
  by intros -> ->.
Qed.

Lemma setHexValue_shape (b : HexukiBitboard) (h v : Z) :
  boardShape b -> boardShape (setHexValue b h v).
Proof.
  intros Hshape. unfold setHexValue.
  destruct ((h <? 0) || (h >=? NUM_HEXES)) eqn:Hg; [exact Hshape|].
  apply orb_false_iff in Hg as [Hlo Hhi].
  apply Z.ltb_ge in Hlo. rewrite Z.geb_leb in Hhi. apply Z.leb_gt in Hhi.
  destruct Hshape as (Hocc & [Hlen Hbytes] & Hz). unfold NUM_HEXES in *.
  assert (0 <= hexOccupied b < 2 ^ 32) as Hocc32.
  { change (2 ^ 19) with 524288 in Hocc. change (2 ^ 32) with 4294967296. lia. }
  unfold boardShape, values_sized, isHexOccupied, getTileValue.
  cbn [hexOccupied hexValues set_zobristHash set_hexValues set_hexOccupied].
  split; [|split; [split|]].
  - split; [apply wrap_u32_range|]. unfold NUM_HEXES.
    apply mask_bound; [lia|apply wrap_u32_range|].
    intros i Hi. rewrite placed_testbit by lia.
    destruct (Z.eqb_spec i h); [lia|]. cbn [orb].
    apply (mask_bits_high _ 19); lia.
  - by rewrite length_insert.
  - apply Forall_insert; [exact Hbytes|]. unfold wrap_u8.
    apply Z.mod_pos_bound. lia.
  - intros h' Hh' Hempty. rewrite placed_testbit in Hempty by lia.
    apply orb_false_iff in Hempty as [Hne Hclear]. apply Z.eqb_neq in Hne.
    rewrite list_lookup_total_insert_ne by lia.
    apply (Hz h' Hh' Hclear).
Qed.

Lemma clearBoard_shape (b : HexukiBitboard) : boardShape (clearBoard b).
Proof.
  unfold boardShape, values_sized, clearBoard, isHexOccupied, getTileValue.
  cbn [hexOccupied hexValues set_zobristHash set_hexValues set_hexOccupied].
  split; [|split; [split|]].
  - unfold NUM_HEXES. lia.
  - reflexivity.
  - apply Forall_replicate. lia.
  - intros h Hh _. apply lookup_total_replicate_2. unfold NUM_HEXES in *. lia.
Qed.

Lemma parseHexPairs_shape (pairs : list (list ascii)) :
  forall b b', boardShape b -> parseHexPairs b pairs = Ok b' -> boardShape b'.
Proof.
  induction pairs as [|p rest IH]; intros b b' Hshape; cbn [parseHexPairs].
  - intros Heq. by assert (b' = b) as -> by congruence.
  - assert (forall b1, parseHexPair b p = Ok b1 -> boardShape b1) as Hpair.
    { intros b1. unfold parseHexPair.
      destruct (length p <? 4)%nat; [intros Heq; by assert (b1 = b) as -> by congruence|].
      destruct (string_find ":" p) as [colonPos|];
        [|intros Heq; by assert (b1 = b) as -> by congruence].
      destruct (stoi (hexIdText p colonPos)) as [h|e]; [|discriminate].
      cbn [result_bind].
      destruct (stoi (drop (S colonPos) p)) as [v|e]; [|discriminate].
      cbn [result_bind]. intros Heq.
      assert (b1 = setHexValue b h v) as -> by congruence.
      by apply setHexValue_shape. }
    destruct (parseHexPair b p) as [b1|e]; [|discriminate].
    cbn [result_bind]. apply IH. by apply Hpair.
Qed.

Lemma parseSection_shape (section : list ascii) (b b' : HexukiBitboard) :
  boardShape b -> parseSection b section = Ok b' -> boardShape b'.
Proof.
  intros Hshape. unfold parseSection.
  destruct section as [|c0 rest]; [intros Heq; by assert (b' = b) as -> by congruence|].
  destruct (Ascii.eqb c0 "h"); [by apply parseHexPairs_shape|].
  destruct (bool_decide (take 3 (c0 :: rest) = P1_PREFIX)).
  { destruct (parseTiles _ _) as [tiles|e]; [|discriminate]. cbn [result_bind].
    intros Heq. assert (b' = setAvailableTiles b PLAYER_1 tiles) as -> by congruence.
    by apply (boardShape_ext b). }
  destruct (bool_decide (take 3 (c0 :: rest) = P2_PREFIX)).
  { destruct (parseTiles _ _) as [tiles|e]; [|discriminate]. cbn [result_bind].
    intros Heq. assert (b' = setAvailableTiles b PLAYER_2 tiles) as -> by congruence.
    by apply (boardShape_ext b). }
  destruct (bool_decide (take 5 (c0 :: rest) = TURN_PREFIX)).
  { destruct (stoi _) as [p|e]; [|discriminate]. cbn [result_bind].
    intros Heq. assert (b' = set_currentPlayer b p) as -> by congruence.
    by apply (boardShape_ext b). }
  intros Heq. by assert (b' = b) as -> by congruence.
Qed.

Lemma parseSections_shape (sections : list (list ascii)) :
  forall b b', boardShape b -> parseSections b sections = Ok b' -> boardShape b'.
Proof.
  induction sections as [|s rest IH]; intros b b' Hshape; cbn [parseSections].
  - intros Heq. by assert (b' = b) as -> by congruence.
  - destruct (parseSection b s) as [b1|e] eqn:Hs; [|discriminate].
    cbn [result_bind]. apply IH. by apply (parseSection_shape s b).
Qed.

(** What [loadPosition] does once the text is parsed. *)
Lemma loadPosition_parsed (prev b : HexukiBitboard) (position : string) :
  loadPosition prev position = Ok b ->
  exists b3,
    boardShape b3
    /\ sameContent b b3
    /\ symmetryStillPossible b = symmetryPossible b3
    /\ tilesAreIdentical b = tilesMatch (p1AvailableTiles b3) (p2AvailableTiles b3).
Proof.
  unfold loadPosition.
  set (b2 := set_currentPlayer _ PLAYER_1).
  assert (boardShape b2) as Hshape2.
  { apply (boardShape_ext (clearBoard prev)); [reflexivity..|apply clearBoard_shape]. }
  destruct (parseSections b2 _) as [b3|e] eqn:Hparse; [|discriminate].
  cbn [result_bind]. intros Heq. exists b3.
  split; [by apply (parseSections_shape _ b2 b3 Hshape2 Hparse)|].
  assert (b = set_zobristHash
                (set_tilesAreIdentical
                   (set_symmetryStillPossible b3 (symmetryPossible b3))
                   (tilesMatch
                      (p1AvailableTiles (set_symmetryStillPossible b3 (symmetryPossible b3)))
                      (p2AvailableTiles (set_symmetryStillPossible b3 (symmetryPossible b3)))))
                (Zobrist_hash
                   (set_tilesAreIdentical
                      (set_symmetryStillPossible b3 (symmetryPossible b3))
                      (tilesMatch
                         (p1AvailableTiles
                            (set_symmetryStillPossible b3 (symmetryPossible b3)))
                         (p2AvailableTiles
                            (set_symmetryStillPossible b3 (symmetryPossible b3)))))))
    as -> by congruence.
  by repeat split.
Qed.

Lemma tilesMatch_perm (tiles1 tiles2 : list Z) :
  tilesMatch tiles1 tiles2 = true <-> tiles1 ≡ₚ tiles2.
Proof.
  unfold tilesMatch. destruct (Nat.eqb_spec (length tiles1) (length tiles2)) as [Hlen|Hlen];
    cbn [negb].
  - rewrite bool_decide_eq_true. split.
    + intros Heq. rewrite <- (merge_sort_Permutation Z.le tiles1), Heq.
      apply merge_sort_Permutation.
    + intros Hperm. apply (Sorted_unique Z.le).
      * apply Sorted_merge_sort. apply _.
      * apply Sorted_merge_sort. apply _.
      * by rewrite !merge_sort_Permutation.
  - split; [discriminate|]. intros Hperm%Permutation_length. done.
Qed.

(** X14.  A position that [loadPosition] returns, whatever the text and the
    position held before, has a mask with bits for the 19 hexes only, a byte
    in each cell of the value array and 0 in the cells of the empty hexes;
    its flag [tilesAreIdentical] says whether the two bags hold the same
    tiles; and when the text names player 1 or 2 as the side to move, the
    position satisfies the representation invariant that [makeMove],
    [unmakeMove] and the search rely on.  The side to move is taken from the
    text as it is: [loadPosition] does not check it. *)
Theorem loadPosition_wellformed (prev b : HexukiBitboard) (position : string) :
  loadPosition prev position = Ok b ->
  0 <= hexOccupied b < 2 ^ NUM_HEXES
  /\ values_sized b
  /\ (forall h, 0 <= h < NUM_HEXES -> isHexOccupied b h = false ->
                getTileValue b h = 0)
  /\ (tilesAreIdentical b = true <-> p1AvailableTiles b ≡ₚ p2AvailableTiles b)
  /\ (currentPlayer b = PLAYER_1 \/ currentPlayer b = PLAYER_2 -> Position_wf b).
Proof.
  intros Hload.
  destruct (loadPosition_parsed prev b position Hload)
    as (b3 & Hshape3 & (Ho & Hv & Hp1 & Hp2 & Hcp) & _ & Hti).
  assert (boardShape b) as (Hocc & Hvals & Hz)
    by (by apply (boardShape_ext b3)).
  split; [exact Hocc|]. split; [exact Hvals|]. split; [exact Hz|]. split.
  - rewrite Hti, Hp1, Hp2. apply tilesMatch_perm.
  - intros Hturn. split; [|split; [exact Hturn|exact Hz]].
    unfold NUM_HEXES in Hocc. change (2 ^ 19) with 524288 in Hocc.
    change (2 ^ 32) with 4294967296. lia.
Qed.

(** *** The position held before *)







Lemma symmetryPossible_ext (b1 b2 : HexukiBitboard) :
  hexValues b1 = hexValues b2 -> symmetryPossible b1 = symmetryPossible b2.
Proof. intros Hv. unfold symmetryPossible, getTileValue. by rewrite Hv. Qed.

Lemma Zobrist_hash_ext (b1 b2 : HexukiBitboard) :
  hexOccupied b1 = hexOccupied b2 -> hexValues b1 = hexValues b2 ->
  currentPlayer b1 = currentPlayer b2 -> Zobrist_hash b1 = Zobrist_hash b2.
Proof.
  intros Ho Hv Hc. unfold Zobrist_hash, isHexOccupied, getTileValue.
  by rewrite Ho, Hv, Hc.
Qed.


(** *** The mirror test on a loaded position *)

Lemma symmetryPossible_symmetric (b : HexukiBitboard) :
  mirrorSymmetric b -> symmetryPossible b = true.
Proof.
  intros Hsym. unfold symmetryPossible. apply negb_true_iff.
  apply not_true_iff_false. intros (h & Hh & Hbad)%existsb_exists.
  apply list_elem_of_In, elem_of_seqZ in Hh.
  destruct (existsb (fun i => h =? CENTER_COLUMN_HEXES i) (seqZ 0 5)) eqn:Hc;
    [discriminate|].
  assert (~ isCenterHex h) as Hnc.
  { intros Hx%centerTest_spec. congruence. }
  rewrite (Hsym h) in Hbad by (done || lia).
  rewrite Z.eqb_refl in Hbad. cbn [negb] in Hbad.
  by rewrite andb_false_r in Hbad.
Qed.

(** X16.  [isBoardMirrored] answers true exactly when the flag
    [symmetryStillPossible] is set and every hex off the centre column holds
    the same value as its mirror image: its two tests (one of the pair empty
    and the other not; both occupied with different tiles) together amount
    to comparing the two values.  On a position that [loadPosition] has just
    returned the flag is no obstacle: there the answer is true exactly when
    the board is mirror symmetric. *)
Theorem isBoardMirrored_iff (b : HexukiBitboard) :
  (isBoardMirrored b = true
   <-> symmetryStillPossible b = true /\ mirrorSymmetric b)
  /\ (forall prev position,
        loadPosition prev position = Ok b ->
        (isBoardMirrored b = true <-> mirrorSymmetric b)).
Proof.
  split; [apply isBoardMirrored_flag|].
  intros prev position Hload. rewrite isBoardMirrored_flag.
  split; [by intros [_ ?]|]. intros Hsym. split; [|exact Hsym].
  destruct (loadPosition_parsed prev b position Hload)
    as (b3 & _ & (_ & Hv & _) & Hsy & _).
  rewrite Hsy, <- (symmetryPossible_ext b b3 Hv). by apply symmetryPossible_symmetric.
Qed.

(** ** Bags of tiles *)

(** X17.  [tilesMatch] answers true exactly when the two bags hold the same
    tiles with the same multiplicities, in any order; so after [reset] the
    flag [tilesAreIdentical] is set. *)
Theorem tilesMatch_iff_Permutation (tiles1 tiles2 : list Z) :
  (tilesMatch tiles1 tiles2 = true <-> tiles1 ≡ₚ tiles2)
  /\ forall b, tilesAreIdentical (reset b) = true.
Proof.
  split; [apply tilesMatch_perm|]. intros b. unfold reset.
  cbn [tilesAreIdentical set_zobristHash]. by apply tilesMatch_perm.
Qed.

(** ** The move that the search returns *)

Lemma orderMoves_Some_perm (moves : list Move) (tt : option TTEntry) (k : KillerMoves)
  (h : HistoryTable) (ply : Z) (ordered : list Move) :
  orderMoves moves tt k h ply = Some ordered -> ordered ≡ₚ moves.
Proof.
  unfold orderMoves.
  set (F := fun '(i, move) => orderingScore tt k h ply move ≫= fun s => Some (s, i)).
  destruct (mapM F (imap (fun i move => (i, move)) moves)) as [moveScores|] eqn:Hscores;
    [|discriminate].
  cbn [mbind option_bind]. intros Hord.
  apply mapM_Some in Hscores. apply mapM_Some in Hord.
  set (g := fun p : Z * nat => default (mkMove 0 0) (moves !! p.2)).
  assert (forall i p, moveScores !! i = Some p -> p.2 = i) as Hidx.
  { intros i p Hp.
    destruct (Forall2_lookup_r _ _ _ _ _ Hscores Hp) as ([j m] & Hjm & HF).
    rewrite list_lookup_imap in Hjm.
    destruct (moves !! i) as [m'|]; [|discriminate].
    cbn in Hjm. assert (j = i) as -> by congruence.
    unfold F in HF. destruct (orderingScore tt k h ply m) as [sc|]; [|discriminate].
    cbn in HF. by assert (p = (sc, i)) as -> by congruence. }
  assert (length moveScores = length moves) as Hlen.
  { rewrite <- (Forall2_length _ _ _ Hscores). apply length_imap. }
  assert (g <$> moveScores = moves) as Hmoves.
  { apply list_eq. intros i. rewrite list_lookup_fmap.
    destruct (moveScores !! i) as [p|] eqn:Hp; cbn.
    - unfold g. rewrite (Hidx i p Hp).
      apply lookup_lt_Some in Hp. rewrite Hlen in Hp.
      destruct (lookup_lt_is_Some_2 moves i Hp) as [m ->]. reflexivity.
    - apply lookup_ge_None in Hp. symmetry. apply lookup_ge_None. lia. }
  assert (ordered = g <$> sortByScore moveScores) as ->.
  { apply list_eq. intros i. rewrite list_lookup_fmap.
    destruct (sortByScore moveScores !! i) as [p|] eqn:Hp; cbn.
    - destruct (Forall2_lookup_l _ _ _ _ _ Hord Hp) as (m & Hm & Hpm).
      rewrite Hm. unfold g. by rewrite Hpm.
    - apply lookup_ge_None in Hp. apply lookup_ge_None.
      by rewrite <- (Forall2_length _ _ _ Hord). }
  rewrite sortByScore_perm. by rewrite Hmoves.
Qed.

Lemma searchRootID_bestMove (clk : nat -> Z) (fuel : nat) (limit d : Z) :
  forall moves acc s t acc' s',
    searchRootID clk fuel limit d moves acc s = Some (t, acc', s') ->
    r_bestMove acc' = r_bestMove acc \/ r_bestMove acc' ∈ moves.
Proof.
  induction moves as [|m rest IH]; intros acc s t acc' s'; cbn [searchRootID].
  - intros Heq. left. congruence.
  - destruct (alphaBeta _ _ _ _ _ _ _ _) as [[r s2]|]; [|discriminate].
    cbn [mbind option_bind]. unfold readClock.
    destruct (clk _ >=? limit); [intros Heq; left; congruence|].
    intros Heq. apply IH in Heq. destruct Heq as [Heq|Hin]; [|right; by right].
    rewrite Heq. destruct (int_neg r >? r_bestScore acc); cbn [r_bestMove].
    + right. by left.
    + by left.
Qed.

Lemma searchRootSingle_bestMove (clk : nat -> Z) (fuel : nat) (limit d : Z) :
  forall moves acc s acc' s',
    searchRootSingle clk fuel limit d moves acc s = Some (acc', s') ->
    r_bestMove acc' = r_bestMove acc \/ r_bestMove acc' ∈ moves.
Proof.
  induction moves as [|m rest IH]; intros acc s acc' s'; cbn [searchRootSingle].
  - intros Heq. left. congruence.
  - destruct (alphaBeta _ _ _ _ _ _ _ _) as [[r s2]|]; [|discriminate].
    cbn [mbind option_bind].
    intros Heq. apply IH in Heq. destruct Heq as [Heq|Hin]; [|right; by right].
    rewrite Heq. destruct (int_neg r >? r_bestScore acc); cbn [r_bestMove].
    + right. by left.
    + by left.
Qed.

Lemma idDepth_bestMove (clk : nat -> Z) (fuel : nat) (config : SearchConfig)
  (moves : list Move) (d : Z) (st st' : Driver) (continue : bool) :
  d_moves st ≡ₚ moves ->
  d_bestMove st ∈ moves \/ d_bestMove st = Move_default ->
  idDepth clk fuel config d st = Some (continue, st') ->
  d_moves st' ≡ₚ moves
  /\ (d_bestMove st' ∈ moves \/ d_bestMove st' = Move_default).
Proof.
  intros Hperm Hbest. unfold idDepth, idRootSearch.
  destruct (if d >? 1 then _ else Some (d_moves st)) as [ordered|] eqn:Hord;
    [|discriminate].
  assert (ordered ≡ₚ moves) as Hperm'.
  { destruct (d >? 1).
    - apply orderMoves_Some_perm in Hord. by rewrite Hord.
    - by assert (ordered = d_moves st) as -> by congruence. }
  cbn [mbind option_bind].
  destruct (searchRootID _ _ _ _ _ _ _) as [[[timedOut acc] s1]|] eqn:Hroot;
    [|discriminate].
  cbn [mbind option_bind]. apply searchRootID_bestMove in Hroot.
  cbn [r_bestMove] in Hroot. destruct timedOut.
  - intros Heq. assert (st' = mkDriver ordered (d_bestMove st) (d_bestScore st)
                                 (with_result_timeout (d_result st)) s1) as ->
      by congruence.
    by split.
  - intros Heq.
    assert (st' = mkDriver ordered (r_bestMove acc) (r_bestScore acc)
                    (with_result_depth (d_result st) d (s_nodes s1)) s1) as ->
      by congruence.
    split; [exact Hperm'|]. cbn [d_bestMove].
    destruct Hroot as [->|Hin]; [by right|]. left. by rewrite <- Hperm'.
Qed.

Lemma idLoop_bestMove (clk : nat -> Z) (fuel : nat) (config : SearchConfig)
  (moves : list Move) (n : nat) :
  forall d st st',
    d_moves st ≡ₚ moves ->
    d_bestMove st ∈ moves \/ d_bestMove st = Move_default ->
    idLoop clk fuel config n d st = Some st' ->
    d_bestMove st' ∈ moves \/ d_bestMove st' = Move_default.
Proof.
  induction n as [|n IH]; intros d st st' Hperm Hbest; cbn [idLoop].
  - intros Heq. by assert (st' = st) as -> by congruence.
  - destruct (idDepth clk fuel config d st) as [[continue st1]|] eqn:Hdepth;
      [|discriminate].
    cbn [mbind option_bind].
    destruct (idDepth_bestMove clk fuel config moves d st st1 continue Hperm Hbest Hdepth)
      as [Hperm1 Hbest1].
    destruct continue; [by apply IH|].
    intros Heq. by assert (st' = st1) as -> by congruence.
Qed.

Lemma finishSearch_bestMove (clk : nat -> Z) (st : Driver) :
  bestMove (d_result (finishSearch clk st)) = d_bestMove st.
Proof. reflexivity. Qed.

Lemma findBestMove_bestMove (clk : nat -> Z) (fuel : nat) (b b' : HexukiBitboard)
  (config : SearchConfig) (moves : list Move) (r : SearchResult) :
  getValidMoves b = Some moves ->
  findBestMove clk fuel b config = Some (r, b') ->
  (bestMove r ∈ moves \/ bestMove r = Move_default)
  /\ (moves = [] -> bestMove r = Move_default)
  /\ (useIterativeDeepening config = false -> moves <> [] -> bestMove r ∈ moves).
Proof.
  intros Hmoves. unfold findBestMove.
  destruct (findBestMoveDriver clk fuel b config) as [st|] eqn:Hdriver; [|discriminate].
  cbn [mbind option_bind]. intros Heq.
  assert (r = d_result st) as -> by congruence. clear Heq.
  unfold findBestMoveDriver in Hdriver. rewrite Hmoves in Hdriver.
  cbn [mbind option_bind] in Hdriver.
  destruct moves as [|first [|second rest]].
  - assert (st = mkDriver [] Move_default 0
                   (mkResult Move_default (evaluate b) 0 0 0 false 0 0)
                   (searchStart b config)) as -> by congruence.
    cbn [d_result bestMove]. split; [by right|]. split; [done|]. by intros _ ?.
  - destruct (alphaBeta _ _ _ _ _ _ _ _) as [[sc s2]|]; [|discriminate].
    cbn [mbind option_bind] in Hdriver. unfold readClock in Hdriver.
    assert (bestMove (d_result st) = first) as ->.
    { apply (inj Some) in Hdriver. by rewrite <- Hdriver. }
    split; [left; by left|]. split; [done|]. intros _ _. by left.
  - destruct (useIterativeDeepening config).
    + destruct (idLoop _ _ _ _ _ _) as [st1|] eqn:Hloop; [|discriminate].
      cbn [mbind option_bind] in Hdriver.
      assert (st = finishSearch clk st1) as -> by congruence.
      rewrite finishSearch_bestMove.
      split; [|split; [done|discriminate]].
      eapply idLoop_bestMove; [| |exact Hloop]; [reflexivity|]. left. by left.
    + destruct (if useMoveOrdering config then _ else Some (first :: second :: rest))
        as [ordered|] eqn:Hord; [|discriminate].
      assert (ordered ≡ₚ first :: second :: rest) as Hperm.
      { destruct (useMoveOrdering config).
        - by apply orderMoves_Some_perm in Hord.
        - by assert (ordered = first :: second :: rest) as -> by congruence. }
      cbn [mbind option_bind] in Hdriver.
      destruct (searchRootSingle _ _ _ _ _ _ _) as [[acc s1]|] eqn:Hroot; [|discriminate].
      cbn [mbind option_bind] in Hdriver.
      apply searchRootSingle_bestMove in Hroot. cbn [r_bestMove] in Hroot.
      assert (bestMove (d_result st) = r_bestMove acc) as ->.
      { apply (inj Some) in Hdriver. by rewrite <- Hdriver. }
      assert (r_bestMove acc ∈ first :: second :: rest) as Hin.
      { destruct Hroot as [->|Hin]; [by left|]. by rewrite <- Hperm. }
      split; [by left|]. split; [done|]. by intros _ _.
Qed.

(** X18.  [findBestMove] returns, and the move in its result is one of the
    moves that [getValidMoves] generates for the position, or the
    placeholder [Move()]: the search never makes up a move.  The placeholder
    is what a position without moves gives; the single-depth search of a
    position with moves always returns one of them. *)
Theorem findBestMove_returns_generated_move (clk : nat -> Z) (fuel : nat)
  (b : HexukiBitboard) (config : SearchConfig) :
  walks_end -> 0 <= hexOccupied b < 2 ^ 32 -> (19 <= fuel)%nat ->
  exists moves r b',
    getValidMoves b = Some moves
    /\ findBestMove clk fuel b config = Some (r, b')
    /\ (bestMove r ∈ moves \/ bestMove r = Move_default)
    /\ (moves = [] -> bestMove r = Move_default)
    /\ (useIterativeDeepening config = false -> moves <> [] -> bestMove r ∈ moves).
Proof.
  intros Hw Hocc Hfuel.
  destruct (findBestMove_total clk fuel b config Hw Hocc Hfuel) as [[r b'] Hr].
  eexists. exists r, b'. split; [apply (getValidMoves_eq b Hw)|].
  split; [exact Hr|].
  exact (findBestMove_bestMove clk fuel b b' config _ r (getValidMoves_eq b Hw) Hr).
Qed.

(** ** Setting up a position by hand *)

Lemma Zobrist_hash_set_zobristHash (b : HexukiBitboard) (z : Z) :
  Zobrist_hash (set_zobristHash b z) = Zobrist_hash b.
Proof. by apply Zobrist_hash_ext. Qed.

(** X19.  [setHexValue] on a hex of the board marks the hex occupied and
    stores the tile value reduced to a byte (so a value that is a multiple
    of 256 leaves an occupied hex that holds 0), touches no other hex, and
    leaves the hash equal to the hash computed from scratch; on an empty
    hex, [removeHexValue] afterwards gives back the mask, the values, the
    bags and the side to move. *)
Theorem setHexValue_removeHexValue (b : HexukiBitboard) (h v : Z) :
  boardShape b -> 0 <= h < NUM_HEXES ->
  isHexOccupied (setHexValue b h v) h = true
  /\ getTileValue (setHexValue b h v) h = v mod 256
  /\ (forall x, x <> h ->
        isHexOccupied (setHexValue b h v) x = isHexOccupied b x
        /\ (0 <= x -> getTileValue (setHexValue b h v) x = getTileValue b x))
  /\ zobristHash (setHexValue b h v) = Zobrist_hash (setHexValue b h v)
  /\ (isHexOccupied b h = false ->
      sameContent (removeHexValue (setHexValue b h v) h) b).
Proof.
  intros (Hocc & [Hlen Hbytes] & Hz) Hh.
  assert (0 <= hexOccupied b < 2 ^ 32) as Hocc32.
  { unfold NUM_HEXES in Hocc. change (2 ^ 19) with 524288 in Hocc.
    change (2 ^ 32) with 4294967296. lia. }
  assert ((h <? 0) || (h >=? NUM_HEXES) = false) as Hg.
  { apply orb_false_iff. split; [apply Z.ltb_ge; lia|].
    rewrite Z.geb_leb. apply Z.leb_gt. lia. }
  unfold NUM_HEXES in Hh.
  unfold removeHexValue, setHexValue. rewrite !Hg.
  unfold sameContent, isHexOccupied, getTileValue.
  cbn [hexOccupied hexValues p1AvailableTiles p2AvailableTiles currentPlayer
       zobristHash set_zobristHash set_hexValues set_hexOccupied].
  split; [|split; [|split; [|split]]].
  - rewrite placed_testbit by lia. by rewrite Z.eqb_refl.
  - apply list_lookup_total_insert_eq. lia.
  - intros x Hx. split.
    + rewrite placed_testbit by lia. by destruct (Z.eqb_spec x h).
    + intros Hx0. apply list_lookup_total_insert_ne. lia.
  - by rewrite Zobrist_hash_set_zobristHash.
  - intros Hempty. split; [|split; [|done]].
    + apply occupancy_restored; [exact Hocc32|lia|exact Hempty].
    + apply unmoved_hexValues. apply (Hz h); [unfold NUM_HEXES; lia|exact Hempty].
Qed.

(** ** Writing and reading back *)


Lemma digitChar_cases (d : Z) (P : ascii -> Prop) :
  0 <= d < 10 ->
  P "0"%char -> P "1"%char -> P "2"%char -> P "3"%char -> P "4"%char ->
  P "5"%char -> P "6"%char -> P "7"%char -> P "8"%char -> P "9"%char ->
  P (digitChar d).
Proof.
  intros Hd.
  assert (d = 0 \/ d = 1 \/ d = 2 \/ d = 3 \/ d = 4 \/ d = 5 \/ d = 6 \/ d = 7
          \/ d = 8 \/ d = 9) as Hcases by lia.
  repeat (destruct Hcases as [-> | Hcases]); try subst d; auto.
Qed.

Lemma digitChar_isdigit (d : Z) : 0 <= d < 10 -> isdigit (digitChar d) = true.
Proof. intros Hd. by apply (digitChar_cases d (fun c => isdigit c = true)). Qed.

Lemma digitChar_value (d : Z) :
  0 <= d < 10 -> Z.of_nat (nat_of_ascii (digitChar d)) - 48 = d.
Proof.
  intros Hd. unfold digitChar. rewrite nat_ascii_embedding by lia. lia.
Qed.

Lemma digitsValue_snoc (ds : list ascii) (c : ascii) :
  digitsValue (ds ++ [c]) = digitsValue ds * 10 + (Z.of_nat (nat_of_ascii c) - 48).
Proof. unfold digitsValue. by rewrite fold_left_app. Qed.

Lemma showDigits_spec (fuel : nat) :
  forall n acc,
    0 <= n < 10 ^ Z.of_nat fuel -> (0 < fuel)%nat ->
    exists ds,
      showDigits fuel n acc = ds ++ acc
      /\ ds <> []
      /\ Forall (fun c => isdigit c = true) ds
      /\ digitsValue ds = n.
Proof.
  induction fuel as [|fuel IH]; intros n acc Hn Hfuel; [lia|].
  cbn [showDigits].
  assert (0 <= n mod 10 < 10) as Hd by (apply Z.mod_pos_bound; lia).
  destruct (Z.ltb_spec n 10) as [Hlt|Hge].
  - exists [digitChar (n mod 10)]. split; [reflexivity|]. split; [done|].
    split; [repeat constructor; by apply digitChar_isdigit|].
    unfold digitsValue. cbn [fold_left]. rewrite digitChar_value by exact Hd.
    rewrite Z.mod_small by lia. lia.
  - assert (0 < fuel)%nat as Hfuel'.
    { destruct fuel; [|lia]. cbn in Hn. lia. }
    destruct (IH (n / 10) (digitChar (n mod 10) :: acc)) as (ds & Heq & Hne & Hdig & Hval);
      [|exact Hfuel'|].
    { split; [apply Z.div_pos; lia|]. apply Z.div_lt_upper_bound; [lia|].
      rewrite Nat2Z.inj_succ, Z.pow_succ_r in Hn by lia. lia. }
    exists (ds ++ [digitChar (n mod 10)]). split; [by rewrite Heq, <- app_assoc|].
    split; [by destruct ds|]. split.
    + apply Forall_app. split; [exact Hdig|]. repeat constructor.
      by apply digitChar_isdigit.
    + rewrite digitsValue_snoc, Hval, digitChar_value by exact Hd.
      pose proof (Z.div_mod n 10). lia.
Qed.

Lemma showInt_spec (n : Z) :
  isInt n ->
  exists ds,
    showInt n = (if n <? 0 then ["-"%char] else []) ++ ds
    /\ ds <> []
    /\ Forall (fun c => isdigit c = true) ds
    /\ digitsValue ds = Z.abs n.
Proof.
  intros [Hlo Hhi]. unfold showInt.
  assert (2 ^ 31 < 10 ^ Z.of_nat 10) as Hpow by (vm_compute; reflexivity).
  destruct (Z.ltb_spec n 0) as [Hneg|Hpos].
  - destruct (showDigits_spec 10 (- n) []) as (ds & Heq & Hne & Hdig & Hval); [lia..|].
    exists ds. rewrite Heq, app_nil_r. split; [reflexivity|]. split; [exact Hne|].
    split; [exact Hdig|]. lia.
  - destruct (showDigits_spec 10 n []) as (ds & Heq & Hne & Hdig & Hval); [lia..|].
    exists ds. rewrite Heq, app_nil_r. split; [reflexivity|]. split; [exact Hne|].
    split; [exact Hdig|]. lia.
Qed.

Lemma digitsPrefix_all (ds : list ascii) :
  Forall (fun c => isdigit c = true) ds -> digitsPrefix ds = ds.
Proof.
  induction 1 as [|c ds Hc Hds IH]; [reflexivity|]. cbn [digitsPrefix].
  by rewrite Hc, IH.
Qed.

Lemma isdigit_not_space (c : ascii) : isdigit c = true -> isspace c = false.
Proof.
  unfold isdigit, isspace. intros [H1 H2]%andb_true_iff.
  apply Nat.leb_le in H1. apply Nat.leb_le in H2.
  apply orb_false_iff. split.
  - apply Nat.eqb_neq. lia.
  - apply andb_false_iff. right. apply Nat.leb_gt. lia.
Qed.

Lemma isdigit_not_char (c x : ascii) :
  isdigit c = true -> isdigit x = false -> Ascii.eqb c x = false.
Proof.
  intros Hc Hx. destruct (Ascii.eqb_spec c x) as [->|]; [congruence|reflexivity].
Qed.

(** [std::stoi] reads back what [operator<<] wrote. *)
Lemma stoi_showInt (n : Z) : isInt n -> stoi (showInt n) = Ok n.
Proof.
  intros Hn. destruct (showInt_spec n Hn) as (ds & -> & Hne & Hdig & Hval).
  destruct Hn as [Hlo Hhi].
  destruct ds as [|d ds]; [done|]. apply Forall_cons in Hdig as [Hd Hds].
  unfold stoi. destruct (Z.ltb_spec n 0) as [Hneg|Hpos].
  - cbn [app skipSpaces]. change (isspace "-") with false. cbn iota.
    change (Ascii.eqb "-" "-") with true. cbn iota.
    cbn [digitsPrefix]. rewrite Hd, (digitsPrefix_all ds Hds).
    rewrite Hval.
    replace (- Z.abs n) with n by lia.
    destruct (Z.ltb_spec n (- 2 ^ 31)); [lia|].
    destruct (Z.gtb_spec n (2 ^ 31 - 1)); [lia|]. reflexivity.
  - cbn [app skipSpaces]. rewrite (isdigit_not_space d Hd).
    rewrite (isdigit_not_char d "-" Hd eq_refl), (isdigit_not_char d "+" Hd eq_refl).
    cbn [digitsPrefix]. rewrite Hd, (digitsPrefix_all ds Hds).
    rewrite Hval. replace (Z.abs n) with n by lia.
    destruct (Z.ltb_spec n (- 2 ^ 31)); [lia|].
    destruct (Z.gtb_spec n (2 ^ 31 - 1)); [lia|]. reflexivity.
Qed.

Lemma showInt_numChars (n : Z) : isInt n -> Forall numChar (showInt n) /\ showInt n <> [].
Proof.
  intros Hn. destruct (showInt_spec n Hn) as (ds & -> & Hne & Hdig & _). split.
  - apply Forall_app. split.
    + destruct (n <? 0); [|constructor].
      apply Forall_cons. split; [by right|constructor].
    + eapply Forall_impl; [exact Hdig|]. intros c Hc. by left.
  - destruct (n <? 0); [done|]. by destruct ds.
Qed.


Lemma numChar_not (c x : ascii) :
  numChar c -> isdigit x = false -> x <> "-"%char -> c <> x.
Proof. intros [Hc| ->] Hx Hm; [|done]. intros ->. congruence. Qed.

Lemma getlines_app (delim : ascii) (l rest cur : list ascii) :
  Forall (fun c => c <> delim) l ->
  getlines delim (l ++ rest) cur = getlines delim rest (cur ++ l).
Proof.
  revert cur. induction l as [|c l IH]; intros cur Hl; cbn [app getlines].
  - by rewrite app_nil_r.
  - apply Forall_cons in Hl as [Hc Hl].
    destruct (Ascii.eqb_spec c delim) as [|_]; [done|].
    rewrite IH by exact Hl. by rewrite <- app_assoc.
Qed.

Lemma getlines_delim (delim : ascii) (rest cur : list ascii) :
  getlines delim (delim :: rest) cur = cur :: getlines delim rest [].
Proof. cbn [getlines]. by rewrite Ascii.eqb_refl. Qed.

Lemma getlines_last (delim : ascii) (l : list ascii) :
  Forall (fun c => c <> delim) l -> l <> [] -> getlines delim l [] = [l].
Proof.
  intros Hl Hne. pose proof (getlines_app delim l [] [] Hl) as Heq.
  rewrite app_nil_r in Heq. rewrite Heq. cbn [app getlines]. by destruct l.
Qed.

Lemma showInt_no (x : ascii) (n : Z) :
  isInt n -> isdigit x = false -> x <> "-"%char ->
  Forall (fun c => c <> x) (showInt n).
Proof.
  intros Hn Hx Hm. destruct (showInt_numChars n Hn) as [Hchars _].
  eapply Forall_impl; [exact Hchars|]. intros c Hc. by apply numChar_not.
Qed.

Lemma getlines_saveTiles_rest (tiles : list Z) :
  Forall isInt tiles ->
  forall cur, cur <> [] ->
    getlines "," (saveTiles false tiles) cur = cur :: (showInt <$> tiles).
Proof.
  induction 1 as [|t tiles Ht Htiles IH]; intros cur Hcur; cbn [saveTiles fmap list_fmap].
  - cbn [getlines]. by destruct cur.
  - cbn [app]. rewrite getlines_delim. f_equal.
    rewrite getlines_app by (by apply showInt_no). cbn [app].
    apply IH. by apply showInt_numChars.
Qed.

Lemma getlines_saveTiles (tiles : list Z) :
  Forall isInt tiles -> getlines "," (saveTiles true tiles) [] = showInt <$> tiles.
Proof.
  intros Htiles. destruct Htiles as [|t tiles Ht Htiles]; [reflexivity|].
  cbn [saveTiles app fmap list_fmap].
  rewrite getlines_app by (by apply showInt_no). cbn [app].
  apply getlines_saveTiles_rest; [exact Htiles|]. by apply showInt_numChars.
Qed.

Lemma parseTiles_showInt (tiles : list Z) :
  Forall isInt tiles ->
  forall acc, parseTiles (showInt <$> tiles) acc = Ok (acc ++ tiles).
Proof.
  induction 1 as [|t tiles Ht Htiles IH]; intros acc; cbn [parseTiles fmap list_fmap].
  - by rewrite app_nil_r.
  - rewrite (stoi_showInt t Ht). cbn [result_bind]. rewrite IH.
    by rewrite <- app_assoc.
Qed.

Lemma saveTiles_no_bar (first : bool) (tiles : list Z) :
  Forall isInt tiles -> Forall (fun c => c <> "|"%char) (saveTiles first tiles).
Proof.
  intros Htiles. revert first.
  induction Htiles as [|t tiles Ht Htiles IH]; intros first; cbn [saveTiles];
    [constructor|].
  apply Forall_app. split; [destruct first; repeat constructor; done|].
  apply Forall_app. split; [by apply showInt_no|apply IH].
Qed.

(** *** The hex section *)

Lemma hexPairText_no (x : ascii) (b : HexukiBitboard) (h : Z) :
  isInt h -> isInt (getTileValue b h) ->
  isdigit x = false -> x <> "-"%char -> x <> "h"%char -> x <> ":"%char ->
  Forall (fun c => c <> x) (hexPairText b h).
Proof.
  intros Hh Hv Hx Hm H1 H2. unfold hexPairText.
  apply Forall_cons. split; [congruence|].
  apply Forall_app. split; [by apply showInt_no|].
  apply Forall_cons. split; [congruence|]. by apply showInt_no.
Qed.

Lemma saveHexes_no_bar (b : HexukiBitboard) (first : bool) (hs : list Z) :
  Forall (fun h => isInt h /\ isInt (getTileValue b h)) hs ->
  Forall (fun c => c <> "|"%char) (saveHexes b first hs).
Proof.
  intros Hhs. revert first.
  induction Hhs as [|h hs [Hh Hv] Hhs IH]; intros first; cbn [saveHexes];
    [constructor|].
  destruct (isHexOccupied b h); [|apply IH].
  apply Forall_app. split; [destruct first; repeat constructor; done|].
  change ("h"%char :: showInt h ++ ":"%char :: showInt (getTileValue b h)
          ++ saveHexes b false hs)
    with (("h"%char :: showInt h) ++ ":"%char :: showInt (getTileValue b h)
          ++ saveHexes b false hs).
  apply Forall_app. split.
  { apply Forall_cons. split; [done|]. by apply showInt_no. }
  apply Forall_cons. split; [done|].
  apply Forall_app. split; [by apply showInt_no|apply IH].
Qed.

Lemma saveHexes_cons (b : HexukiBitboard) (first : bool) (h : Z) (hs : list Z) :
  isHexOccupied b h = true ->
  saveHexes b first (h :: hs)
  = (if first then [] else [","%char]) ++ hexPairText b h ++ saveHexes b false hs.
Proof.
  intros Hocc. cbn [saveHexes]. rewrite Hocc. unfold hexPairText.
  cbn [app]. by rewrite <- !app_assoc.
Qed.

Lemma getlines_saveHexes_rest (b : HexukiBitboard) (hs : list Z) :
  Forall (fun h => isInt h /\ isInt (getTileValue b h)) hs ->
  forall cur, cur <> [] ->
    getlines "," (saveHexes b false hs) cur
    = cur :: (hexPairText b <$> filter (fun h => isHexOccupied b h = true) hs).
Proof.
  induction 1 as [|h hs [Hh Hv] Hhs IH]; intros cur Hcur.
  - cbn [saveHexes getlines]. by destruct cur.
  - rewrite filter_cons. destruct (isHexOccupied b h) eqn:Hocc.
    + rewrite decide_True by done. rewrite saveHexes_cons by exact Hocc.
      cbn [app fmap list_fmap]. rewrite getlines_delim. f_equal.
      rewrite getlines_app by (by apply hexPairText_no). cbn [app].
      apply IH. done.
    + rewrite decide_False by done. cbn [saveHexes]. rewrite Hocc. by apply IH.
Qed.

Lemma getlines_saveHexes (b : HexukiBitboard) (hs : list Z) :
  Forall (fun h => isInt h /\ isInt (getTileValue b h)) hs ->
  getlines "," (saveHexes b true hs) []
  = hexPairText b <$> filter (fun h => isHexOccupied b h = true) hs.
Proof.
  induction 1 as [|h hs [Hh Hv] Hhs IH]; [reflexivity|].
  rewrite filter_cons. destruct (isHexOccupied b h) eqn:Hocc.
  - rewrite decide_True by done. rewrite saveHexes_cons by exact Hocc.
    cbn [app fmap list_fmap].
    rewrite getlines_app by (by apply hexPairText_no). cbn [app].
    apply getlines_saveHexes_rest; [exact Hhs|done].
  - rewrite decide_False by done. cbn [saveHexes]. rewrite Hocc. exact IH.
Qed.

Lemma saveHexes_head (b : HexukiBitboard) (hs : list Z) :
  (saveHexes b true hs = [] /\ filter (fun h => isHexOccupied b h = true) hs = [])
  \/ exists rest, saveHexes b true hs = "h"%char :: rest.
Proof.
  induction hs as [|h hs IH]; [by left|].
  rewrite filter_cons. cbn [saveHexes]. destruct (isHexOccupied b h).
  - right. cbn [app]. eauto.
  - rewrite decide_False by done. exact IH.
Qed.

Lemma string_find_app (c : ascii) (l rest : list ascii) :
  Forall (fun x => x <> c) l -> string_find c (l ++ c :: rest) = Some (length l).
Proof.
  induction 1 as [|x l Hx Hl IH]; cbn [app string_find length].
  - by rewrite Ascii.eqb_refl.
  - destruct (Ascii.eqb_spec x c) as [|_]; [done|]. by rewrite IH.
Qed.

Lemma parseHexPair_text (b0 b : HexukiBitboard) (h : Z) :
  isInt h -> isInt (getTileValue b h) ->
  parseHexPair b0 (hexPairText b h) = Ok (setHexValue b0 h (getTileValue b h)).
Proof.
  intros Hh Hv. unfold parseHexPair.
  destruct (showInt_numChars h Hh) as [_ Hne1].
  destruct (showInt_numChars (getTileValue b h) Hv) as [_ Hne2].
  assert ((length (hexPairText b h) <? 4)%nat = false) as ->.
  { apply Nat.ltb_ge. unfold hexPairText. cbn [length].
    rewrite length_app. cbn [length].
    destruct (showInt h); [done|]. destruct (showInt (getTileValue b h)); [done|].
    cbn [length]. lia. }
  assert (string_find ":" (hexPairText b h) = Some (S (length (showInt h)))) as ->.
  { change (hexPairText b h)
      with (("h"%char :: showInt h) ++ ":"%char :: showInt (getTileValue b h)).
    rewrite string_find_app; [reflexivity|].
    apply Forall_cons. split; [done|]. by apply showInt_no. }
  assert (hexIdText (hexPairText b h) (S (length (showInt h))) = showInt h) as ->.
  { unfold hexIdText, hexPairText. cbn [drop]. rewrite drop_0.
    by rewrite take_app_length. }
  assert (drop (S (S (length (showInt h)))) (hexPairText b h)
          = showInt (getTileValue b h)) as ->.
  { unfold hexPairText. cbn [drop].
    change (":"%char :: showInt (getTileValue b h))
      with ([":"%char] ++ showInt (getTileValue b h)).
    rewrite app_assoc. apply drop_app_length'. rewrite length_app. cbn [length]. lia. }
  rewrite (stoi_showInt h Hh). cbn [result_bind].
  rewrite (stoi_showInt _ Hv). reflexivity.
Qed.

Lemma parseHexPairs_texts (b : HexukiBitboard) (hs : list Z) :
  Forall (fun h => isInt h /\ isInt (getTileValue b h)) hs ->
  forall b0,
    parseHexPairs b0 (hexPairText b <$> hs)
    = Ok (fold_left (fun acc h => setHexValue acc h (getTileValue b h)) hs b0).
Proof.
  induction 1 as [|h hs [Hh Hv] Hhs IH]; intros b0; [reflexivity|].
  cbn [fmap list_fmap parseHexPairs fold_left].
  rewrite (parseHexPair_text b0 b h Hh Hv). cbn [result_bind]. apply IH.
Qed.

(** *** The tiles put back on a cleared board *)

Lemma setHexValue_fields (b0 : HexukiBitboard) (h v : Z) :
  0 <= h < NUM_HEXES ->
  hexOccupied (setHexValue b0 h v)
  = wrap_u32 (Z.lor (hexOccupied b0) (wrap_u32 (Z.shiftl 1 h)))
  /\ hexValues (setHexValue b0 h v) = <[Z.to_nat h := wrap_u8 v]> (hexValues b0)
  /\ p1AvailableTiles (setHexValue b0 h v) = p1AvailableTiles b0
  /\ p2AvailableTiles (setHexValue b0 h v) = p2AvailableTiles b0
  /\ currentPlayer (setHexValue b0 h v) = currentPlayer b0.
Proof.
  intros Hh. unfold setHexValue.
  assert ((h <? 0) || (h >=? NUM_HEXES) = false) as ->.
  { apply orb_false_iff. split; [apply Z.ltb_ge; lia|].
    rewrite Z.geb_leb. apply Z.leb_gt. lia. }
  by repeat split.
Qed.

Lemma placeTiles_fields (b : HexukiBitboard) (hs : list Z) :
  Forall (fun h => 0 <= h < NUM_HEXES) hs ->
  forall b0,
    0 <= hexOccupied b0 < 2 ^ 32 -> length (hexValues b0) = 19%nat ->
    let b1 := fold_left (fun acc h => setHexValue acc h (getTileValue b h)) hs b0 in
    0 <= hexOccupied b1 < 2 ^ 32
    /\ length (hexValues b1) = 19%nat
    /\ (forall x, Z.testbit (hexOccupied b1) x = true
                  <-> x ∈ hs \/ Z.testbit (hexOccupied b0) x = true)
    /\ (forall x, 0 <= x -> x ∈ hs ->
                  hexValues b1 !!! Z.to_nat x = wrap_u8 (getTileValue b x))
    /\ (forall x, 0 <= x -> x ∉ hs ->
                  hexValues b1 !!! Z.to_nat x = hexValues b0 !!! Z.to_nat x)
    /\ p1AvailableTiles b1 = p1AvailableTiles b0
    /\ p2AvailableTiles b1 = p2AvailableTiles b0
    /\ currentPlayer b1 = currentPlayer b0.
Proof.
  induction 1 as [|h hs Hh Hhs IH]; intros b0 Hocc Hlen.
  - cbn [fold_left]. split; [exact Hocc|]. split; [exact Hlen|]. split.
    + intros x. split; [by right|]. intros [Hx|Hx]; [by apply elem_of_nil in Hx|done].
    + split; [intros x _ Hx; by apply elem_of_nil in Hx|]. by repeat split.
  - cbn [fold_left].
    destruct (setHexValue_fields b0 h (getTileValue b h) Hh)
      as (Ho & Hv & Hp1 & Hp2 & Hcp).
    destruct (IH (setHexValue b0 h (getTileValue b h)))
      as (Hocc1 & Hlen1 & Hbits & Hin & Hout & Hq1 & Hq2 & Hqc).
    { rewrite Ho. apply wrap_u32_range. }
    { rewrite Hv. by rewrite length_insert. }
    unfold NUM_HEXES in Hh.
    split; [exact Hocc1|]. split; [exact Hlen1|]. split; [|split; [|split]].
    + intros x. rewrite Hbits, Ho, placed_testbit by lia.
      rewrite orb_true_iff, Z.eqb_eq, elem_of_cons. tauto.
    + intros x Hx Hxin. destruct (decide (x ∈ hs)) as [Hxhs|Hxhs]; [by apply Hin|].
      apply elem_of_cons in Hxin as [->|Hxin]; [|done].
      rewrite Hout by done. rewrite Hv. apply list_lookup_total_insert_eq. lia.
    + intros x Hx Hxout. apply not_elem_of_cons in Hxout as [Hne Hxout].
      rewrite Hout by done. rewrite Hv. apply list_lookup_total_insert_ne. lia.
    + split; [congruence|]. split; congruence.
Qed.

Lemma shape_values_byte (b : HexukiBitboard) (h : Z) :
  boardShape b -> 0 <= h < NUM_HEXES -> 0 <= getTileValue b h < 256.
Proof.
  intros (_ & [Hlen Hbytes] & _) Hh. unfold getTileValue, NUM_HEXES in *.
  assert (hexValues b !!! Z.to_nat h ∈ hexValues b) as Hin.
  { apply list_elem_of_lookup_total_2. lia. }
  by apply (proj1 (Forall_forall _ _) Hbytes) in Hin.
Qed.

Lemma placeTiles_restores (b b0 : HexukiBitboard) :
  boardShape b ->
  hexOccupied b0 = 0 -> hexValues b0 = replicate (Z.to_nat NUM_HEXES) 0 ->
  let b1 := fold_left (fun acc h => setHexValue acc h (getTileValue b h))
                      (filter (fun h => isHexOccupied b h = true) (seqZ 0 NUM_HEXES))
                      b0 in
  hexOccupied b1 = hexOccupied b
  /\ hexValues b1 = hexValues b
  /\ p1AvailableTiles b1 = p1AvailableTiles b0
  /\ p2AvailableTiles b1 = p2AvailableTiles b0
  /\ currentPlayer b1 = currentPlayer b0.
Proof.
  intros Hshape Ho0 Hv0.
  set (hs := filter (fun h => isHexOccupied b h = true) (seqZ 0 NUM_HEXES)).
  assert (forall x, x ∈ hs <-> 0 <= x < NUM_HEXES /\ isHexOccupied b x = true) as Hhs.
  { intros x. unfold hs. rewrite list_elem_of_filter, elem_of_seqZ.
    unfold NUM_HEXES. intuition lia. }
  destruct (placeTiles_fields b hs) with (b0 := b0)
    as (Hocc1 & Hlen1 & Hbits & Hin & Hout & Hq1 & Hq2 & Hqc).
  { apply Forall_forall. intros x Hx. by apply Hhs. }
  { rewrite Ho0. change (2 ^ 32) with 4294967296. lia. }
  { rewrite Hv0. apply length_replicate. }
  pose proof Hshape as (Hocc & [Hlen Hbytes] & Hz).
  cbv zeta. split; [|split; [|by repeat split]].
  - apply Z.bits_inj'. intros i Hi.
    destruct (Z.testbit (hexOccupied b) i) eqn:Hb.
    + apply Hbits. left. apply Hhs. split; [|exact Hb].
      split; [exact Hi|]. destruct (Z.ltb_spec i NUM_HEXES) as [|Hge]; [done|].
      rewrite (mask_bits_high _ NUM_HEXES) in Hb; [done|exact Hocc|].
      unfold NUM_HEXES in *. lia.
    + apply not_true_iff_false. intros [Hx|Hx]%Hbits.
      * apply Hhs in Hx as [_ Hx]. unfold isHexOccupied in Hx. congruence.
      * rewrite Ho0, Z.bits_0 in Hx. done.
  - apply (list_eq_same_length _ _ 19); [exact Hlen|exact Hlen1|].
    intros i x y Hi Hx Hy.
    apply list_lookup_total_correct in Hx. apply list_lookup_total_correct in Hy.
    subst x y. rewrite <- (Nat2Z.id i).
    assert (0 <= Z.of_nat i < NUM_HEXES) as Hrange by (unfold NUM_HEXES; lia).
    destruct (isHexOccupied b (Z.of_nat i)) eqn:Hoc.
    + rewrite Hin by (lia || (apply Hhs; done)).
      unfold wrap_u8. apply Z.mod_small. by apply shape_values_byte.
    + rewrite Hout by (lia || (intros [_ ?]%Hhs; congruence)).
      rewrite Hv0. rewrite lookup_total_replicate_2 by (unfold NUM_HEXES; lia).
      symmetry. by apply Hz.
Qed.

(** *** The sections *)

Lemma getlines_sections (s0 s1 s2 s3 : list ascii) :
  Forall (fun c => c <> "|"%char) s0 -> Forall (fun c => c <> "|"%char) s1 ->
  Forall (fun c => c <> "|"%char) s2 -> Forall (fun c => c <> "|"%char) s3 ->
  s3 <> [] ->
  getlines "|" (s0 ++ "|"%char :: s1 ++ "|"%char :: s2 ++ "|"%char :: s3) []
  = [s0; s1; s2; s3].
Proof.
  intros H0 H1 H2 H3 Hne.
  rewrite getlines_app by exact H0. cbn [app]. rewrite getlines_delim. f_equal.
  rewrite getlines_app by exact H1. cbn [app]. rewrite getlines_delim. f_equal.
  rewrite getlines_app by exact H2. cbn [app]. rewrite getlines_delim. f_equal.
  by apply getlines_last.
Qed.

Lemma parseSection_hexes (b b0 : HexukiBitboard) (hs : list Z) :
  Forall (fun h => isInt h /\ isInt (getTileValue b h)) hs ->
  parseSection b0 (saveHexes b true hs)
  = Ok (fold_left (fun acc h => setHexValue acc h (getTileValue b h))
                  (filter (fun h => isHexOccupied b h = true) hs) b0).
Proof.
  intros Hhs. pose proof (getlines_saveHexes b hs Hhs) as Hlines.
  destruct (saveHexes_head b hs) as [[Hnil Hnone]|[rest Hrest]].
  - rewrite Hnil, Hnone. reflexivity.
  - rewrite Hrest in *. unfold parseSection.
    change (Ascii.eqb "h" "h") with true. cbn iota.
    rewrite Hlines. apply parseHexPairs_texts.
    apply Forall_forall. intros h [_ Hh]%list_elem_of_filter.
    exact (proj1 (Forall_forall _ _) Hhs h Hh).
Qed.

Lemma parseSection_p1 (b0 : HexukiBitboard) (tiles : list Z) :
  Forall isInt tiles ->
  parseSection b0 (["p"; "1"; ":"]%char ++ saveTiles true tiles)
  = Ok (set_p1AvailableTiles b0 tiles).
Proof.
  intros Htiles. unfold parseSection. cbn [app take drop].
  change (Ascii.eqb "p" "h") with false. cbn iota.
  rewrite bool_decide_eq_true_2 by reflexivity. rewrite drop_0.
  rewrite getlines_saveTiles, parseTiles_showInt by exact Htiles. reflexivity.
Qed.

Lemma parseSection_p2 (b0 : HexukiBitboard) (tiles : list Z) :
  Forall isInt tiles ->
  parseSection b0 (["p"; "2"; ":"]%char ++ saveTiles true tiles)
  = Ok (set_p2AvailableTiles b0 tiles).
Proof.
  intros Htiles. unfold parseSection. cbn [app take drop].
  change (Ascii.eqb "p" "h") with false. cbn iota.
  rewrite bool_decide_eq_false_2 by discriminate.
  rewrite bool_decide_eq_true_2 by reflexivity. rewrite drop_0.
  rewrite getlines_saveTiles, parseTiles_showInt by exact Htiles. reflexivity.
Qed.

Lemma parseSection_turn (b0 : HexukiBitboard) (p : Z) :
  isInt p ->
  parseSection b0 (["t"; "u"; "r"; "n"; ":"]%char ++ showInt p)
  = Ok (set_currentPlayer b0 p).
Proof.
  intros Hp. unfold parseSection. cbn [app take drop].
  change (Ascii.eqb "t" "h") with false. cbn iota.
  rewrite !bool_decide_eq_false_2 by discriminate.
  rewrite bool_decide_eq_true_2 by reflexivity. rewrite drop_0.
  by rewrite stoi_showInt.
Qed.

Lemma saveHexes_content (b1 b2 : HexukiBitboard) (first : bool) (hs : list Z) :
  hexOccupied b1 = hexOccupied b2 -> hexValues b1 = hexValues b2 ->
  saveHexes b1 first hs = saveHexes b2 first hs.
Proof.
  intros Ho Hv. revert first. induction hs as [|h hs IH]; intros first; [reflexivity|].
  cbn [saveHexes]. unfold isHexOccupied, getTileValue. rewrite Ho, Hv, !IH.
  reflexivity.
Qed.

Lemma savePosition_content (b1 b2 : HexukiBitboard) :
  sameContent b1 b2 -> savePosition b1 = savePosition b2.
Proof.
  intros (Ho & Hv & Hp1 & Hp2 & Hcp). unfold savePosition, getAvailableTiles.
  rewrite (saveHexes_content b1 b2) by done.
  change (PLAYER_1 =? PLAYER_1) with true. change (PLAYER_2 =? PLAYER_1) with false.
  cbn iota. by rewrite Hp1, Hp2, Hcp.
Qed.

(** X20.  [loadPosition] reads back what [savePosition] wrote: for a
    position whose mask has bits for the 19 hexes only, whose value array
    holds a byte per hex and 0 on the empty hexes, the text that
    [savePosition] writes is accepted by [loadPosition], whatever position
    was held before, and the position loaded has the mask, the hex values,
    the two bags in their order and the side to move of the one saved; the
    two flags and the hash are computed afresh.  Saving the loaded position
    gives the same text again. *)
Theorem loadPosition_savePosition (prev b : HexukiBitboard) :
  boardShape b ->
  Forall isInt (p1AvailableTiles b) -> Forall isInt (p2AvailableTiles b) ->
  isInt (currentPlayer b) ->
  exists b',
    loadPosition prev (savePosition b) = Ok b'
    /\ sameContent b' b
    /\ savePosition b' = savePosition b.
Proof.
  intros Hshape Hp1 Hp2 Hcp.
  assert (Forall (fun h => isInt h /\ isInt (getTileValue b h)) (seqZ 0 NUM_HEXES))
    as Hhs.
  { apply Forall_forall. intros h Hh%elem_of_seqZ.
    pose proof (shape_values_byte b h Hshape) as Hbyte.
    unfold isInt, NUM_HEXES in *.
    change (2 ^ 31) with 2147483648. lia. }
  assert (exists b', loadPosition prev (savePosition b) = Ok b' /\ sameContent b' b)
    as (b' & Hload & Hsame); [|by exists b'; split; [|split; [|apply savePosition_content]]].
  unfold loadPosition, savePosition.
  rewrite String.list_ascii_of_string_of_list_ascii.
  set (b2 := set_currentPlayer _ PLAYER_1).
  change (saveHexes b true (seqZ 0 NUM_HEXES)
          ++ ["|"; "p"; "1"; ":"]%char ++ saveTiles true (getAvailableTiles b PLAYER_1)
          ++ ["|"; "p"; "2"; ":"]%char ++ saveTiles true (getAvailableTiles b PLAYER_2)
          ++ ["|"; "t"; "u"; "r"; "n"; ":"]%char ++ showInt (currentPlayer b))
    with (saveHexes b true (seqZ 0 NUM_HEXES)
          ++ "|"%char :: (["p"; "1"; ":"]%char ++ saveTiles true (p1AvailableTiles b))
          ++ "|"%char :: (["p"; "2"; ":"]%char ++ saveTiles true (p2AvailableTiles b))
          ++ "|"%char :: (["t"; "u"; "r"; "n"; ":"]%char ++ showInt (currentPlayer b))).
  rewrite getlines_sections.
  2:{ by apply saveHexes_no_bar. }
  2:{ apply Forall_app. split; [repeat constructor; done|by apply saveTiles_no_bar]. }
  2:{ apply Forall_app. split; [repeat constructor; done|by apply saveTiles_no_bar]. }
  2:{ apply Forall_app. split; [repeat constructor; done|by apply showInt_no]. }
  2:{ done. }
  cbn [parseSections].
  rewrite (parseSection_hexes b b2 _ Hhs). cbn [result_bind].
  rewrite parseSection_p1 by exact Hp1. cbn [result_bind].
  rewrite parseSection_p2 by exact Hp2. cbn [result_bind].
  rewrite parseSection_turn by exact Hcp. cbn [result_bind].
  eexists. split; [reflexivity|].
  destruct (placeTiles_restores b b2 Hshape eq_refl eq_refl)
    as (Ho & Hv & _).
  unfold sameContent.
  cbn [hexOccupied hexValues p1AvailableTiles p2AvailableTiles currentPlayer
       set_zobristHash set_tilesAreIdentical set_symmetryStillPossible
       set_currentPlayer set_p1AvailableTiles set_p2AvailableTiles].
  by repeat split.
Qed.

(** ** Accepted moves are generated *)

Lemma hasAdjacentOccupied_range (b : HexukiBitboard) (h : Z) :
  hasAdjacentOccupied b h = true -> 0 <= h < NUM_HEXES.
Proof.
  unfold hasAdjacentOccupied.
  destruct (Z.ltb_spec h 0); [discriminate|].
  destruct (Z.geb_spec h NUM_HEXES); [discriminate|]. lia.
Qed.

(** X21.  Every move that [isValidMove] accepts is among the moves that
    [getValidMoves] generates: the generator misses no move that the
    validator allows, whatever [Move::isValid] is. *)
Theorem isValidMove_generated (b : HexukiBitboard) (m : Move) :
  walks_end -> isValidMove b m = Some true ->
  exists moves, getValidMoves b = Some moves /\ m ∈ moves.
Proof.
  intros Hw Hvalid. eexists. split; [apply (getValidMoves_eq b Hw)|].
  apply (getValidMoves_elem b _ m Hw (getValidMoves_eq b Hw)).
  unfold isValidMove in Hvalid.
  destruct (negb (Move_isValid m)); [discriminate|].
  destruct (isMoveLegal b (hexId m)) as [[|]|] eqn:Hlegal; try discriminate.
  assert (0 <= hexId m < NUM_HEXES) as Hh.
  { unfold isMoveLegal in Hlegal.
    destruct (isHexOccupied b (hexId m)); [discriminate|].
    destruct (hasAdjacentOccupied b (hexId m)) eqn:Hadj; [|discriminate].
    by apply (hasAdjacentOccupied_range b). }
  split; [by apply isMoveLegal_true|].
  apply (inj Some) in Hvalid. unfold isTileAvailable in Hvalid.
  destruct ((tileValue m <? 1) || (tileValue m >? MAX_TILE_VALUE)); [discriminate|].
  apply existsb_exists in Hvalid as (v & Hv & Heq). apply Z.eqb_eq in Heq. subst v.
  apply list_elem_of_In in Hv. exact Hv.
Qed.

(** ** One ply of search *)

Lemma hexValues_makeMove (b : HexukiBitboard) (m : Move) :
  hexValues (makeMove b m)
  = <[Z.to_nat (hexId m) := wrap_u8 (tileValue m)]> (hexValues b).
Proof.
  unfold makeMove, updateZobristHash, set_moverTiles.
  cbn [currentPlayer set_hexValues set_hexOccupied].
  by destruct (currentPlayer b =? PLAYER_1).
Qed.

Lemma currentPlayer_makeMove (b : HexukiBitboard) (m : Move) :
  currentPlayer (makeMove b m) = otherPlayer (currentPlayer b).
Proof.
  unfold makeMove, updateZobristHash, set_moverTiles.
  cbn [currentPlayer set_hexValues set_hexOccupied].
  by destruct (currentPlayer b =? PLAYER_1).
Qed.

Lemma childScore_same (b1 b2 : HexukiBitboard) (m : Move) :
  sameUpToBagOrder b1 b2 -> childScore b1 m = childScore b2 m.
Proof.
  intros (Ho & Hv & Hc & _). unfold childScore, evaluate. f_equal.
  rewrite !currentPlayer_makeMove, Hc.
  rewrite !(getScore_ext (makeMove b1 m) (makeMove b2 m));
    try (by rewrite !hexOccupied_makeMove, Ho);
    try (by rewrite !hexValues_makeMove, Hv).
  reflexivity.
Qed.

Lemma pollDeadline_quiet (clk : nat -> Z) (limit : Z) (s : Search) :
  (forall k, clk k < limit) ->
  exists s2,
    pollDeadline clk limit s = (false, s2)
    /\ s_board s2 = s_board s /\ s_tt s2 = s_tt s
    /\ s_killers s2 = s_killers s /\ s_history s2 = s_history s.
Proof.
  intros Hclk. unfold pollDeadline, readClock.
  destruct (Z.rem (s_nodes s) TIMEOUT_CHECK_INTERVAL =? 0).
  - assert ((clk (s_ticks s) >=? limit) = false) as ->.
    { rewrite Z.geb_leb. apply Z.leb_gt. apply Hclk. }
    eexists. split; [reflexivity|]. by repeat split.
  - exists s. by repeat split.
Qed.

Lemma alphaBeta_leaf (clk : nat -> Z) (fuel : nat) (limit alpha beta ply : Z)
  (s : Search) :
  (forall k, clk k < limit) ->
  exists s',
    alphaBeta clk (S fuel) limit 0 alpha beta ply s = Some (evaluate (s_board s), s')
    /\ s_board s' = s_board s /\ s_tt s' = s_tt s.
Proof.
  intros Hclk. cbn [alphaBeta].
  destruct (pollDeadline_quiet clk limit (with_nodes s (int_add (s_nodes s) 1)) Hclk)
    as (s2 & -> & Hb & Htt & _).
  cbn [orb Z.eqb]. rewrite Hb. exists s2. by repeat split.
Qed.

Lemma searchMoves_depth1 (clk : nat -> Z) (fuel : nat) (limit ply : Z)
  (b : HexukiBitboard) :
  (forall k, clk k < limit) -> Position_wf b ->
  forall l acc s,
    sameUpToBagOrder (s_board s) b -> Forall (playableOn b) l ->
    Forall (fun m => childScore b m < INF) l ->
    n_alpha acc = n_bestScore acc -> n_bestScore acc < INF ->
    exists acc' s',
      searchMoves (alphaBeta clk (S fuel) limit) 1 INF ply l acc s = Some (acc', s')
      /\ sameUpToBagOrder (s_board s') b /\ s_tt s' = s_tt s
      /\ n_bestScore acc <= n_bestScore acc'
      /\ (forall m, m ∈ l -> childScore b m <= n_bestScore acc')
      /\ (acc' = acc
          \/ (n_bestMove acc' ∈ l
              /\ n_bestScore acc' = childScore b (n_bestMove acc')
              /\ n_flag acc' = EXACT)).
Proof.
  intros Hclk Hwf l.
  induction l as [|m rest IH]; intros acc s Hsame Hplay Hbound Halpha Hbest.
  - exists acc, s. split; [reflexivity|]. split; [exact Hsame|]. split; [reflexivity|].
    split; [lia|]. split; [|by left]. intros m Hm. by apply elem_of_nil in Hm.
  - apply Forall_cons in Hplay as [Hm Hplay]. apply Forall_cons in Hbound as [Hsc Hbound].
    cbn [searchMoves]. change (int_sub 1 1) with 0.
    destruct (alphaBeta_leaf clk fuel limit (int_neg INF) (int_neg (n_alpha acc))
                (int_add ply 1) (with_board s (makeMove (s_board s) m)) Hclk)
      as (s2 & -> & Hb2 & Htt2).
    cbn [mbind option_bind s_board with_board] in *.
    assert (int_neg (evaluate (makeMove (s_board s) m)) = childScore b m) as ->
      by apply (childScore_same (s_board s) b m Hsame).
    set (s3 := with_board s2 (unmakeMove (s_board s2) m)).
    assert (sameUpToBagOrder (s_board s3) b) as Hsame3.
    { cbn [s_board with_board s3]. rewrite Hb2.
      apply (sameUpToBagOrder_trans _ (s_board s)); [|exact Hsame].
      apply unmake_make_same.
      - by apply (sameUpToBagOrder_wf _ b).
      - by apply (playableOn_same _ b). }
    assert (s_tt s3 = s_tt s) as Htt3 by exact Htt2.
    destruct (Z.gtb_spec (childScore b m) (n_bestScore acc)) as [Hgt|Hle].
    + rewrite Halpha.
      destruct (Z.gtb_spec (childScore b m) (n_bestScore acc)) as [_|]; [|lia].
      cbn [n_alpha].
      destruct (Z.geb_spec (childScore b m) INF) as [|_]; [lia|].
      destruct (IH (mkNodeAcc (childScore b m) m (childScore b m) EXACT) s3
                   Hsame3 Hplay Hbound eq_refl Hsc)
        as (acc' & s' & -> & Hsame' & Htt' & Hmono & Hmax & Hcase).
      exists acc', s'. cbn [n_bestScore] in Hmono.
      split; [reflexivity|]. split; [exact Hsame'|]. split; [congruence|].
      split; [lia|]. split.
      * intros x [->|Hx]%elem_of_cons; [exact Hmono|by apply Hmax].
      * right. destruct Hcase as [->|(Hin & Hval & Hflag)].
        -- cbn [n_bestMove n_bestScore n_flag]. split; [by left|done].
        -- split; [by right|done].
    + destruct (Z.geb_spec (n_alpha acc) INF) as [|_]; [lia|].
      destruct (IH acc s3 Hsame3 Hplay Hbound Halpha Hbest)
        as (acc' & s' & -> & Hsame' & Htt' & Hmono & Hmax & Hcase).
      exists acc', s'.
      split; [reflexivity|]. split; [exact Hsame'|]. split; [congruence|].
      split; [exact Hmono|]. split.
      * intros x [->|Hx]%elem_of_cons; [lia|by apply Hmax].
      * destruct Hcase as [->|(Hin & Hval & Hflag)]; [by left|].
        right. split; [by right|done].
Qed.

Lemma isGameOver_no_moves (b : HexukiBitboard) :
  isGameOver b = true -> getValidMoves b = Some [].
Proof.
  intros Hover%isGameOver_emptyCount. unfold getValidMoves.
  apply getValidMoves_full. intros h Hh%elem_of_seqZ.
  apply emptyCount_zero; [exact Hover|lia].
Qed.

(** X22.  One ply of [alphaBeta] is exact.  With the full window, no
    entry for the position in the table, a clock that stays under the time
    limit and every move worth more than [-INF] and less than [INF], a
    search of depth 1 returns the largest value that a legal move reaches
    (the evaluation of the position after the move, negated), stores it in
    the table as an [EXACT] entry of depth 1 together with a move that
    reaches it, and leaves the board as it found it up to the order of the
    bags. *)
Theorem alphaBeta_depth1_exact (clk : nat -> Z) (fuel : nat) (limit ply : Z)
  (s : Search) (moves : list Move) :
  walks_end -> SearchInv s -> Position_wf (s_board s) ->
  (forall k, clk k < limit) ->
  table (s_tt s) !! zobristHash (s_board s) = None ->
  getValidMoves (s_board s) = Some moves -> moves <> [] ->
  Forall (fun m => - INF < childScore (s_board s) m < INF) moves ->
  exists v best s',
    alphaBeta clk (S (S fuel)) limit 1 (- INF) INF ply s = Some (v, s')
    /\ best ∈ moves
    /\ v = childScore (s_board s) best
    /\ (forall m, m ∈ moves -> childScore (s_board s) m <= v)
    /\ table (s_tt s') !! zobristHash (s_board s) = Some (mkTTEntry v 1 EXACT best)
    /\ sameUpToBagOrder (s_board s') (s_board s).
Proof.
  intros Hw Hinv Hwf Hclk Hmiss Hmoves Hne Hbound.
  remember (S fuel) as fuel1 eqn:Hfuel1. cbn [alphaBeta]. subst fuel1.
  destruct (pollDeadline_quiet clk limit (with_nodes s (int_add (s_nodes s) 1)) Hclk)
    as (s2 & -> & Hb2 & Htt2 & Hk2 & Hh2).
  cbn [s_board s_tt s_killers s_history with_nodes] in Hb2, Htt2, Hk2, Hh2.
  rewrite Hb2.
  destruct (isGameOver (s_board s)) eqn:Hover.
  { apply isGameOver_no_moves in Hover. congruence. }
  cbn [orb Z.eqb Pos.eqb].
  unfold TT_probe. rewrite Htt2, Hmiss.
  set (tt' := mkTT (table (s_tt s)) (maxSize (s_tt s)) (hits (s_tt s))
                   (wrap_u64 (misses (s_tt s) + 1))).
  cbn [ttLookup]. set (s3 := with_tt s2 tt').
  assert (s_board s3 = s_board s) as Hb3 by exact Hb2.
  rewrite Hb3, Hmoves. cbn [mbind option_bind].
  destruct moves as [|m0 moves']; [done|].
  destruct (orderMoves_perm (m0 :: moves') None (s_killers s3) (s_history s3) ply)
    as (ordered & -> & Hperm).
  { change (s_killers s3) with (s_killers s2). rewrite Hk2. apply Hinv. }
  { change (s_history s3) with (s_history s2). rewrite Hh2. apply Hinv. }
  cbn [mbind option_bind].
  destruct ordered as [|first ordered'].
  { by apply Permutation_nil_cons in Hperm. }
  cbn [head mbind option_bind].
  destruct (searchMoves_depth1 clk fuel limit ply (s_board s) Hclk Hwf
              (first :: ordered') (mkNodeAcc (- INF) first (- INF) UPPER_BOUND) s3)
    as (acc & s4 & -> & Hsame4 & Htt4 & Hmono & Hmax & Hcase).
  { rewrite Hb3. apply sameUpToBagOrder_refl. }
  { rewrite Hperm. by apply getValidMoves_playable. }
  { rewrite Hperm. eapply Forall_impl; [exact Hbound|]. intros m Hm. cbn beta in Hm. lia. }
  { reflexivity. }
  { cbn [n_bestScore]. unfold INF. lia. }
  cbn [mbind option_bind].
  assert (- INF < childScore (s_board s) first) as Hfirst.
  { apply (proj1 (Forall_forall _ _) Hbound first). rewrite <- Hperm. by left. }
  destruct Hcase as [->|(Hin & Hval & Hflag)].
  { assert (first ∈ first :: ordered') as Hhere by (by left).
    specialize (Hmax first Hhere). cbn [n_bestScore] in Hmax. lia. }
  exists (n_bestScore acc), (n_bestMove acc). eexists.
  split; [reflexivity|]. split; [by rewrite <- Hperm|]. split; [exact Hval|].
  split; [intros m Hm; apply Hmax; by rewrite Hperm|]. split; [|exact Hsame4].
  cbn [s_tt with_tt]. unfold TT_store. rewrite Htt4.
  cbn [s_tt with_tt s3 tt' table]. rewrite Hmiss. cbn [table].
  rewrite lookup_insert_eq, Hflag. reflexivity.
Qed.

(** ** The chain rule and the chain queries *)

Lemma list_max_Z_le (l : list Z) (k : Z) :
  0 <= k -> (forall x, x ∈ l -> x <= k) -> list_max_Z l <= k.
Proof.
  intros Hk. induction l as [|x l IH]; intros Hall; cbn [list_max_Z foldr]; [exact Hk|].
  apply Z.max_lub; [apply Hall; by left|].
  apply IH. intros y Hy. apply Hall. by right.
Qed.

Lemma isHexOccupied_makeMove (b : HexukiBitboard) (m : Move) (x : Z) :
  0 <= hexOccupied b < 2 ^ 32 -> 0 <= hexId m < NUM_HEXES ->
  isHexOccupied (makeMove b m) x = spec_occupiedAfter b (hexId m) x.
Proof.
  intros Hocc Hh. unfold isHexOccupied, spec_occupiedAfter.
  rewrite hexOccupied_makeMove. apply placed_testbit; [exact Hocc|].
  unfold NUM_HEXES in Hh. lia.
Qed.

Lemma boardRuns_makeMove (b : HexukiBitboard) (m : Move) :
  0 <= hexOccupied b < 2 ^ 32 -> 0 <= hexId m < NUM_HEXES ->
  boardRuns (makeMove b m) = spec_chains b (hexId m).
Proof.
  intros Hocc Hh. unfold boardRuns, spec_chains.
  induction boardLines as [|l ls IHl]; [reflexivity|]. csimpl.
  rewrite IHl. f_equal. apply spec_runs_ext. intros x.
  by apply isHexOccupied_makeMove.
Qed.

(** What the walk of [checkChainLengthConstraint] finds, in terms of the
    runs of the board with the hex occupied. *)
Lemma checkChainLengthConstraint_runs (b : HexukiBitboard) (h : Z) :
  walks_end -> 0 <= hexOccupied b < 2 ^ 32 -> 0 <= h < NUM_HEXES ->
  exists ok,
    checkChainLengthConstraint b h = Some (ok, b)
    /\ (ok = true <->
        spec_longestThrough h (spec_chains b h)
        <= spec_secondLargest ((fun c => Z.of_nat (length c)) <$> spec_chains b h) + 1).
Proof.
  intros Hw Hocc Hh. unfold checkChainLengthConstraint, walkAllStarters.
  rewrite walkStarters_runs by (by apply walks_end_seq).
  rewrite <- boardLines_eq.
  set (b2 := set_hexValues _ _).
  assert ((boardLines ≫= fun line => spec_runs (isHexOccupied b2) line [])
          = spec_chains b h) as ->.
  { unfold spec_chains.
    induction boardLines as [|l ls IHl]; [reflexivity|]. csimpl.
    rewrite IHl. f_equal. apply spec_runs_ext. intros x.
    unfold isHexOccupied, spec_occupiedAfter, b2.
    cbn [hexOccupied set_hexValues set_hexOccupied].
    apply placed_testbit; [exact Hocc|unfold NUM_HEXES in Hh; lia]. }
  destruct (endChain_fold h (spec_chains b h) [] (mkChainMax 0 0 0)) as [[_ Hs] Hl].
  { unfold spec_chains. apply Forall_bind. apply Forall_forall.
    intros line _. apply spec_runs_nonempty. }
  { constructor. }
  { split; reflexivity. }
  { reflexivity. }
  cbn [app] in Hs, Hl. eexists. split.
  - f_equal. f_equal. unfold b2. destruct b as [occ vals p1 p2 cp sy ti zh].
    unfold set_hexOccupied, set_hexValues, getTileValue.
    cbn [hexOccupied hexValues p1AvailableTiles p2AvailableTiles currentPlayer
         symmetryStillPossible tilesAreIdentical zobristHash].
    by rewrite restore_hexValues.
  - rewrite <- Hs, <- Hl.
    rewrite negb_true_iff. rewrite Z.gtb_ltb, Z.ltb_ge. reflexivity.
Qed.

(** X23.  [checkChainLengthConstraint] agrees with the chain queries on the
    position after the move.  It hands back the board as it found it, and it
    accepts the hex of a move exactly when, on the board [makeMove] leads to,
    every chain of [getAllChainsWithMembers] through that hex is at most one
    longer than the second length of [getFirstAndSecondChainLengths]. *)
Theorem checkChainLengthConstraint_agrees (b : HexukiBitboard) (m : Move) :
  walks_end -> 0 <= hexOccupied b < 2 ^ 32 -> 0 <= hexId m < NUM_HEXES ->
  exists ok first second chains,
    checkChainLengthConstraint b (hexId m) = Some (ok, b)
    /\ getFirstAndSecondChainLengths (makeMove b m) = Some (first, second)
    /\ getAllChainsWithMembers (makeMove b m) = Some chains
    /\ (ok = true <->
        forall c, c ∈ chains -> hexId m ∈ ci_hexIds c -> ci_length c <= second + 1).
Proof.
  intros Hw Hocc Hh.
  destruct (checkChainLengthConstraint_runs b (hexId m) Hw Hocc Hh) as (ok & Hcheck & Hok).
  rewrite <- (boardRuns_makeMove b m Hocc Hh) in Hok.
  set (b' := makeMove b m) in *.
  set (lens := (fun c => Z.of_nat (length c)) <$> boardRuns b') in *.
  assert (Forall (fun x => 0 < x) lens) as Hpos.
  { apply Forall_fmap, Forall_forall. intros r Hr.
    destruct (boardRuns_maximal b' r Hr) as (line & _ & Hne & _).
    destruct r; [done|]. cbn. lia. }
  exists ok, (list_max_Z lens), (spec_secondLargest lens). eexists.
  split; [exact Hcheck|]. split.
  { unfold getFirstAndSecondChainLengths. rewrite (getAllChainLengths_eq b' Hw).
    cbn [mbind option_bind]. by rewrite firstAndSecond_spec. }
  split; [apply (getAllChainsWithMembers_eq b' Hw)|].
  pose proof (spec_secondLargest_le lens) as [Hsec _].
  rewrite Hok. unfold spec_longestThrough. split.
  - intros Hmax c Hc Hin. apply elem_of_app in Hc as [Hc|Hc].
    + apply list_elem_of_fmap in Hc as (r & -> & Hr).
      cbn [chainInfoOf ci_length ci_hexIds] in *.
      etransitivity; [|exact Hmax]. apply list_max_Z_ge.
      apply (list_elem_of_fmap_2 (fun c => Z.of_nat (length c))).
      apply list_elem_of_filter. by split.
    + apply list_elem_of_fmap in Hc as (x & -> & _). cbn [ci_length]. lia.
  - intros Hall. apply list_max_Z_le; [lia|].
    intros x (r & -> & Hr)%list_elem_of_fmap.
    apply list_elem_of_filter in Hr as [Hin Hr].
    apply (Hall (chainInfoOf r)); [|exact Hin].
    apply elem_of_app. left. by apply list_elem_of_fmap_2.
Qed.

(** ** Moves that were not generated *)

Lemma eraseFirst_not_elem (v : Z) (l : list Z) :
  v ∉ l -> eraseFirst v l = l.
Proof.
  induction l as [|x l IH]; [done|]. intros [Hne Hl]%not_elem_of_cons.
  cbn [eraseFirst]. destruct (Z.eqb_spec x v) as [->|_]; [done|].
  by rewrite IH.
Qed.

Lemma cleared_testbit (occ h : Z) :
  0 <= h < 32 ->
  Z.testbit (wrap_u32 (Z.land occ (wrap_u32 (Z.lnot (wrap_u32 (Z.shiftl 1 h)))))) h
  = false.
Proof.
  intros Hh.
  rewrite wrap_u32_testbit, Z.land_spec by lia.
  rewrite wrap_u32_testbit, Z.lnot_spec, wrap_u32_testbit, shift1_testbit by lia.
  rewrite Z.eqb_refl.
  destruct (Z.ltb_spec h 32); [|lia]. cbn. by rewrite andb_false_r.
Qed.

(** X24.  [makeMove] does not check the move.  A tile that the side to move
    does not hold is placed all the same and no tile leaves the bag, so that
    after [unmakeMove] the bag is the old one with that tile appended.  A
    move onto an occupied hex overwrites the tile there, so that after
    [unmakeMove] the hex is empty with value 0: the tile that stood there is
    gone. *)
Theorem makeMove_unchecked (b : HexukiBitboard) (m : Move) :
  Position_wf b -> values_sized b -> 0 <= hexId m < NUM_HEXES ->
  (tileValue m ∉ moverTiles b ->
   moverTiles (unmakeMove (makeMove b m) m) = moverTiles b ++ [tileValue m])
  /\ (isHexOccupied b (hexId m) = true ->
      isHexOccupied (unmakeMove (makeMove b m) m) (hexId m) = false
      /\ getTileValue (unmakeMove (makeMove b m) m) (hexId m) = 0).
Proof.
  intros (Hocc & Hcp & _) [Hlen _] Hh.
  assert (0 <= hexId m < 32) as Hh32 by (unfold NUM_HEXES in Hh; lia).
  destruct b as [occ vals p1 p2 cp sy ti zh].
  unfold isHexOccupied, getTileValue, moverTiles in *.
  cbn [hexOccupied hexValues currentPlayer p1AvailableTiles p2AvailableTiles] in *.
  assert (<[Z.to_nat (hexId m) := 0]>
            (<[Z.to_nat (hexId m) := wrap_u8 (tileValue m)]> vals)
          !!! Z.to_nat (hexId m) = 0) as Hzero.
  { apply list_lookup_total_insert_eq. rewrite length_insert, Hlen.
    unfold NUM_HEXES in Hh. lia. }
  destruct Hcp as [-> | ->].
  - change (PLAYER_1 =? PLAYER_1) with true. split.
    + intros Hv. cbn. by rewrite (eraseFirst_not_elem _ _ Hv).
    + intros _. split; [apply (cleared_testbit _ _ Hh32)|exact Hzero].
  - change (PLAYER_2 =? PLAYER_1) with false. split.
    + intros Hv. cbn. by rewrite (eraseFirst_not_elem _ _ Hv).
    + intros _. split; [apply (cleared_testbit _ _ Hh32)|exact Hzero].
Qed.

End Coverage.

(** * The further properties on concrete positions *)

(** Two moves ordered with empty heuristic tables. *)
Lemma orderMoves_rearranges_witness :
  exists ordered priorities,
    orderMoves [mkMove 4 1; mkMove 4 9] None (KillerMoves_new (T := refTables))
               HistoryTable_new 0 = Some ordered
    /\ ordered ≡ₚ [mkMove 4 1; mkMove 4 9]
    /\ length ordered = length [mkMove 4 1; mkMove 4 9]
    /\ Forall2 (fun m s => orderingScore None (KillerMoves_new (T := refTables))
                                         HistoryTable_new 0 m = Some s)
               ordered priorities
    /\ StronglySorted (fun a b : Z => b <= a) priorities.
Proof.
  apply orderMoves_rearranges.
  - split; reflexivity.
  - split; [reflexivity|]. apply Forall_replicate. reflexivity.
Defined.

(** The initial position with the move given to player 2. *)
Lemma evaluate_other_side_witness :
  evaluate (T := refTables)
    (set_currentPlayer (HexukiBitboard_new (T := refTables))
       (otherPlayer (currentPlayer (HexukiBitboard_new (T := refTables)))))
  = int_neg (evaluate (T := refTables) (HexukiBitboard_new (T := refTables))).
Proof.
  apply evaluate_other_side. left. reflexivity.
Defined.

Lemma ref_two_moves_playable :
  playable (T := refTables) (HexukiBitboard_new (T := refTables))
           [mkMove 4 1; mkMove 6 2].
Proof.
  split; [split; [split; [vm_compute; split; [discriminate|reflexivity]|reflexivity]|]|].
  - apply list_elem_of_In. vm_compute. tauto.
  - split; [|exact I]. split; [split; [vm_compute; split; [discriminate|reflexivity]|reflexivity]|].
    apply list_elem_of_In. vm_compute. tauto.
Qed.

(** Two moves from the initial position, made and unmade. *)
Lemma unmakeMoves_makeMoves_restores_witness :
  sameUpToBagOrder
    (unmakeMoves (T := refTables)
       (makeMoves (T := refTables) (HexukiBitboard_new (T := refTables))
                  [mkMove 4 1; mkMove 6 2])
       (rev [mkMove 4 1; mkMove 6 2]))
    (HexukiBitboard_new (T := refTables)).
Proof.
  apply unmakeMoves_makeMoves_restores.
  - apply Position_wf_new.
  - apply ref_two_moves_playable.
Defined.

(** The initial position searched to depth 1, through either interface. *)
Lemma findBestMove_restores_position_witness :
  (exists r b',
     findBestMove (T := refTables) ref_clock 19 (HexukiBitboard_new (T := refTables))
                  (mkConfig 1 30000 true true true 128 false) = Some (r, b')
     /\ sameUpToBagOrder b' (HexukiBitboard_new (T := refTables)))
  /\ (exists r b',
        findBestMoveDepth (T := refTables) ref_clock 19
                          (HexukiBitboard_new (T := refTables)) 1 30000 = Some (r, b')
        /\ sameUpToBagOrder b' (HexukiBitboard_new (T := refTables))).
Proof.
  apply findBestMove_restores_position.
  - apply ref_walks_end.
  - apply Position_wf_new.
  - lia.
Defined.

(** The chains of the initial position. *)
Lemma getAllChainLengths_runs_witness :
  exists lengths,
    getAllChainLengths (T := refTables) (HexukiBitboard_new (T := refTables))
    = Some lengths
    /\ lengths = (fun r => Z.of_nat (length r))
                   <$> boardRuns (T := refTables) (HexukiBitboard_new (T := refTables))
    /\ Forall (fun len => 1 <= len) lengths
    /\ forall r, r ∈ boardRuns (T := refTables) (HexukiBitboard_new (T := refTables)) ->
         exists line,
           line ∈ boardLines (T := refTables)
           /\ isMaximalRun (isHexOccupied (HexukiBitboard_new (T := refTables))) line r.
Proof.
  apply getAllChainLengths_runs. apply ref_walks_end.
Defined.

Lemma getFirstAndSecondChainLengths_spec_witness :
  exists lengths first second,
    getAllChainLengths (T := refTables) (HexukiBitboard_new (T := refTables))
    = Some lengths
    /\ getFirstAndSecondChainLengths (T := refTables)
         (HexukiBitboard_new (T := refTables)) = Some (first, second)
    /\ first = list_max_Z lengths
    /\ second = list_max_Z (eraseFirst first lengths)
    /\ 0 <= second <= first
    /\ (forall len, len ∈ lengths -> len <= first)
    /\ (lengths <> [] -> first ∈ lengths).
Proof.
  apply getFirstAndSecondChainLengths_spec. apply ref_walks_end.
Defined.

Lemma getAllChainsWithMembers_spec_witness :
  exists chains,
    getAllChainsWithMembers (T := refTables) (HexukiBitboard_new (T := refTables))
    = Some chains
    /\ chains = (chainInfoOf
                   <$> boardRuns (T := refTables) (HexukiBitboard_new (T := refTables)))
                ++ ((fun h => mkChainInfo 1 [h])
                      <$> isolatedHexes (T := refTables)
                            (HexukiBitboard_new (T := refTables)))
    /\ (forall c, c ∈ chains ->
          ci_length c = Z.of_nat (length (ci_hexIds c))
          /\ 1 <= ci_length c
          /\ Forall (fun h => isHexOccupied (HexukiBitboard_new (T := refTables)) h = true)
                    (ci_hexIds c))
    /\ (forall h, 0 <= h < NUM_HEXES ->
          isHexOccupied (HexukiBitboard_new (T := refTables)) h = true ->
          exists c, c ∈ chains /\ h ∈ ci_hexIds c).
Proof.
  apply getAllChainsWithMembers_spec. apply ref_walks_end.
Defined.

(** Two moves from the initial position: 16 of the 18 empty hexes are left. *)
Lemma playable_line_length_witness :
  (length [mkMove 4 1; mkMove 6 2]
   + emptyCount (makeMoves (T := refTables) (HexukiBitboard_new (T := refTables))
                           [mkMove 4 1; mkMove 6 2])
   = emptyCount (HexukiBitboard_new (T := refTables)))%nat
  /\ (length [mkMove 4 1; mkMove 6 2] <= 19)%nat
  /\ (isGameOver (makeMoves (T := refTables) (HexukiBitboard_new (T := refTables))
                            [mkMove 4 1; mkMove 6 2]) = true
      <-> length [mkMove 4 1; mkMove 6 2]
          = emptyCount (HexukiBitboard_new (T := refTables))).
Proof.
  apply playable_line_length.
  - vm_compute. split; [discriminate|reflexivity].
  - apply ref_two_moves_playable.
Defined.

(** A killer recorded at ply 3 of an empty table. *)
Lemma KillerMoves_update_isKiller_witness :
  exists k',
    KillerMoves_update (KillerMoves_new (T := refTables)) 3 (mkMove 4 1) = Some k'
    /\ KillerMoves_isKiller k' 3 (mkMove 4 1) = Some true
    /\ (forall m0, arr_get (killer1 (KillerMoves_new (T := refTables))) 3 = Some m0 ->
                   KillerMoves_isKiller k' 3 m0 = Some true)
    /\ (forall ply' m', ply' <> 3 ->
          KillerMoves_isKiller k' ply' m'
          = KillerMoves_isKiller (KillerMoves_new (T := refTables)) ply' m').
Proof.
  apply KillerMoves_update_isKiller.
  - split; reflexivity.
  - unfold KILLER_MAX_DEPTH. lia.
Defined.

(** A cutoff at depth 3 recorded in an empty history table. *)
Lemma HistoryTable_update_getScore_witness :
  exists t',
    HistoryTable_update HistoryTable_new (mkMove 4 1) 3 = Some t'
    /\ (HistoryTable_inRange (mkMove 4 1) = true ->
        exists old,
          HistoryTable_getScore HistoryTable_new (mkMove 4 1) = Some old
          /\ HistoryTable_getScore t' (mkMove 4 1) = Some (int_add old (int_mul 3 3)))
    /\ (HistoryTable_inRange (mkMove 4 1) = false ->
        t' = HistoryTable_new
        /\ HistoryTable_getScore HistoryTable_new (mkMove 4 1) = Some 0)
    /\ (forall m', hexId m' <> hexId (mkMove 4 1) \/ tileValue m' <> tileValue (mkMove 4 1) ->
          HistoryTable_getScore t' m' = HistoryTable_getScore HistoryTable_new m').
Proof.
  apply HistoryTable_update_getScore.
  split; [reflexivity|]. apply Forall_replicate. reflexivity.
Defined.

(** A position read from its text form. *)
Lemma loadPosition_wellformed_witness :
  exists b,
    ref_load "h9:1,h4:5|p1:2,3|p2:3,2|turn:2" = Ok b
    /\ 0 <= hexOccupied b < 2 ^ NUM_HEXES
    /\ values_sized b
    /\ (forall h, 0 <= h < NUM_HEXES -> isHexOccupied b h = false ->
                  getTileValue b h = 0)
    /\ (tilesAreIdentical b = true <-> p1AvailableTiles b ≡ₚ p2AvailableTiles b)
    /\ (currentPlayer b = PLAYER_1 \/ currentPlayer b = PLAYER_2 -> Position_wf b).
Proof.
  eexists. split; [vm_compute; reflexivity|].
  apply (loadPosition_wellformed (T := refTables) (HexukiBitboard_new (T := refTables)) _
           "h9:1,h4:5|p1:2,3|p2:3,2|turn:2").
  vm_compute. reflexivity.
Defined.

(** The initial position searched to depth 1. *)
Lemma findBestMove_returns_generated_move_witness :
  exists moves r b',
    getValidMoves (T := refTables) (HexukiBitboard_new (T := refTables)) = Some moves
    /\ findBestMove (T := refTables) ref_clock 19 (HexukiBitboard_new (T := refTables))
         (mkConfig 1 30000 true true true 128 false) = Some (r, b')
    /\ (bestMove r ∈ moves \/ bestMove r = Move_default (Tables := refTables))
    /\ (moves = [] -> bestMove r = Move_default (Tables := refTables))
    /\ (useIterativeDeepening (mkConfig 1 30000 true true true 128 false) = false ->
        moves <> [] -> bestMove r ∈ moves).
Proof.
  apply findBestMove_returns_generated_move.
  - apply ref_walks_end.
  - vm_compute. split; [discriminate|reflexivity].
  - lia.
Defined.

(** Tile 5 put on hex 4 of a cleared board, and taken off again. *)
Lemma setHexValue_removeHexValue_witness :
  let b := clearBoard (T := refTables) (HexukiBitboard_new (T := refTables)) in
  isHexOccupied (setHexValue (T := refTables) b 4 5) 4 = true
  /\ getTileValue (setHexValue (T := refTables) b 4 5) 4 = 5 mod 256
  /\ (forall x, x <> 4 ->
        isHexOccupied (setHexValue (T := refTables) b 4 5) x = isHexOccupied b x
        /\ (0 <= x -> getTileValue (setHexValue (T := refTables) b 4 5) x
                      = getTileValue b x))
  /\ zobristHash (setHexValue (T := refTables) b 4 5)
     = Zobrist_hash (T := refTables) (setHexValue (T := refTables) b 4 5)
  /\ (isHexOccupied b 4 = false ->
      sameContent (removeHexValue (T := refTables) (setHexValue (T := refTables) b 4 5) 4)
                  b).
Proof.
  intros b. apply setHexValue_removeHexValue.
  - apply clearBoard_shape.
  - unfold NUM_HEXES. lia.
Defined.

(** A cleared board with tile 5 on hex 4 and tile 300 on hex 7 (kept as
    the byte 44), written and read back. *)
Lemma loadPosition_savePosition_witness :
  let b := setHexValue (T := refTables)
             (setHexValue (T := refTables)
                (clearBoard (T := refTables) (HexukiBitboard_new (T := refTables))) 4 5)
             7 300 in
  exists b',
    loadPosition (T := refTables) (HexukiBitboard_new (T := refTables)) (savePosition b)
    = Ok b'
    /\ sameContent b' b
    /\ savePosition b' = savePosition b.
Proof.
  intros b. apply (loadPosition_savePosition (T := refTables)).
  - apply setHexValue_shape, setHexValue_shape, clearBoard_shape.
  - repeat (constructor; [split; [discriminate|reflexivity]|]). constructor.
  - repeat (constructor; [split; [discriminate|reflexivity]|]). constructor.
  - split; [discriminate|reflexivity].
Defined.

(** The initial position searched one ply deep. *)
Lemma alphaBeta_depth1_exact_witness :
  let b := HexukiBitboard_new (T := refTables) in
  let s := searchStart (T := refTables) b SearchConfig_default in
  exists v best s',
    alphaBeta (T := refTables) ref_clock 2 30000 1 (- INF) INF 0 s = Some (v, s')
    /\ best ∈ ref_initial_moves
    /\ v = childScore (T := refTables) (s_board s) best
    /\ (forall m, m ∈ ref_initial_moves ->
                  childScore (T := refTables) (s_board s) m <= v)
    /\ table (s_tt s') !! zobristHash (s_board s) = Some (mkTTEntry v 1 EXACT best)
    /\ sameUpToBagOrder (s_board s') (s_board s).
Proof.
  intros b s.
  apply (alphaBeta_depth1_exact (T := refTables) ref_clock 0 30000 0 s ref_initial_moves).
  - apply ref_walks_end.
  - apply searchStart_inv. vm_compute. split; [discriminate|reflexivity].
  - apply Position_wf_new.
  - intros k. reflexivity.
  - apply lookup_empty.
  - vm_compute. reflexivity.
  - discriminate.
  - apply (bool_decide_unpack _). vm_compute. reflexivity.
Defined.

(** The first move of the initial position. *)
Lemma isValidMove_generated_witness :
  exists moves,
    getValidMoves (T := refTables) (HexukiBitboard_new (T := refTables)) = Some moves
    /\ mkMove 4 1 ∈ moves.
Proof.
  apply isValidMove_generated.
  - apply ref_walks_end.
  - vm_compute. reflexivity.
Defined.

(** The chain rule for the first move of the initial position. *)
Lemma checkChainLengthConstraint_agrees_witness :
  exists ok first second chains,
    checkChainLengthConstraint (T := refTables) (HexukiBitboard_new (T := refTables)) 4
    = Some (ok, HexukiBitboard_new (T := refTables))
    /\ getFirstAndSecondChainLengths (T := refTables)
         (makeMove (T := refTables) (HexukiBitboard_new (T := refTables)) (mkMove 4 1))
       = Some (first, second)
    /\ getAllChainsWithMembers (T := refTables)
         (makeMove (T := refTables) (HexukiBitboard_new (T := refTables)) (mkMove 4 1))
       = Some chains
    /\ (ok = true <->
        forall c, c ∈ chains -> 4 ∈ ci_hexIds c -> ci_length c <= second + 1).
Proof.
  apply (checkChainLengthConstraint_agrees (T := refTables)
           (HexukiBitboard_new (T := refTables)) (mkMove 4 1)).
  - apply ref_walks_end.
  - vm_compute. split; [discriminate|reflexivity].
  - vm_compute. split; [discriminate|reflexivity].
Defined.

(** A tile 10, which nobody holds, onto the occupied centre of the initial
    position. *)
Lemma makeMove_unchecked_witness :
  moverTiles
    (unmakeMove (T := refTables)
       (makeMove (T := refTables) (HexukiBitboard_new (T := refTables)) (mkMove 9 10))
       (mkMove 9 10))
  = moverTiles (HexukiBitboard_new (T := refTables)) ++ [10]
  /\ isHexOccupied
       (unmakeMove (T := refTables)
          (makeMove (T := refTables) (HexukiBitboard_new (T := refTables)) (mkMove 9 10))
          (mkMove 9 10)) 9 = false
  /\ getTileValue
       (unmakeMove (T := refTables)
          (makeMove (T := refTables) (HexukiBitboard_new (T := refTables)) (mkMove 9 10))
          (mkMove 9 10)) 9 = 0.
Proof.
  pose proof (makeMove_unchecked (T := refTables)
                (HexukiBitboard_new (T := refTables)) (mkMove 9 10)) as H.
  destruct H as [Ha Hb].
  - apply Position_wf_new.
  - split; [reflexivity|]. apply (bool_decide_unpack _). vm_compute. reflexivity.
  - vm_compute. split; [discriminate|reflexivity].
  - split; [|apply Hb; reflexivity].
    apply Ha. apply (bool_decide_unpack _). vm_compute. reflexivity.
Defined.
